(** * Planar positioning pipeline and mini-golf engine: a shallow embedding

    The Python sources [game_engine.py], [calibration.py], [positioning.py]
    and [tracking.py] are embedded function by function.  Python integers
    are [Z].  Python floats are read as real numbers ([R]) with the exact
    additions, products, quotients and square roots; the properties stated
    on this embedding are those that rounding leaves as they are.  Where a
    property depends on how the arithmetic rounds, the functions concerned
    are embedded once more in [Module floating], over an arithmetic that is
    either IEEE binary64 or the reals followed by a rounding function.
    Calls into OpenCV whose result only depends on the image content
    (homography solver, colour segmentation and contour extraction) are
    inputs of the model.  [print] calls are not modelled. *)

From Stdlib Require Import Floats.PrimFloat Floats.FloatOps Floats.SpecFloat.
From Stdlib Require Import Reals Lra Lia ZArith List Bool.
Import ListNotations.

Open Scope R_scope.

Set Warnings "-inexact-float".

(** ** Numeric vocabulary shared by all modules *)

Definition point : Type := (R * R)%type.

(** Comparisons as the booleans Python computes. *)
Definition Rltb (x y : R) : bool := if Rlt_dec x y then true else false.
Definition Rleb (x y : R) : bool := if Rle_dec x y then true else false.

Infix "<?" := Rltb (at level 70, no associativity) : R_scope.
Infix "<=?" := Rleb (at level 70, no associativity) : R_scope.

(** Python's builtin [max(a, b)]: [b] only when [b > a]. *)
Definition py_max (a b : R) : R := if a <? b then b else a.

(** [a - b] on numpy 2-vectors and [np.linalg.norm]. *)
Definition vsub (a b : point) : point := (fst a - fst b, snd a - snd b).
Definition norm (v : point) : R := sqrt (fst v * fst v + snd v * snd v).

(** Relative closeness of two reals and of two points. *)
Definition within_rel (tol a b : R) : Prop := Rabs (a - b) <= tol * Rabs b.

Definition point_within_rel (tol : R) (a b : point) : Prop :=
  within_rel tol (fst a) (fst b) /\ within_rel tol (snd a) (snd b).

(** A float that may be [float('inf')]. *)
Inductive xreal : Type :=
| Fin (r : R)
| Inf.

Definition xlt (d : xreal) (c : R) : bool :=
  match d with
  | Fin r => r <? c
  | Inf => false
  end.

(** Python's [l[i:]] for a possibly negative [i]. *)
Definition slice_from {A : Type} (i : Z) (l : list A) : list A :=
  if (i <? 0)%Z
  then skipn (Z.to_nat (Z.of_nat (length l) + i)) l
  else skipn (Z.to_nat i) l.

(** [int(x)] on a float: truncation towards zero. *)
Definition int_of (x : R) : Z :=
  if 0 <=? x then Int_part x else (- Int_part (- x))%Z.

(** Exceptions a call may end with instead of returning. *)
Inductive exn : Type :=
| TypeError      (* an operand is [None] *)
| LinAlgError    (* [np.linalg.inv] on a singular matrix *)
| cv2_error.     (* OpenCV rejects its argument *)

Inductive result (A : Type) : Type :=
| Ret (a : A)
| Raise (e : exn).

Arguments Ret {A} a.
Arguments Raise {A} e.

(** 3-vectors and 3x3 matrices (row major), with [M @ p]. *)
Definition vec3 : Type := (R * R * R)%type.

Record mat3 : Type := mkMat3 {
  m00 : R; m01 : R; m02 : R;
  m10 : R; m11 : R; m12 : R;
  m20 : R; m21 : R; m22 : R
}.

Definition mat_vec (M : mat3) (p : vec3) : vec3 :=
  let '(x, y, z) := p in
  (m00 M * x + m01 M * y + m02 M * z,
   m10 M * x + m11 M * y + m12 M * z,
   m20 M * x + m21 M * y + m22 M * z).

Definition mat_transpose (A : mat3) : mat3 :=
  mkMat3 (m00 A) (m10 A) (m20 A)
         (m01 A) (m11 A) (m21 A)
         (m02 A) (m12 A) (m22 A).

Definition identity3 : mat3 := mkMat3 1 0 0 0 1 0 0 0 1.

Definition det3 (M : mat3) : R :=
  m00 M * (m11 M * m22 M - m12 M * m21 M)
  - m01 M * (m10 M * m22 M - m12 M * m20 M)
  + m02 M * (m10 M * m21 M - m11 M * m20 M).

(** [np.linalg.inv] in exact arithmetic: the inverse matrix, or [None]
    (numpy's [LinAlgError]) where the determinant is 0.  numpy itself
    eliminates in binary64 and raises only on a pivot that is exactly 0;
    [floating._compute_homography] takes its answer as an input instead. *)
Definition inv3 (M : mat3) : option mat3 :=
  let d := det3 M in
  if Req_dec_T d 0 then None
  else Some (mkMat3
    ((m11 M * m22 M - m12 M * m21 M) / d)
    ((m02 M * m21 M - m01 M * m22 M) / d)
    ((m01 M * m12 M - m02 M * m11 M) / d)
    ((m12 M * m20 M - m10 M * m22 M) / d)
    ((m00 M * m22 M - m02 M * m20 M) / d)
    ((m02 M * m10 M - m00 M * m12 M) / d)
    ((m10 M * m21 M - m11 M * m20 M) / d)
    ((m01 M * m20 M - m00 M * m21 M) / d)
    ((m00 M * m11 M - m01 M * m10 M) / d)).

(** ** config.py *)
Module config.

Definition BALL_HSV_LOWER : Z * Z * Z := (20, 80, 100)%Z.
Definition BALL_HSV_UPPER : Z * Z * Z := (32, 200, 200)%Z.

Definition BALL_MIN_RADIUS_PX : R := 8.
Definition BALL_MAX_RADIUS_PX : R := 120.
Definition BALL_REAL_RADIUS_CM : R := 2.
Definition TRACKING_SEARCH_MARGIN : Z := 80.

Definition HOLE_RADIUS_CM : R := 3.5.
Definition HOLE_IN_TOLERANCE_CM : R := 4.
Definition BALL_STOPPED_THRESHOLD_CM : R := 0.8.
Definition BALL_STOPPED_FRAMES : Z := 15.

Definition HOLE_POSITIONS : list point :=
  [ (45, 20); (15, 10); (50, 35); (10, 30); (30, 5) ].

Definition OBSTACLES : list (R * R * R) := [].

Definition MAX_PUTTS_PER_HOLE : Z := 10.

Definition PLAY_AREA_WIDTH : R := 60.
Definition PLAY_AREA_HEIGHT : R := 40.

Definition WORLD_CORNERS : list point :=
  [ (0, 0); (PLAY_AREA_WIDTH, 0);
    (PLAY_AREA_WIDTH, PLAY_AREA_HEIGHT); (0, PLAY_AREA_HEIGHT) ].

End config.

(** ** game_engine.py *)
Module game_engine.

(** The status line.  Each constructor is one of the format strings of
    the source together with the values it interpolates. *)
Inductive status_text : Type :=
| MsgEmpty                                 (* the empty string                      *)
| MsgLevelPlay (level : Z)                 (* "Nivel {level} - ¡A jugar!"           *)
| MsgCountdown (remaining : R)             (* "¡EMBOCADA! Siguiente nivel en {r}s"  *)
| MsgNotDetected                           (* "Pelota no detectada"                 *)
| MsgMoving (dist : xreal)                 (* "Pelota en movimiento... Dist: {d} cm" *)
| MsgHitBall (level : Z)                   (* "Nivel {level} - ¡Golpea la pelota!"  *)
| MsgMaxPutts                              (* "Máximo de golpes alcanzado"          *)
| MsgPutts (putts : Z) (dist : xreal)      (* "Golpes: {putts} | Dist: {d} cm"      *)
| MsgHoleIn (putts : Z)                    (* "¡¡¡EMBOCADA en {putts} golpe(s)!!!"  *)
| MsgCompleted (total_score : Z)           (* "¡¡PARTIDA COMPLETADA!! ..."          *)
| MsgRestarted (level : Z).                (* "Nivel {level} reiniciado"            *)

Record GameState : Type := mkGameState {
  level : Z;
  putts : Z;
  total_score : Z;
  status : status_text;
  ball_world_pos : option point;
  ball_image_pos : option point;
  hole_position : option point;
  obstacles : list (R * R * R);
  is_ball_moving : bool;
  is_hole_in : bool;
  game_over : bool;
  distance_to_hole : xreal
}.

(** [GameState()] *)
Definition GameState_init : GameState :=
  {| level := 1; putts := 0; total_score := 0; status := MsgEmpty;
     ball_world_pos := None; ball_image_pos := None; hole_position := None;
     obstacles := config.OBSTACLES;
     is_ball_moving := false; is_hole_in := false; game_over := false;
     distance_to_hole := Inf |}.

Definition set_level (v : Z) (s : GameState) : GameState :=
  mkGameState v (putts s) (total_score s) (status s) (ball_world_pos s)
    (ball_image_pos s) (hole_position s) (obstacles s) (is_ball_moving s)
    (is_hole_in s) (game_over s) (distance_to_hole s).
Definition set_putts (v : Z) (s : GameState) : GameState :=
  mkGameState (level s) v (total_score s) (status s) (ball_world_pos s)
    (ball_image_pos s) (hole_position s) (obstacles s) (is_ball_moving s)
    (is_hole_in s) (game_over s) (distance_to_hole s).
Definition set_total_score (v : Z) (s : GameState) : GameState :=
  mkGameState (level s) (putts s) v (status s) (ball_world_pos s)
    (ball_image_pos s) (hole_position s) (obstacles s) (is_ball_moving s)
    (is_hole_in s) (game_over s) (distance_to_hole s).
Definition set_status (v : status_text) (s : GameState) : GameState :=
  mkGameState (level s) (putts s) (total_score s) v (ball_world_pos s)
    (ball_image_pos s) (hole_position s) (obstacles s) (is_ball_moving s)
    (is_hole_in s) (game_over s) (distance_to_hole s).
Definition set_ball_world_pos (v : option point) (s : GameState) : GameState :=
  mkGameState (level s) (putts s) (total_score s) (status s) v
    (ball_image_pos s) (hole_position s) (obstacles s) (is_ball_moving s)
    (is_hole_in s) (game_over s) (distance_to_hole s).
Definition set_hole_position (v : option point) (s : GameState) : GameState :=
  mkGameState (level s) (putts s) (total_score s) (status s) (ball_world_pos s)
    (ball_image_pos s) v (obstacles s) (is_ball_moving s)
    (is_hole_in s) (game_over s) (distance_to_hole s).
Definition set_is_ball_moving (v : bool) (s : GameState) : GameState :=
  mkGameState (level s) (putts s) (total_score s) (status s) (ball_world_pos s)
    (ball_image_pos s) (hole_position s) (obstacles s) v
    (is_hole_in s) (game_over s) (distance_to_hole s).
Definition set_is_hole_in (v : bool) (s : GameState) : GameState :=
  mkGameState (level s) (putts s) (total_score s) (status s) (ball_world_pos s)
    (ball_image_pos s) (hole_position s) (obstacles s) (is_ball_moving s)
    v (game_over s) (distance_to_hole s).
Definition set_game_over (v : bool) (s : GameState) : GameState :=
  mkGameState (level s) (putts s) (total_score s) (status s) (ball_world_pos s)
    (ball_image_pos s) (hole_position s) (obstacles s) (is_ball_moving s)
    (is_hole_in s) v (distance_to_hole s).
Definition set_distance_to_hole (v : xreal) (s : GameState) : GameState :=
  mkGameState (level s) (putts s) (total_score s) (status s) (ball_world_pos s)
    (ball_image_pos s) (hole_position s) (obstacles s) (is_ball_moving s)
    (is_hole_in s) (game_over s) v.

Record MiniGolfEngine : Type := mkEngine {
  state : GameState;
  _stopped_frame_count : Z;
  _last_positions : list point;
  _max_history : Z;
  _level_start_time : R;
  _hole_in_time : R;
  _celebrating : bool;
  _celebration_duration : R
}.

(** [MiniGolfEngine()] *)
Definition MiniGolfEngine_init : MiniGolfEngine :=
  {| state := GameState_init;
     _stopped_frame_count := 0;
     _last_positions := [];
     _max_history := config.BALL_STOPPED_FRAMES * 2;
     _level_start_time := 0;
     _hole_in_time := 0;
     _celebrating := false;
     _celebration_duration := 3 |}.

Definition set_state (v : GameState) (e : MiniGolfEngine) : MiniGolfEngine :=
  mkEngine v (_stopped_frame_count e) (_last_positions e) (_max_history e)
    (_level_start_time e) (_hole_in_time e) (_celebrating e)
    (_celebration_duration e).
Definition set_stopped_frame_count (v : Z) (e : MiniGolfEngine) : MiniGolfEngine :=
  mkEngine (state e) v (_last_positions e) (_max_history e)
    (_level_start_time e) (_hole_in_time e) (_celebrating e)
    (_celebration_duration e).
Definition set_last_positions (v : list point) (e : MiniGolfEngine) : MiniGolfEngine :=
  mkEngine (state e) (_stopped_frame_count e) v (_max_history e)
    (_level_start_time e) (_hole_in_time e) (_celebrating e)
    (_celebration_duration e).
Definition set_level_start_time (v : R) (e : MiniGolfEngine) : MiniGolfEngine :=
  mkEngine (state e) (_stopped_frame_count e) (_last_positions e) (_max_history e)
    v (_hole_in_time e) (_celebrating e) (_celebration_duration e).
Definition set_hole_in_time (v : R) (e : MiniGolfEngine) : MiniGolfEngine :=
  mkEngine (state e) (_stopped_frame_count e) (_last_positions e) (_max_history e)
    (_level_start_time e) v (_celebrating e) (_celebration_duration e).
Definition set_celebrating (v : bool) (e : MiniGolfEngine) : MiniGolfEngine :=
  mkEngine (state e) (_stopped_frame_count e) (_last_positions e) (_max_history e)
    (_level_start_time e) (_hole_in_time e) v (_celebration_duration e).

(** [self.state.f = v] *)
Definition on_state (f : GameState -> GameState) (e : MiniGolfEngine)
  : MiniGolfEngine :=
  set_state (f (state e)) e.

(** [_set_hole_for_level]: the index is always in range, so the lookup
    is [Some]. *)
Definition _set_hole_for_level (lvl : Z) (e : MiniGolfEngine) : MiniGolfEngine :=
  let idx := ((lvl - 1) mod Z.of_nat (length config.HOLE_POSITIONS))%Z in
  on_state (set_hole_position (nth_error config.HOLE_POSITIONS (Z.to_nat idx))) e.

(** [start_game]; [now] is the value read from [time.time()]. *)
Definition start_game (now : R) (e : MiniGolfEngine) : MiniGolfEngine :=
  let e := set_state GameState_init e in
  let e := on_state (set_level 1) e in
  let e := on_state (set_total_score 0) e in
  let e := _set_hole_for_level 1 e in
  let e := on_state (set_status (MsgLevelPlay 1)) e in
  let e := set_level_start_time now e in
  set_celebrating false e.

(** The loop of [_check_movement]: largest step between consecutive
    samples. *)
Fixpoint displacement_loop (acc : R) (prev : point) (rest : list point) : R :=
  match rest with
  | [] => acc
  | p :: tl => displacement_loop (py_max acc (norm (vsub p prev))) p tl
  end.

Definition max_displacement (positions : list point) : R :=
  match positions with
  | [] => 0
  | p0 :: tl => displacement_loop 0 p0 tl
  end.

Definition _check_movement (e : MiniGolfEngine) : MiniGolfEngine * bool :=
  if (Z.of_nat (length (_last_positions e)) <? config.BALL_STOPPED_FRAMES)%Z
  then (e, true)
  else
    let recent := slice_from (- config.BALL_STOPPED_FRAMES) (_last_positions e) in
    let e :=
      if max_displacement recent <? config.BALL_STOPPED_THRESHOLD_CM
      then set_stopped_frame_count (_stopped_frame_count e + 1) e
      else set_stopped_frame_count 0 e in
    (e, (_stopped_frame_count e <? config.BALL_STOPPED_FRAMES)%Z).

Definition _hole_in (now : R) (e : MiniGolfEngine) : MiniGolfEngine :=
  let e := on_state (set_is_hole_in true) e in
  let e := set_celebrating true e in
  let e := set_hole_in_time now e in
  let e := if (putts (state e) =? 0)%Z then on_state (set_putts 1) e else e in
  let score := putts (state e) in
  let e := on_state (set_total_score (total_score (state e) + score)) e in
  on_state (set_status (MsgHoleIn (putts (state e)))) e.

Definition _advance_level (now : R) (e : MiniGolfEngine) : MiniGolfEngine :=
  let e := on_state (set_level (level (state e) + 1)) e in
  let e := on_state (set_putts 0) e in
  let e := on_state (set_is_hole_in false) e in
  let e := set_stopped_frame_count 0 e in
  let e := set_last_positions [] e in
  if (Z.of_nat (length config.HOLE_POSITIONS) <? level (state e))%Z
  then
    let e := on_state (set_game_over true) e in
    on_state (set_status (MsgCompleted (total_score (state e)))) e
  else
    let e := _set_hole_for_level (level (state e)) e in
    let e := on_state (set_status (MsgLevelPlay (level (state e)))) e in
    set_level_start_time now e.

(** [update].  [now] is the first value [time.time()] returns during the
    call and [later] the second one (only read when a celebration ends
    and the next level starts). *)
Definition update (now later : R) (ball_world_pos : option point)
    (e : MiniGolfEngine) : MiniGolfEngine :=
  if game_over (state e) then e
  else if _celebrating e then
    let elapsed := now - _hole_in_time e in
    if _celebration_duration e <? elapsed
    then _advance_level later (set_celebrating false e)
    else
      let remaining := _celebration_duration e - elapsed in
      on_state (set_status (MsgCountdown remaining)) e
  else
    match ball_world_pos with
    | None => on_state (set_status MsgNotDetected) e
    | Some pos =>
      let e := on_state (set_ball_world_pos (Some pos)) e in
      let e := set_last_positions (_last_positions e ++ [pos]) e in
      let e :=
        if (_max_history e <? Z.of_nat (length (_last_positions e)))%Z
        then set_last_positions
               (slice_from (- _max_history e) (_last_positions e)) e
        else e in
      let '(e, dist) :=
        match hole_position (state e) with
        | Some hole =>
          let dist := Fin (norm (vsub pos hole)) in
          (on_state (set_distance_to_hole dist) e, dist)
        | None => (e, Inf)
        end in
      let '(e, is_moving) := _check_movement e in
      let was_moving := is_ball_moving (state e) in
      let e := on_state (set_is_ball_moving is_moving) e in
      let e :=
        if was_moving && negb is_moving
        then on_state (set_putts (putts (state e) + 1)) e
        else e in
      if xlt dist config.HOLE_IN_TOLERANCE_CM
         && (negb is_moving || xlt dist config.HOLE_RADIUS_CM)
      then _hole_in now e
      else if is_moving
      then on_state (set_status (MsgMoving dist)) e
      else if (putts (state e) =? 0)%Z
      then on_state (set_status (MsgHitBall (level (state e)))) e
      else if (config.MAX_PUTTS_PER_HOLE <=? putts (state e))%Z
      then
        let e := on_state (set_status MsgMaxPutts) e in
        let e := on_state (set_putts config.MAX_PUTTS_PER_HOLE) e in
        _advance_level now e
      else on_state (set_status (MsgPutts (putts (state e)) dist)) e
    end.

Definition restart_level (e : MiniGolfEngine) : MiniGolfEngine :=
  let e := on_state (set_putts 0) e in
  let e := on_state (set_is_hole_in false) e in
  let e := set_stopped_frame_count 0 e in
  let e := set_last_positions [] e in
  let e := set_celebrating false e in
  on_state (set_status (MsgRestarted (level (state e)))) e.

(** One call of [update] as the main loop issues it. *)
Record tick : Type := mkTick {
  t_now : R;
  t_later : R;
  t_ball : option point
}.

Definition step (e : MiniGolfEngine) (k : tick) : MiniGolfEngine :=
  update (t_now k) (t_later k) (t_ball k) e.

(** The engine after a sequence of calls. *)
Definition run (ticks : list tick) (e : MiniGolfEngine) : MiniGolfEngine :=
  fold_left step ticks e.

(** [check_obstacle_collision]: the loop over [self.state.obstacles]. *)
Fixpoint obstacle_loop (ball_pos : point) (obs : list (R * R * R))
  : bool * option (R * R * R) :=
  match obs with
  | [] => (false, None)
  | o :: rest =>
    let '(ox, oy, orad) := o in
    let obstacle_center := (ox, oy) in
    let dist := norm (vsub ball_pos obstacle_center) in
    let combined_radius := orad + config.BALL_REAL_RADIUS_CM in
    if dist <? combined_radius then (true, Some (ox, oy, orad))
    else obstacle_loop ball_pos rest
  end.

Definition check_obstacle_collision (ball_pos : point) (e : MiniGolfEngine)
  : bool * option (R * R * R) :=
  obstacle_loop ball_pos (obstacles (state e)).

Definition is_ball_in_bounds (ball_pos : point) : bool :=
  let margin := config.BALL_REAL_RADIUS_CM in
  (margin <=? fst ball_pos)
  && (fst ball_pos <=? config.PLAY_AREA_WIDTH - margin)
  && ((margin <=? snd ball_pos)
      && (snd ball_pos <=? config.PLAY_AREA_HEIGHT - margin)).

End game_engine.

(** ** calibration.py *)
Module calibration.

Record HomographyCalibrator : Type := mkCalibrator {
  H : option mat3;                     (* image -> world *)
  H_inv : option mat3;                 (* world -> image *)
  image_corners : option (list point);
  world_corners : list point;
  _click_points : list (Z * Z);
  _calibration_done : bool
}.

(** [HomographyCalibrator()] *)
Definition HomographyCalibrator_init : HomographyCalibrator :=
  {| H := None; H_inv := None; image_corners := None;
     world_corners := config.WORLD_CORNERS;
     _click_points := []; _calibration_done := false |}.

Definition set_H (v : option mat3) (c : HomographyCalibrator) : HomographyCalibrator :=
  mkCalibrator v (H_inv c) (image_corners c) (world_corners c)
    (_click_points c) (_calibration_done c).
Definition set_H_inv (v : option mat3) (c : HomographyCalibrator) : HomographyCalibrator :=
  mkCalibrator (H c) v (image_corners c) (world_corners c)
    (_click_points c) (_calibration_done c).
Definition set_image_corners (v : option (list point)) (c : HomographyCalibrator)
  : HomographyCalibrator :=
  mkCalibrator (H c) (H_inv c) v (world_corners c)
    (_click_points c) (_calibration_done c).
Definition set_calibration_done (v : bool) (c : HomographyCalibrator)
  : HomographyCalibrator :=
  mkCalibrator (H c) (H_inv c) (image_corners c) (world_corners c)
    (_click_points c) v.

Definition is_calibrated (c : HomographyCalibrator) : bool := _calibration_done c.

Section Solver.

(** [cv2.findHomography(src, dst, cv2.RANSAC, 5.0)[0]]: the fitted matrix,
    or [None] when OpenCV finds no homography. *)
Variable findHomography : list point -> list point -> option mat3.

(** [_compute_homography].  The solver's answer is stored in [self.H]
    before it is tested.  The reprojection error computed at the end only
    feeds a log line. *)
Definition _compute_homography (c : HomographyCalibrator)
  : HomographyCalibrator * result bool :=
  match image_corners c with
  | None => (c, Raise cv2_error)
  | Some corners =>
    let c := set_H (findHomography corners (world_corners c)) c in
    match H c with
    | None => (set_calibration_done false c, Ret false)
    | Some h =>
      match inv3 h with
      | None => (c, Raise LinAlgError)
      | Some hi =>
        let c := set_H_inv (Some hi) c in
        (set_calibration_done true c, Ret true)
      end
    end
  end.

(** The dictionary [id_to_center]: a later marker with the same id
    replaces an earlier one. *)
Definition id_to_center (markers : list (Z * point)) (mid : Z) : option point :=
  fold_left (fun acc m => if (fst m =? mid)%Z then Some (snd m) else acc)
            markers None.

Fixpoint collect_centers (markers : list (Z * point)) (order : list Z)
  : option (list point) :=
  match order with
  | [] => Some []
  | mid :: rest =>
    match id_to_center markers mid with
    | None => None
    | Some c =>
      match collect_centers markers rest with
      | None => None
      | Some cs => Some (c :: cs)
      end
    end
  end.

(** [calibrate_aruco]; [detected] is what the ArUco detector reports for
    the frame: [None] for no marker at all, else each marker id with the
    centre of its four corners. *)
Definition calibrate_aruco (detected : option (list (Z * point)))
    (marker_ids_order : list Z) (c : HomographyCalibrator)
  : HomographyCalibrator * result bool :=
  match detected with
  | None => (c, Ret false)
  | Some markers =>
    if (Z.of_nat (length markers) <? 4)%Z then (c, Ret false)
    else
      match collect_centers markers marker_ids_order with
      | None => (c, Ret false)
      | Some image_pts => _compute_homography (set_image_corners (Some image_pts) c)
      end
  end.

End Solver.

Definition image_to_world (c : HomographyCalibrator) (image_point : point)
  : result (option point) :=
  if negb (_calibration_done c) then Ret None
  else
    match H c with
    | None => Raise TypeError
    | Some h =>
      let p := (fst image_point, snd image_point, 1) in
      let '(w0, w1, w2) := mat_vec h p in
      if Rabs w2 <? 1e-10 then Ret None
      else Ret (Some (w0 / w2, w1 / w2))
    end.

Definition world_to_image (c : HomographyCalibrator) (world_point : point)
  : result (option point) :=
  if negb (_calibration_done c) then Ret None
  else
    match H_inv c with
    | None => Raise TypeError
    | Some hi =>
      let p := (fst world_point, snd world_point, 1) in
      let '(q0, q1, q2) := mat_vec hi p in
      if Rabs q2 <? 1e-10 then Ret None
      else Ret (Some (q0 / q2, q1 / q2))
    end.

Definition set_homography_direct (h : mat3) (c : HomographyCalibrator)
  : HomographyCalibrator * result unit :=
  let c := set_H (Some h) c in
  match inv3 h with
  | None => (c, Raise LinAlgError)
  | Some hi => (set_calibration_done true (set_H_inv (Some hi) c), Ret tt)
  end.

End calibration.

(** ** positioning.py *)
Module positioning.

Import calibration.

(** [self.calibrator] is the calibrator as it is when the method runs. *)
Record PlanarPositioner : Type := mkPositioner {
  calibrator : HomographyCalibrator;
  _camera_center_world : option vec3
}.

Definition norm3 (v : vec3) : R :=
  let '(x, y, z) := v in sqrt (x * x + y * y + z * z).

Definition scale3 (v : vec3) (lam : R) : vec3 :=
  let '(x, y, z) := v in (x / lam, y / lam, z / lam).

Definition cross (a b : vec3) : vec3 :=
  let '(a0, a1, a2) := a in
  let '(b0, b1, b2) := b in
  (a1 * b2 - a2 * b1, a2 * b0 - a0 * b2, a0 * b1 - a1 * b0).

Definition column_stack (c0 c1 c2 : vec3) : mat3 :=
  let '(a0, a1, a2) := c0 in
  let '(b0, b1, b2) := c1 in
  let '(d0, d1, d2) := c2 in
  mkMat3 a0 b0 d0 a1 b1 d1 a2 b2 d2.

Definition neg3 (v : vec3) : vec3 :=
  let '(x, y, z) := v in (- x, - y, - z).

Section Pose.

(** [U @ Vt] for [U, _, Vt = np.linalg.svd(R)]. *)
Variable svd_rotation : mat3 -> mat3.

Definition _compute_camera_center (pp : PlanarPositioner)
  : result PlanarPositioner :=
  if negb (is_calibrated (calibrator pp)) then Ret pp
  else
    match H (calibrator pp) with
    | None => Raise TypeError
    | Some h =>
      let h1 := (m00 h, m10 h, m20 h) in
      let h2 := (m01 h, m11 h, m21 h) in
      let h3 := (m02 h, m12 h, m22 h) in
      let lambda1 := norm3 h1 in
      let lambda2 := norm3 h2 in
      let lam := (lambda1 + lambda2) / 2 in
      if lam <? 1e-10 then Ret pp
      else
        let r1 := scale3 h1 lam in
        let r2 := scale3 h2 lam in
        let t := scale3 h3 lam in
        let r3 := cross r1 r2 in
        let R := column_stack r1 r2 r3 in
        let R := svd_rotation R in
        let C := neg3 (mat_vec (mat_transpose R) t) in
        Ret (mkPositioner (calibrator pp) (Some C))
    end.

(** [PlanarPositioner(calibrator)] *)
Definition PlanarPositioner_init (c : HomographyCalibrator)
  : result PlanarPositioner :=
  _compute_camera_center (mkPositioner c None).

End Pose.

Definition image_to_plane (pp : PlanarPositioner) (image_point : point)
  : result (option point) :=
  image_to_world (calibrator pp) image_point.

Definition plane_to_image (pp : PlanarPositioner) (world_point : point)
  : result (option point) :=
  world_to_image (calibrator pp) world_point.

(** [correct_height].  The three early returns hand the input back as it
    is; the last branch is computed here in exact arithmetic, and with
    rounding in [floating.correct_height]. *)
Definition correct_height (pp : PlanarPositioner)
    (apparent_position : option point) (object_height : R) : option point :=
  match apparent_position with
  | None => None
  | Some apparent =>
    if Rabs object_height <? 1e-6 then Some apparent
    else
      match _camera_center_world pp with
      | None => Some apparent
      | Some (Cx, Cy, Cz) =>
        if Rabs (Cz - object_height) <? 1e-6 then Some apparent
        else
          let k := Cz / (Cz - object_height) in
          let X_corrected := Cx + k * (fst apparent - Cx) in
          let Y_corrected := Cy + k * (snd apparent - Cy) in
          Some (X_corrected, Y_corrected)
      end
    end.

Definition get_ball_world_position (pp : PlanarPositioner)
    (image_point : point) (ball_radius_cm : option R) : result (option point) :=
  match image_to_plane pp image_point with
  | Raise e => Raise e
  | Ret None => Ret None
  | Ret (Some apparent_pos) =>
    match ball_radius_cm with
    | Some r =>
      if 0 <? r then Ret (correct_height pp (Some apparent_pos) r)
      else Ret (Some apparent_pos)
    | None => Ret (Some apparent_pos)
    end
  end.

Definition set_camera_center (camera_center : vec3) (pp : PlanarPositioner)
  : PlanarPositioner :=
  mkPositioner (calibrator pp) (Some camera_center).

End positioning.

(** ** tracking.py *)
Module tracking.

(** What OpenCV measures on one contour: [cv2.contourArea],
    [cv2.minEnclosingCircle] (centre relative to the search window) and
    [cv2.arcLength]. *)
Record contour : Type := mkContour {
  contourArea : R;
  minEnclosingCircle : point * R;
  arcLength : R
}.

Definition hsv : Type := (Z * Z * Z)%type.

(** A frame: its [shape[:2]] and, for a search window [y1:y2, x1:x2] and a
    colour range, the contours that segmentation, erosion, dilation and
    [cv2.findContours] deliver. *)
Record frame : Type := mkFrame {
  frame_h : Z;
  frame_w : Z;
  findContours : Z * Z * Z * Z -> hsv -> hsv -> list contour
}.

Record ColorTracker : Type := mkTracker {
  hsv_lower : hsv;
  hsv_upper : hsv;
  last_position : option point;
  last_radius : option R;
  search_margin : Z;
  _initialized : bool;
  _lost_counter : Z;
  _max_lost_frames : Z;
  _velocity : point
}.

(** [ColorTracker()] *)
Definition ColorTracker_init : ColorTracker :=
  {| hsv_lower := config.BALL_HSV_LOWER; hsv_upper := config.BALL_HSV_UPPER;
     last_position := None; last_radius := None;
     search_margin := config.TRACKING_SEARCH_MARGIN;
     _initialized := false; _lost_counter := 0; _max_lost_frames := 30;
     _velocity := (0, 0) |}.

Definition set_lost_counter (v : Z) (t : ColorTracker) : ColorTracker :=
  mkTracker (hsv_lower t) (hsv_upper t) (last_position t) (last_radius t)
    (search_margin t) (_initialized t) v (_max_lost_frames t) (_velocity t).

Definition initialize (cx cy radius : R) (t : ColorTracker) : ColorTracker :=
  mkTracker (hsv_lower t) (hsv_upper t) (Some (cx, cy)) (Some radius)
    (search_margin t) true 0 (_max_lost_frames t) (0, 0).

Definition is_initialized (t : ColorTracker) : bool := _initialized t.

Definition is_lost (t : ColorTracker) : bool :=
  (_max_lost_frames t <? _lost_counter t)%Z.

(** One iteration of the loop over the contours: [None] stands for
    [continue], otherwise the candidate and its score. *)
Definition score_contour (predicted : point) (radius0 : R) (margin x1 y1 : Z)
    (cnt : contour) : option (R * R * R * R) :=
  let area := contourArea cnt in
  if area <? PI * (config.BALL_MIN_RADIUS_PX ^ 2) * 0.3 then None
  else
    let '((cx_local, cy_local), radius) := minEnclosingCircle cnt in
    if radius <? config.BALL_MIN_RADIUS_PX * 0.5 then None
    else if config.BALL_MAX_RADIUS_PX * 1.5 <? radius then None
    else
      let cx_global := cx_local + IZR x1 in
      let cy_global := cy_local + IZR y1 in
      let dist := sqrt ((cx_global - fst predicted) ^ 2
                        + (cy_global - snd predicted) ^ 2) in
      let radius_diff := Rabs (radius - radius0) / py_max radius0 1 in
      let perimeter := arcLength cnt in
      let circularity :=
        if 0 <? perimeter then 4 * PI * area / (perimeter ^ 2) else 0 in
      let score := circularity - dist / IZR margin - radius_diff * 0.5 in
      Some (cx_global, cy_global, radius, score).

Fixpoint best_candidate_loop (predicted : point) (radius0 : R)
    (margin x1 y1 : Z) (contours : list contour)
    (best_candidate : option (R * R * R)) (best_score : R)
  : option (R * R * R) :=
  match contours with
  | [] => best_candidate
  | cnt :: rest =>
    match score_contour predicted radius0 margin x1 y1 cnt with
    | None =>
      best_candidate_loop predicted radius0 margin x1 y1 rest
        best_candidate best_score
    | Some (cx, cy, radius, score) =>
      if best_score <? score
      then best_candidate_loop predicted radius0 margin x1 y1 rest
             (Some (cx, cy, radius)) score
      else best_candidate_loop predicted radius0 margin x1 y1 rest
             best_candidate best_score
    end
  end.

(** The search window of [update]. *)
Definition search_window (t : ColorTracker) (pos : point) (radius : R)
    (f : frame) : Z * (Z * Z * Z * Z) :=
  let predicted := (fst pos + fst (_velocity t), snd pos + snd (_velocity t)) in
  let margin := (search_margin t + int_of (radius * 2))%Z in
  let x1 := Z.max 0 (int_of (fst predicted - IZR margin)) in
  let y1 := Z.max 0 (int_of (snd predicted - IZR margin)) in
  let x2 := Z.min (frame_w f) (int_of (fst predicted + IZR margin)) in
  let y2 := Z.min (frame_h f) (int_of (snd predicted + IZR margin)) in
  (margin, (x1, y1, x2, y2)).

Definition update (f : frame) (t : ColorTracker)
  : ColorTracker * result (option (Z * Z * Z)) :=
  if negb (_initialized t) then (t, Ret None)
  else
    match last_position t, last_radius t with
    | Some pos, Some radius0 =>
      let predicted := (fst pos + fst (_velocity t), snd pos + snd (_velocity t)) in
      let '(margin, (x1, y1, x2, y2)) := search_window t pos radius0 f in
      if ((x2 - x1 <? 10) || (y2 - y1 <? 10))%Z
      then (set_lost_counter (_lost_counter t + 1) t, Ret None)
      else
        let contours := findContours f (x1, y1, x2, y2) (hsv_lower t) (hsv_upper t) in
        match contours with
        | [] =>
          let t := set_lost_counter (_lost_counter t + 1) t in
          if (_lost_counter t <=? _max_lost_frames t)%Z
          then (t, Ret (Some (int_of (fst pos), int_of (snd pos), int_of radius0)))
          else (t, Ret None)
        | _ :: _ =>
          match best_candidate_loop predicted radius0 margin x1 y1 contours None (-1) with
          | None =>
            let t := set_lost_counter (_lost_counter t + 1) t in
            (t, Ret (Some (int_of (fst pos), int_of (snd pos), int_of radius0)))
          | Some (cx, cy, radius) =>
            let alpha := 0.6 in
            let new_vel := (cx - fst pos, cy - snd pos) in
            let velocity :=
              (alpha * fst new_vel + (1 - alpha) * fst (_velocity t),
               alpha * snd new_vel + (1 - alpha) * snd (_velocity t)) in
            let radius' := 0.7 * radius0 + 0.3 * radius in
            (mkTracker (hsv_lower t) (hsv_upper t) (Some (cx, cy)) (Some radius')
               (search_margin t) (_initialized t) 0 (_max_lost_frames t) velocity,
             Ret (Some (int_of cx, int_of cy, int_of radius')))
          end
        end
    | _, _ => (t, Raise TypeError)
    end.

(** The tracker after a sequence of frames, with what each call returned. *)
Fixpoint updates (frames : list frame) (t : ColorTracker)
  : ColorTracker * list (result (option (Z * Z * Z))) :=
  match frames with
  | [] => (t, [])
  | f :: rest =>
    let '(t1, r) := update f t in
    let '(t2, rs) := updates rest t1 in
    (t2, r :: rs)
  end.

(** The class [OpenCVTracker].  The OpenCV tracker object is outside the
    model: [tracker] records whether [self.tracker] has been created, and
    each call of [update] receives what [self.tracker.update(frame)]
    answers. *)
Module OpenCV.

Record OpenCVTracker : Type := mkOpenCVTracker {
  tracker : bool;
  _initialized : bool;
  _lost_counter : Z;
  last_position : option point;
  last_radius : option R
}.

(** [OpenCVTracker(method)] *)
Definition OpenCVTracker_init : OpenCVTracker :=
  {| tracker := false; _initialized := false; _lost_counter := 0;
     last_position := None; last_radius := None |}.

(** The bounding box handed to [self.tracker.init]; [shape] is
    [frame.shape[:2]]. *)
Definition init_bbox (cx cy radius : R) (shape : Z * Z) : Z * Z * Z * Z :=
  let bbox := (int_of (cx - radius), int_of (cy - radius),
               int_of (radius * 2), int_of (radius * 2)) in
  let '(b0, b1, b2, b3) := bbox in
  let '(h, w) := shape in
  (Z.max 0 b0, Z.max 0 b1, Z.min b2 (w - b0), Z.min b3 (h - b1)).

(** [initialize(cx, cy, radius, frame)]; [frame] is [None] or the shape of
    the frame.  With a frame, [tracker.init] is taken to accept the box:
    OpenCV rejecting an empty box with [cv2.error] is not modelled. *)
Definition initialize (cx cy radius : R) (frame : option (Z * Z))
    (t : OpenCVTracker) : OpenCVTracker :=
  match frame with
  | None =>
    mkOpenCVTracker (tracker t) (_initialized t) (_lost_counter t)
      (Some (cx, cy)) (Some radius)
  | Some _ =>
    mkOpenCVTracker true true (_lost_counter t) (Some (cx, cy)) (Some radius)
  end.

Definition is_initialized (t : OpenCVTracker) : bool := _initialized t.

Definition is_lost (t : OpenCVTracker) : bool := (30 <? _lost_counter t)%Z.

(** [update(frame)]; [answer] is the pair [success, bbox] the OpenCV
    tracker returns for the frame. *)
Definition update (answer : bool * (R * R * R * R)) (t : OpenCVTracker)
  : OpenCVTracker * result (option (Z * Z * Z)) :=
  if negb (_initialized t) || negb (tracker t) then (t, Ret None)
  else
    let '(success, bbox) := answer in
    if success then
      let '(b0, b1, b2, b3) := bbox in
      let x := int_of b0 in
      let y := int_of b1 in
      let w := int_of b2 in
      let h := int_of b3 in
      let cx := (x + w / 2)%Z in
      let cy := (y + h / 2)%Z in
      let radius := (Z.max w h / 2)%Z in
      (mkOpenCVTracker (tracker t) (_initialized t) 0
         (Some (IZR cx, IZR cy)) (Some (IZR radius)),
       Ret (Some (cx, cy, radius)))
    else
      let t := mkOpenCVTracker (tracker t) (_initialized t)
                 (_lost_counter t + 1) (last_position t) (last_radius t) in
      match last_position t with
      | Some pos =>
        match last_radius t with
        | Some radius =>
          (t, Ret (Some (int_of (fst pos), int_of (snd pos), int_of radius)))
        | None => (t, Raise TypeError)
        end
      | None => (t, Ret None)
      end.

(** The tracker after a sequence of frames, with what each call returned. *)
Fixpoint updates (answers : list (bool * (R * R * R * R))) (t : OpenCVTracker)
  : OpenCVTracker * list (result (option (Z * Z * Z))) :=
  match answers with
  | [] => (t, [])
  | a :: rest =>
    let '(t1, r) := update a t in
    let '(t2, rs) := updates rest t1 in
    (t2, r :: rs)
  end.

End OpenCV.

End tracking.

(** ** detection.py *)
Module detection.

Import tracking.

(** Python's [max(items, key=...)] on a non-empty sequence: the first item
    whose key no later item exceeds. *)
Fixpoint max_by {A K : Type} (ltb : K -> K -> bool) (key : A -> K)
    (best : A) (rest : list A) : A :=
  match rest with
  | [] => best
  | x :: tl =>
    if ltb (key best) (key x) then max_by ltb key x tl
    else max_by ltb key best tl
  end.

(** A subscript that may be out of range. *)
Inductive indexed (A : Type) : Type :=
| InRange (a : A)
| IndexError.

Arguments InRange {A} a.
Arguments IndexError {A}.

Record AutomaticDetector : Type := mkAutomaticDetector {
  hsv_lower : hsv;
  hsv_upper : hsv;
  _debug : bool
}.

(** [AutomaticDetector()] *)
Definition AutomaticDetector_init : AutomaticDetector :=
  {| hsv_lower := config.BALL_HSV_LOWER; hsv_upper := config.BALL_HSV_UPPER;
     _debug := false |}.

(** One iteration of the scoring loop of [_detect_in_image]: [None] stands
    for [continue]. *)
Definition candidate_of (cnt : contour) : option (R * R * R * R) :=
  let area := contourArea cnt in
  if area <? PI * config.BALL_MIN_RADIUS_PX ^ 2 then None
  else
    let '((cx, cy), radius) := minEnclosingCircle cnt in
    if negb ((config.BALL_MIN_RADIUS_PX <? radius)
             && (radius <? config.BALL_MAX_RADIUS_PX)) then None
    else
      let perimeter := arcLength cnt in
      if Req_dec_T perimeter 0 then None
      else
        let circularity := 4 * PI * area / (perimeter * perimeter) in
        let circle_area := PI * radius * radius in
        let fill_ratio := if 0 <? circle_area then area / circle_area else 0 in
        let score := circularity * 0.5 + fill_ratio * 0.3 + (area / 10000) * 0.2 in
        Some (cx, cy, radius, score).

Fixpoint candidates_of (contours : list contour) : list (R * R * R * R) :=
  match contours with
  | [] => []
  | cnt :: rest =>
    match candidate_of cnt with
    | None => candidates_of rest
    | Some c => c :: candidates_of rest
    end
  end.

Section Vision.

(** Images and what OpenCV computes from them. *)
Variable image : Type.

(** [image.shape[:2]]: height, width. *)
Variable shape : image -> Z * Z.

(** [frame[ry:ry + rh, rx:rx + rw]] for [(rx, ry, rw, rh)]. *)
Variable crop : image -> Z * Z * Z * Z -> image.

(** The contours [_detect_in_image] extracts for a colour range: mask (two
    hue ranges joined when the lower hue exceeds the upper one), erosion,
    dilation, blur, [cv2.findContours]. *)
Variable blob_contours : image -> hsv -> hsv -> list contour.

(** [cv2.HoughCircles] on that mask, rounded to integers: [None], or at
    least one circle [(x, y, r)]. *)
Variable HoughCircles : image -> hsv -> hsv -> option ((Z * Z * Z) * list (Z * Z * Z)).

(** [hsv[row, col]] *)
Variable pixel_hsv : image -> Z -> Z -> hsv.

(** The contours of [cv2.inRange(hsv, lower, upper)], as
    [_estimate_radius] extracts them. *)
Variable click_contours : image -> hsv -> hsv -> list contour.

Definition _fallback_hough (d : AutomaticDetector) (img : image)
  : option (Z * Z * Z) :=
  match HoughCircles img (hsv_lower d) (hsv_upper d) with
  | Some (c, circles) =>
    let best := max_by Z.ltb (fun c => snd c) c circles in
    Some best
  | None => None
  end.

Definition _detect_in_image (d : AutomaticDetector) (img : image)
  : option (Z * Z * Z) :=
  match blob_contours img (hsv_lower d) (hsv_upper d) with
  | [] => _fallback_hough d img
  | contours =>
    match candidates_of contours with
    | [] => _fallback_hough d img
    | c :: candidates =>
      let best := max_by Rltb (fun c => snd c) c candidates in
      let '(b0, b1, b2, _) := best in
      Some (int_of b0, int_of b1, int_of b2)
    end
  end.

Definition detect (d : AutomaticDetector) (frame : image)
    (roi : option (Z * Z * Z * Z)) : option (Z * Z * Z) :=
  match roi with
  | Some (rx, ry, rw, rh) =>
    let sub_frame := crop frame (rx, ry, rw, rh) in
    match _detect_in_image d sub_frame with
    | Some (cx, cy, r) => Some (cx + rx, cy + ry, r)%Z
    | None => None
    end
  | None => _detect_in_image d frame
  end.

(** The loop of [_estimate_radius] over the contours. *)
Fixpoint nearest_radius_loop (cx cy : Z) (contours : list contour)
    (best_radius : R) (best_dist : xreal) : R :=
  match contours with
  | [] => best_radius
  | cnt :: rest =>
    let '((x, y), r) := minEnclosingCircle cnt in
    if (config.BALL_MIN_RADIUS_PX <? r) && (r <? config.BALL_MAX_RADIUS_PX)
    then
      let dist := sqrt ((x - IZR cx) ^ 2 + (y - IZR cy) ^ 2) in
      if match best_dist with Fin b => dist <? b | Inf => true end
      then nearest_radius_loop cx cy rest r (Fin dist)
      else nearest_radius_loop cx cy rest best_radius best_dist
    else nearest_radius_loop cx cy rest best_radius best_dist
  end.

(** [ManualDetector._estimate_radius(frame, cx, cy)] with [default = 25]. *)
Definition _estimate_radius (frame : image) (cx cy : Z) : indexed Z :=
  let '(h, w) := shape frame in
  let row := Z.max 0 cy in
  let col := Z.max 0 cx in
  if ((h <=? row) || (w <=? col))%Z then IndexError
  else
    let '(h0, h1, h2) := pixel_hsv frame row col in
    let margin_h := 15%Z in
    let margin_s := 60%Z in
    let margin_v := 60%Z in
    let lower := (Z.max 0 (h0 - margin_h), Z.max 0 (h1 - margin_s),
                  Z.max 0 (h2 - margin_v)) in
    let upper := (Z.min 179 (h0 + margin_h), Z.min 255 (h1 + margin_s),
                  Z.min 255 (h2 + margin_v)) in
    let contours := click_contours frame lower upper in
    InRange (int_of (nearest_radius_loop cx cy contours 25 Inf)).

(** [ManualDetector.detect_point(frame, x, y)] *)
Definition detect_point (frame : image) (x y : Z) : indexed (option (Z * Z * Z)) :=
  let '(h, w) := shape frame in
  if ((x <? 0) || (y <? 0) || (w <=? x) || (h <=? y))%Z then InRange None
  else
    match _estimate_radius frame x y with
    | IndexError => IndexError
    | InRange radius =>
      if IZR radius <? config.BALL_MIN_RADIUS_PX then InRange None
      else InRange (Some (x, y, radius))
    end.

End Vision.

End detection.

(** ** demo_camera.py *)
Module demo_camera.

(** The fields of [DemoCamera] that [read] and the ball controls use; the
    image corners, the two homographies and the background only serve the
    rendering. *)
Record DemoCamera : Type := mkDemoCamera {
  ball_world_pos : point;
  ball_velocity : point;
  _is_open : bool;
  _frame_count : Z;
  _auto_mode : bool;
  _auto_waypoints : list point;
  _auto_wp_index : Z;
  _auto_speed : R
}.

(** [DemoCamera()] *)
Definition DemoCamera_init : DemoCamera :=
  {| ball_world_pos := (30, 20);
     ball_velocity := (0, 0);
     _is_open := true;
     _frame_count := 0;
     _auto_mode := false;
     _auto_waypoints := [ (10, 10); (50, 10); (50, 30); (30, 20); (15, 35); (45, 20) ];
     _auto_wp_index := 0;
     _auto_speed := 0.5 |}.

(** [l[i]] for a possibly negative [i]; [None] is an [IndexError]. *)
Definition py_index {A : Type} (l : list A) (i : Z) : option A :=
  if (i <? 0)%Z
  then if (i <? - Z.of_nat (length l))%Z then None
       else nth_error l (Z.to_nat (Z.of_nat (length l) + i))
  else nth_error l (Z.to_nat i).

(** [np.clip(x, lo, hi)] *)
Definition clip (x lo hi : R) : R := Rmin (Rmax x lo) hi.

(** [_update_auto]; [None] is the [IndexError] of the waypoint lookup. *)
Definition _update_auto (d : DemoCamera) : option DemoCamera :=
  let idx :=
    if (Z.of_nat (length (_auto_waypoints d)) <=? _auto_wp_index d)%Z
    then 0%Z else _auto_wp_index d in
  match py_index (_auto_waypoints d) idx with
  | None => None
  | Some target =>
    let direction := vsub target (ball_world_pos d) in
    let dist := norm direction in
    if dist <? 1
    then Some (mkDemoCamera (ball_world_pos d) (ball_velocity d) (_is_open d)
                 (_frame_count d) (_auto_mode d) (_auto_waypoints d)
                 (idx + 1)%Z (_auto_speed d))
    else
      let direction := (fst direction / dist, snd direction / dist) in
      let pos := (fst (ball_world_pos d) + fst direction * _auto_speed d,
                  snd (ball_world_pos d) + snd direction * _auto_speed d) in
      Some (mkDemoCamera pos (ball_velocity d) (_is_open d)
              (_frame_count d) (_auto_mode d) (_auto_waypoints d)
              idx (_auto_speed d))
  end.

(** [read]: the camera afterwards and the flag [ret]; the rendered frame
    is not modelled.  [None] is the [IndexError] of [_update_auto].  The
    products and sums are the exact ones: a float product such as
    [velocity * 0.95] may differ from them in the last place. *)
Definition read (d : DemoCamera) : option (DemoCamera * bool) :=
  if negb (_is_open d) then Some (d, false)
  else
    match (if _auto_mode d then _update_auto d else Some d) with
    | None => None
    | Some d =>
      let pos := (fst (ball_world_pos d) + fst (ball_velocity d),
                  snd (ball_world_pos d) + snd (ball_velocity d)) in
      let vel := (fst (ball_velocity d) * 0.95, snd (ball_velocity d) * 0.95) in
      let vel := if norm vel <? 0.01 then (0, 0) else vel in
      let r := config.BALL_REAL_RADIUS_CM in
      let pos := (clip (fst pos) r (config.PLAY_AREA_WIDTH - r), snd pos) in
      let pos := (fst pos, clip (snd pos) r (config.PLAY_AREA_HEIGHT - r)) in
      let vel :=
        if (fst pos <=? r) || (config.PLAY_AREA_WIDTH - r <=? fst pos)
        then (fst vel * -0.7, snd vel) else vel in
      let vel :=
        if (snd pos <=? r) || (config.PLAY_AREA_HEIGHT - r <=? snd pos)
        then (fst vel, snd vel * -0.7) else vel in
      Some (mkDemoCamera pos vel (_is_open d) (_frame_count d + 1)%Z
              (_auto_mode d) (_auto_waypoints d) (_auto_wp_index d)
              (_auto_speed d), true)
    end.

(** [set_ball_position] *)
Definition set_ball_position (world_pos : point) (d : DemoCamera) : DemoCamera :=
  mkDemoCamera world_pos (0, 0) (_is_open d) (_frame_count d) (_auto_mode d)
    (_auto_waypoints d) (_auto_wp_index d) (_auto_speed d).

(** The camera after [n] calls of [read]. *)
Fixpoint reads (n : nat) (d : DemoCamera) : option DemoCamera :=
  match n with
  | O => Some d
  | S n' =>
    match read d with
    | None => None
    | Some (d', _) => reads n' d'
    end
  end.

End demo_camera.

(** ** ar_viewer.py *)
Module ar_viewer.

(** The trail kept by [ARViewer]; drawing is not modelled. *)
Record ARViewer : Type := mkARViewer {
  trail_image_points : list point;
  _max_trail : Z
}.

Definition add_trail_point (image_point : option point) (v : ARViewer) : ARViewer :=
  match image_point with
  | Some pt =>
    let v := mkARViewer (trail_image_points v ++ [pt]) (_max_trail v) in
    if (_max_trail v <? Z.of_nat (length (trail_image_points v)))%Z
    then mkARViewer (slice_from (- _max_trail v) (trail_image_points v))
                    (_max_trail v)
    else v
  | None => v
  end.

Definition clear_trail (v : ARViewer) : ARViewer := mkARViewer [] (_max_trail v).

(** [ARViewer(calibrator)] *)
Definition ARViewer_init : ARViewer := mkARViewer [] 200.

(** The viewer after one [add_trail_point] per frame. *)
Definition add_trail_points (pts : list (option point)) (v : ARViewer) : ARViewer :=
  fold_left (fun v pt => add_trail_point pt v) pts v.

End ar_viewer.

(** ** Floating-point arithmetic

    The functions whose outcome depends on how the arithmetic rounds are
    embedded a second time, over the operations of an arithmetic [arith F]
    instead of the exact ones: the two transforms of [calibration.py] with
    the method that stores them, and the height correction of
    [positioning.py].  The code is the same, operation for operation.  Two
    arithmetics are given: [binary64], the IEEE double precision numbers
    Python floats are, which evaluates, and [rounded rnd], the reals with
    every result passed through a rounding function [rnd], which is
    reasoned about. *)
Module floating.

(** The operations on floats these functions use, and their three
    literals [1.0], [1e-10] and [1e-6]. *)
Record arith (F : Type) : Type := mkArith {
  fadd : F -> F -> F;
  fsub : F -> F -> F;
  fmul : F -> F -> F;
  fdiv : F -> F -> F;
  fabs : F -> F;
  fltb : F -> F -> bool;
  c_1 : F;
  c_1em10 : F;
  c_1em6 : F
}.

Arguments fadd {F} _ _ _.
Arguments fsub {F} _ _ _.
Arguments fmul {F} _ _ _.
Arguments fdiv {F} _ _ _.
Arguments fabs {F} _ _.
Arguments fltb {F} _ _ _.
Arguments c_1 {F} _.
Arguments c_1em10 {F} _.
Arguments c_1em6 {F} _.

(** Python's floats: every operation is the IEEE one, rounding to
    nearest, ties to even; a literal is the nearest double. *)
Definition binary64 : arith float :=
  mkArith float PrimFloat.add PrimFloat.sub PrimFloat.mul PrimFloat.div
    PrimFloat.abs PrimFloat.ltb 1%float 1e-10%float 1e-6%float.

(** The reals with rounding: an operation is the exact one followed by
    [rnd].  [abs] and [<] are exact, as they are on floats; [1.0] is a
    float, the two tolerances are rounded literals. *)
Definition rounded (rnd : R -> R) : arith R :=
  mkArith R (fun x y => rnd (x + y)) (fun x y => rnd (x - y))
    (fun x y => rnd (x * y)) (fun x y => rnd (x / y))
    Rabs Rltb 1 (rnd 1e-10) (rnd 1e-6).

Record mat3 (F : Type) : Type := mkMat3 {
  m00 : F; m01 : F; m02 : F;
  m10 : F; m11 : F; m12 : F;
  m20 : F; m21 : F; m22 : F
}.

Arguments mkMat3 {F} _ _ _ _ _ _ _ _ _.
Arguments m00 {F} _.
Arguments m01 {F} _.
Arguments m02 {F} _.
Arguments m10 {F} _.
Arguments m11 {F} _.
Arguments m12 {F} _.
Arguments m20 {F} _.
Arguments m21 {F} _.
Arguments m22 {F} _.

Record HomographyCalibrator (F : Type) : Type := mkCalibrator {
  H : option (mat3 F);                     (* image -> world *)
  H_inv : option (mat3 F);                 (* world -> image *)
  image_corners : option (list (F * F));
  world_corners : list (F * F);
  _click_points : list (Z * Z);
  _calibration_done : bool
}.

Arguments mkCalibrator {F} _ _ _ _ _ _.
Arguments H {F} _.
Arguments H_inv {F} _.
Arguments image_corners {F} _.
Arguments world_corners {F} _.
Arguments _click_points {F} _.
Arguments _calibration_done {F} _.

Record PlanarPositioner (F : Type) : Type := mkPositioner {
  calibrator : HomographyCalibrator F;
  _camera_center_world : option (F * F * F)
}.

Arguments mkPositioner {F} _ _.
Arguments calibrator {F} _.
Arguments _camera_center_world {F} _.

Section Generic.

Context {F : Type} (A : arith F).

(** [M @ p]: each row is a dot product, the products summed from left to
    right. *)
Definition mat_vec (M : mat3 F) (p : F * F * F) : F * F * F :=
  let '(x, y, z) := p in
  (fadd A (fadd A (fmul A (m00 M) x) (fmul A (m01 M) y)) (fmul A (m02 M) z),
   fadd A (fadd A (fmul A (m10 M) x) (fmul A (m11 M) y)) (fmul A (m12 M) z),
   fadd A (fadd A (fmul A (m20 M) x) (fmul A (m21 M) y)) (fmul A (m22 M) z)).

Section Solver.

(** [cv2.findHomography(src, dst, cv2.RANSAC, 5.0)[0]]: the fitted matrix,
    or [None] when OpenCV finds no homography. *)
Variable findHomography : list (F * F) -> list (F * F) -> option (mat3 F).

(** [np.linalg.inv], as LAPACK computes it: the matrix it returns, or
    [None] where it raises [LinAlgError]. *)
Variable inv : mat3 F -> option (mat3 F).

(** [_compute_homography].  The solver's answer is stored in [self.H]
    before it is tested, and the inverse is computed after that. *)
Definition _compute_homography (c : HomographyCalibrator F)
  : HomographyCalibrator F * result bool :=
  match image_corners c with
  | None => (c, Raise cv2_error)
  | Some corners =>
    let c := mkCalibrator (findHomography corners (world_corners c)) (H_inv c)
               (image_corners c) (world_corners c) (_click_points c)
               (_calibration_done c) in
    match H c with
    | None =>
      (mkCalibrator (H c) (H_inv c) (image_corners c) (world_corners c)
         (_click_points c) false, Ret false)
    | Some h =>
      match inv h with
      | None => (c, Raise LinAlgError)
      | Some hi =>
        (mkCalibrator (H c) (Some hi) (image_corners c) (world_corners c)
           (_click_points c) true, Ret true)
      end
    end
  end.

Definition set_homography_direct (h : mat3 F) (c : HomographyCalibrator F)
  : HomographyCalibrator F * result unit :=
  let c := mkCalibrator (Some h) (H_inv c) (image_corners c) (world_corners c)
             (_click_points c) (_calibration_done c) in
  match inv h with
  | None => (c, Raise LinAlgError)
  | Some hi =>
    (mkCalibrator (H c) (Some hi) (image_corners c) (world_corners c)
       (_click_points c) true, Ret tt)
  end.

End Solver.

Definition image_to_world (c : HomographyCalibrator F) (image_point : F * F)
  : result (option (F * F)) :=
  if negb (_calibration_done c) then Ret None
  else
    match H c with
    | None => Raise TypeError
    | Some h =>
      let p := (fst image_point, snd image_point, c_1 A) in
      let '(w0, w1, w2) := mat_vec h p in
      if fltb A (fabs A w2) (c_1em10 A) then Ret None
      else Ret (Some (fdiv A w0 w2, fdiv A w1 w2))
    end.

Definition world_to_image (c : HomographyCalibrator F) (world_point : F * F)
  : result (option (F * F)) :=
  if negb (_calibration_done c) then Ret None
  else
    match H_inv c with
    | None => Raise TypeError
    | Some hi =>
      let p := (fst world_point, snd world_point, c_1 A) in
      let '(q0, q1, q2) := mat_vec hi p in
      if fltb A (fabs A q2) (c_1em10 A) then Ret None
      else Ret (Some (fdiv A q0 q2, fdiv A q1 q2))
    end.

Definition image_to_plane (pp : PlanarPositioner F) (image_point : F * F)
  : result (option (F * F)) :=
  image_to_world (calibrator pp) image_point.

Definition plane_to_image (pp : PlanarPositioner F) (world_point : F * F)
  : result (option (F * F)) :=
  world_to_image (calibrator pp) world_point.

Definition correct_height (pp : PlanarPositioner F)
    (apparent_position : option (F * F)) (object_height : F) : option (F * F) :=
  match apparent_position with
  | None => None
  | Some apparent =>
    if fltb A (fabs A object_height) (c_1em6 A) then Some apparent
    else
      match _camera_center_world pp with
      | None => Some apparent
      | Some (Cx, Cy, Cz) =>
        if fltb A (fabs A (fsub A Cz object_height)) (c_1em6 A) then Some apparent
        else
          let k := fdiv A Cz (fsub A Cz object_height) in
          let X_corrected := fadd A Cx (fmul A k (fsub A (fst apparent) Cx)) in
          let Y_corrected := fadd A Cy (fmul A k (fsub A (snd apparent) Cy)) in
          Some (X_corrected, Y_corrected)
      end
    end.

End Generic.

End floating.

(** ** Vocabulary of the statements *)

(** A level that has just begun: nothing recorded yet, as [__init__],
    [_advance_level] (short of game over) and [restart_level] leave the
    engine. *)
Definition fresh_level (e : game_engine.MiniGolfEngine) : Prop :=
  game_engine._last_positions e = [] /\
  game_engine._stopped_frame_count e = 0%Z /\
  game_engine._max_history e = (config.BALL_STOPPED_FRAMES * 2)%Z /\
  game_engine._celebrating e = false /\
  game_engine.game_over (game_engine.state e) = false.

(** The position history after one more sample, as [update] stores it. *)
Definition pushed_history (e : game_engine.MiniGolfEngine) (pos : point) : list point :=
  let h := game_engine._last_positions e ++ [pos] in
  if (game_engine._max_history e <? Z.of_nat (length h))%Z
  then slice_from (- game_engine._max_history e) h
  else h.

(** The distance [update] computes between a position and the hole. *)
Definition hole_distance (e : game_engine.MiniGolfEngine) (pos : point) : xreal :=
  match game_engine.hole_position (game_engine.state e) with
  | Some hole => Fin (norm (vsub pos hole))
  | None => Inf
  end.

(** The tracker searched its window in frame [f] and kept no candidate:
    the window is at least 10 x 10 and the candidate loop over the contours
    found in it (possibly none) ends with [best_candidate] still [None]. *)
Definition no_matching_contour (t : tracking.ColorTracker) (f : tracking.frame) : Prop :=
  match tracking.last_position t, tracking.last_radius t with
  | Some pos, Some radius0 =>
    let predicted := (fst pos + fst (tracking._velocity t),
                      snd pos + snd (tracking._velocity t)) in
    let '(margin, (x1, y1, x2, y2)) := tracking.search_window t pos radius0 f in
    (10 <= x2 - x1)%Z /\ (10 <= y2 - y1)%Z /\
    tracking.best_candidate_loop predicted radius0 margin x1 y1
      (tracking.findContours f (x1, y1, x2, y2)
         (tracking.hsv_lower t) (tracking.hsv_upper t))
      None (-1) = None
  | _, _ => False
  end.

(** The ball at [ball_pos] overlaps obstacle [o]. *)
Definition collides (ball_pos : point) (o : R * R * R) : Prop :=
  let '(ox, oy, orad) := o in
  norm (vsub ball_pos (ox, oy)) < orad + config.BALL_REAL_RADIUS_CM.

(** The distances between consecutive samples of a history. *)
Fixpoint steps_from (prev : point) (rest : list point) : list R :=
  match rest with
  | [] => []
  | p :: tl => norm (vsub p prev) :: steps_from p tl
  end.

Definition steps (positions : list point) : list R :=
  match positions with
  | [] => []
  | p0 :: tl => steps_from p0 tl
  end.

(** What holds of the score board in every state a game can reach. *)
Definition scoreboard_ok (e : game_engine.MiniGolfEngine) : Prop :=
  let s := game_engine.state e in
  let holes := Z.of_nat (length config.HOLE_POSITIONS) in
  (1 <= game_engine.level s <= holes + 1)%Z /\
  (game_engine.game_over s = true <-> game_engine.level s = (holes + 1)%Z) /\
  game_engine.hole_position s
    = nth_error config.HOLE_POSITIONS
        (Z.to_nat (Z.min (game_engine.level s) holes - 1)) /\
  (0 <= game_engine.putts s)%Z /\
  (game_engine._celebrating e = false ->
     (game_engine.putts s <= config.MAX_PUTTS_PER_HOLE - 1)%Z) /\
  (game_engine._celebrating e = true ->
     (1 <= game_engine.putts s <= config.MAX_PUTTS_PER_HOLE)%Z
     /\ game_engine.game_over s = false) /\
  (0 <= game_engine.total_score s
     <= config.MAX_PUTTS_PER_HOLE * (game_engine.level s - 1)
        + (if game_engine._celebrating e then config.MAX_PUTTS_PER_HOLE else 0))%Z.

(** The tracker searched its window in frame [f] and kept the candidate
    [cand] (centre in frame coordinates and radius). *)
Definition matching_contour (t : tracking.ColorTracker) (f : tracking.frame)
    (cand : R * R * R) : Prop :=
  match tracking.last_position t, tracking.last_radius t with
  | Some pos, Some radius0 =>
    let predicted := (fst pos + fst (tracking._velocity t),
                      snd pos + snd (tracking._velocity t)) in
    let '(margin, (x1, y1, x2, y2)) := tracking.search_window t pos radius0 f in
    (10 <= x2 - x1)%Z /\ (10 <= y2 - y1)%Z /\
    tracking.best_candidate_loop predicted radius0 margin x1 y1
      (tracking.findContours f (x1, y1, x2, y2)
         (tracking.hsv_lower t) (tracking.hsv_upper t))
      None (-1) = Some cand
  | _, _ => False
  end.

(** The waypoint state under which the automatic mode can look up its
    target: some waypoint exists and the index is no further below zero
    than Python's negative indexing allows. *)
Definition waypoints_ok (d : demo_camera.DemoCamera) : Prop :=
  demo_camera._auto_mode d = true ->
  demo_camera._auto_waypoints d <> [] /\
  (- Z.of_nat (length (demo_camera._auto_waypoints d))
   <= demo_camera._auto_wp_index d)%Z.

(** The image points among the per-frame arguments of [add_trail_point]. *)
Definition detected (pts : list (option point)) : list point :=
  flat_map (fun pt => match pt with Some p => [p] | None => [] end) pts.

(** A rounding function with unit roundoff [u]: every rounded result is
    within the relative error [u] of the exact one.  Rounding to nearest
    on binary64 has [u = 2^-53], as long as the result neither overflows
    nor falls into the subnormal range. *)
Definition rounding_error (rnd : R -> R) (u : R) : Prop :=
  forall x : R, Rabs (rnd x - x) <= u * Rabs x.

(** The unit roundoff of binary64, and a rounding function that errs by
    all of it on every result. *)
Definition u_binary64 : R := / 9007199254740992.

Definition rnd_up (x : R) : R := x * (1 + u_binary64).

(** [M p] and [|M| p] in exact arithmetic, for a matrix of stored floats. *)
Definition exact_apply (M : floating.mat3 R) (p : vec3) : vec3 :=
  let '(x, y, z) := p in
  (floating.m00 M * x + floating.m01 M * y + floating.m02 M * z,
   floating.m10 M * x + floating.m11 M * y + floating.m12 M * z,
   floating.m20 M * x + floating.m21 M * y + floating.m22 M * z).

Definition abs_apply (M : floating.mat3 R) (p : vec3) : vec3 :=
  let '(x, y, z) := p in
  (Rabs (floating.m00 M) * x + Rabs (floating.m01 M) * y + Rabs (floating.m02 M) * z,
   Rabs (floating.m10 M) * x + Rabs (floating.m11 M) * y + Rabs (floating.m12 M) * z,
   Rabs (floating.m20 M) * x + Rabs (floating.m21 M) * y + Rabs (floating.m22 M) * z).

(** The error budget of mapping [P] by [A] and back by [B], for each of
    the three homogeneous coordinates: how far [B A (P, 1)] is from
    [(P, 1)] in exact arithmetic, plus the seven roundings a result goes
    through, amplified by [|B| |A| (|P|, 1)]. *)
Definition roundtrip_budget (u : R) (B A : floating.mat3 R) (P : point) : vec3 :=
  let '(r0, r1, r2) := exact_apply B (exact_apply A (fst P, snd P, 1)) in
  let '(K0, K1, K2) := abs_apply B (abs_apply A (Rabs (fst P), Rabs (snd P), 1)) in
  let G := (1 + u) ^ 7 - 1 in
  (Rabs (r0 - fst P) + G * K0, Rabs (r1 - snd P) + G * K1, Rabs (r2 - 1) + G * K2).

(** The pair [A], [B] is well conditioned at [P] for the tolerance [tol]:
    the budget is small enough for a round trip within [tol]. *)
Definition well_conditioned (u tol : R) (B A : floating.mat3 R) (P : point) : Prop :=
  let '(E0, E1, E2) := roundtrip_budget u B A P in
  E2 <= 1 / 2 /\
  2 * ((1 + u) * E0 + (u + E2) * Rabs (fst P)) <= tol * Rabs (fst P) /\
  2 * ((1 + u) * E1 + (u + E2) * Rabs (snd P)) <= tol * Rabs (snd P).

(** What both transforms compute once the matrix is at hand. *)
Definition project (rnd : R -> R) (M : floating.mat3 R) (pt : point) : option point :=
  let '(v0, v1, v2) :=
    floating.mat_vec (floating.rounded rnd) M (fst pt, snd pt, 1) in
  if Rabs v2 <? rnd 1e-10 then None else Some (rnd (v0 / v2), rnd (v1 / v2)).

(** The offset of the coordinate [x] from the camera coordinate [c] is
    resolved by the arithmetic: it is zero, or what the exact correction
    adds to it, four roundings taken off, exceeds the rounding of [c]. *)
Definition offset_resolved (u Cz h c x : R) : Prop :=
  x = c \/
  u * Rabs c < ((1 - u) ^ 4 * Cz / ((1 + u) * (Cz - h)) - 1) * Rabs (x - c).

(** The real number a float stands for; infinities and NaN stand for
    none. *)
Definition float_to_R (x : float) : option R :=
  match Prim2SF x with
  | S754_zero _ => Some 0
  | S754_finite s m e =>
    let v := if (0 <=? e)%Z then IZR (Zpos m * 2 ^ e)
             else IZR (Zpos m) / IZR (2 ^ (- e)) in
    Some (if s then - v else v)
  | _ => None
  end.

Definition float_value (x : float) : R :=
  match float_to_R x with Some r => r | None => 0 end.

Definition mat_value (M : floating.mat3 float) : floating.mat3 R :=
  floating.mkMat3
    (float_value (floating.m00 M)) (float_value (floating.m01 M))
    (float_value (floating.m02 M)) (float_value (floating.m10 M))
    (float_value (floating.m11 M)) (float_value (floating.m12 M))
    (float_value (floating.m20 M)) (float_value (floating.m21 M))
    (float_value (floating.m22 M)).

(** The records of the exact embedding as records of the floating one. *)
Definition lift_mat (M : mat3) : floating.mat3 R :=
  floating.mkMat3 (m00 M) (m01 M) (m02 M) (m10 M) (m11 M) (m12 M)
    (m20 M) (m21 M) (m22 M).

Definition lift_calibrator (c : calibration.HomographyCalibrator)
  : floating.HomographyCalibrator R :=
  floating.mkCalibrator
    (option_map lift_mat (calibration.H c))
    (option_map lift_mat (calibration.H_inv c))
    (calibration.image_corners c) (calibration.world_corners c)
    (calibration._click_points c) (calibration._calibration_done c).

Definition lift_positioner (pp : positioning.PlanarPositioner)
  : floating.PlanarPositioner R :=
  floating.mkPositioner (lift_calibrator (positioning.calibrator pp))
    (positioning._camera_center_world pp).

(** * Properties *)

(** ** Reading the boolean comparisons *)

Lemma Rltb_true (x y : R) : (x <? y) = true <-> x < y.
Proof. unfold Rltb. destruct (Rlt_dec x y); split; intros; [assumption|reflexivity|discriminate|contradiction]. Qed.

Lemma Rltb_false (x y : R) : (x <? y) = false <-> ~ x < y.
Proof. unfold Rltb. destruct (Rlt_dec x y); split; intros; [discriminate|contradiction|assumption|reflexivity]. Qed.

Lemma Rleb_true (x y : R) : (x <=? y) = true <-> x <= y.
Proof. unfold Rleb. destruct (Rle_dec x y); split; intros; [assumption|reflexivity|discriminate|contradiction]. Qed.

Lemma Rleb_false (x y : R) : (x <=? y) = false <-> ~ x <= y.
Proof. unfold Rleb. destruct (Rle_dec x y); split; intros; [discriminate|contradiction|assumption|reflexivity]. Qed.

(** Settles comparisons between closed real expressions. *)
Ltac Rclosed :=
  cbn [fst snd]; repeat (unfold Rabs; destruct (Rcase_abs _)); lra.

Ltac Rcompare :=
  repeat match goal with
  | |- context [Rltb ?a ?b] =>
      first [ replace (Rltb a b) with true by (symmetry; apply Rltb_true; Rclosed)
            | replace (Rltb a b) with false by (symmetry; apply Rltb_false; Rclosed) ]
  | |- context [Rleb ?a ?b] =>
      first [ replace (Rleb a b) with true by (symmetry; apply Rleb_true; Rclosed)
            | replace (Rleb a b) with false by (symmetry; apply Rleb_false; Rclosed) ]
  end.

(** ** The Python idioms on small inputs *)

Example slice_from_last_two : slice_from (-2) [1; 2; 3]%nat = [2; 3]%nat.
Proof. reflexivity. Qed.

Example slice_from_short_list : slice_from (-5) [1; 2]%nat = [1; 2]%nat.
Proof. reflexivity. Qed.

Example py_max_keeps_first : py_max 0 0 = 0 /\ py_max 0 2 = 2 /\ py_max 3 2 = 3.
Proof. unfold py_max. Rcompare. auto. Qed.

Example int_of_negative : int_of (-2.5) = (-2)%Z.
Proof.
  unfold int_of. Rcompare.
  assert (H : 2%Z = Int_part (- -2.5)) by (apply Int_part_spec; lra).
  rewrite <- H. reflexivity.
Qed.

Import game_engine.

Example hole_positions_cycle :
  hole_position (state (_set_hole_for_level 6 MiniGolfEngine_init)) = Some (45, 20).
Proof. reflexivity. Qed.

(** ** Restarting a level *)

(** C10: [restart_level] zeroes the stroke count, clears the holed flag,
    the stillness counter, the position history and the celebration, and
    leaves the level index, the total score, the hole position, the
    obstacle list and the game-over flag as they were. *)
Theorem restart_level_frame (e : MiniGolfEngine) :
  let e' := restart_level e in
  putts (state e') = 0%Z /\
  is_hole_in (state e') = false /\
  _stopped_frame_count e' = 0%Z /\
  _last_positions e' = [] /\
  _celebrating e' = false /\
  level (state e') = level (state e) /\
  total_score (state e') = total_score (state e) /\
  hole_position (state e') = hole_position (state e) /\
  obstacles (state e') = obstacles (state e) /\
  game_over (state e') = game_over (state e).
Proof.
  destruct e as [s c h m lt ht cel dur]; destruct s; cbn.
  repeat split; reflexivity.
Qed.

(** ** Game over *)

Lemma update_game_over (now later : R) (b : option point) (e : MiniGolfEngine) :
  game_over (state e) = true -> update now later b e = e.
Proof. intros Hg. unfold update. rewrite Hg. reflexivity. Qed.

Lemma run_game_over (ticks : list tick) (e : MiniGolfEngine) :
  game_over (state e) = true -> run ticks e = e.
Proof.
  revert e. induction ticks as [|k ticks IH]; intros e Hg; [reflexivity|].
  unfold run in *. cbn [fold_left]. unfold step at 2.
  rewrite (update_game_over _ _ _ _ Hg). now apply IH.
Qed.

(** C9: advancing from the last configured level (or beyond) raises the
    game-over flag; from then on any sequence of updates leaves the engine,
    hence stroke count and total score, exactly as it is. *)
Theorem level_exhaustion_halts (e : MiniGolfEngine) (now : R) :
  (Z.of_nat (length config.HOLE_POSITIONS) <= level (state e))%Z ->
  let e' := _advance_level now e in
  game_over (state e') = true /\
  forall ticks : list tick,
    run ticks e' = e' /\
    putts (state (run ticks e')) = putts (state e') /\
    total_score (state (run ticks e')) = total_score (state e').
Proof.
  intros Hlast e'.
  assert (Hg : game_over (state e') = true).
  { subst e'. unfold _advance_level. cbn.
    destruct (Z.ltb_spec 5 (level (state e) + 1)) as [_|Hle]; [reflexivity|].
    cbn in Hlast. lia. }
  split; [exact Hg|]. intros ticks.
  rewrite (run_game_over ticks e' Hg). repeat split.
Qed.

Lemma level_exhaustion_halts_witness :
  let e' := _advance_level 0 (on_state (set_level 5) MiniGolfEngine_init) in
  game_over (state e') = true /\
  forall ticks : list tick,
    run ticks e' = e' /\
    putts (state (run ticks e')) = putts (state e') /\
    total_score (state (run ticks e')) = total_score (state e').
Proof.
  apply (level_exhaustion_halts (on_state (set_level 5) MiniGolfEngine_init) 0).
  cbn. lia.
Defined.

(** The usual way there: the celebration of the last level runs out. *)
Lemma last_celebration_ends_game (now later : R) (b : option point)
    (e : MiniGolfEngine) :
  game_over (state e) = false ->
  _celebrating e = true ->
  _celebration_duration e < now - _hole_in_time e ->
  (Z.of_nat (length config.HOLE_POSITIONS) <= level (state e))%Z ->
  game_over (state (update now later b e)) = true.
Proof.
  intros Hg Hc Ht Hl. unfold update. rewrite Hg, Hc.
  replace (_celebration_duration e <? now - _hole_in_time e) with true
    by (symmetry; apply Rltb_true; exact Ht).
  unfold _advance_level. cbn in *.
  destruct (Z.ltb_spec 5 (level (state e) + 1)); [reflexivity|lia].
Qed.

Import calibration positioning.

(** ** Failed homography computation *)

(** C2, as the code has it: when the solver finds no homography,
    [_compute_homography] returns [False] with the calibrated flag down;
    the inverse transform is the one stored before, the forward transform
    has been replaced by [None], and conversions answer [None]. *)
Theorem failed_homography_state
    (findHomography : list point -> list point -> option mat3)
    (c : HomographyCalibrator) (corners : list point) :
  image_corners c = Some corners ->
  findHomography corners (world_corners c) = None ->
  let c' := fst (_compute_homography findHomography c) in
  snd (_compute_homography findHomography c) = Ret false /\
  _calibration_done c' = false /\
  H c' = None /\
  H_inv c' = H_inv c /\
  image_corners c' = image_corners c /\
  world_corners c' = world_corners c /\
  forall p : point, image_to_world c' p = Ret None /\ world_to_image c' p = Ret None.
Proof.
  intros Hc Hf. unfold _compute_homography. rewrite Hc. cbn.
  rewrite Hf. cbn. repeat split; solve [reflexivity | assumption].
Qed.

Lemma failed_homography_state_witness :
  let solver := fun _ _ : list point => @None mat3 in
  let c := mkCalibrator (Some identity3) (Some identity3)
             (Some [(0, 0); (1, 1); (2, 2); (3, 3)]) config.WORLD_CORNERS [] true in
  let c' := fst (_compute_homography solver c) in
  snd (_compute_homography solver c) = Ret false /\
  _calibration_done c' = false /\
  H c' = None /\
  H_inv c' = H_inv c /\
  image_corners c' = image_corners c /\
  world_corners c' = world_corners c /\
  forall p : point, image_to_world c' p = Ret None /\ world_to_image c' p = Ret None.
Proof.
  intros solver c.
  apply (failed_homography_state solver c [(0, 0); (1, 1); (2, 2); (3, 3)]);
    reflexivity.
Defined.

(** C2 as stated fails: a calibrator holding the identity mapping is asked
    to recalibrate on four collinear image corners, the solver gives up, and
    the forward transform afterwards is [None], not the one held before. *)
Lemma failed_homography_drops_forward_transform :
  let solver := fun _ _ : list point => @None mat3 in
  let c := mkCalibrator (Some identity3) (Some identity3)
             (Some [(0, 0); (1, 1); (2, 2); (3, 3)]) config.WORLD_CORNERS [] true in
  let c' := fst (_compute_homography solver c) in
  snd (_compute_homography solver c) = Ret false /\
  H c = Some identity3 /\
  H c' = None /\
  H c' <> H c.
Proof. cbn. repeat split; discriminate. Qed.

(** The neighbouring failure, too few markers, returns before anything is
    stored: there the calibrator is left as it was. *)
Lemma calibrate_aruco_too_few
    (findHomography : list point -> list point -> option mat3)
    (detected : option (list (Z * point))) (order : list Z)
    (c : HomographyCalibrator) :
  match detected with
  | None => True
  | Some markers => (length markers < 4)%nat
  end ->
  calibrate_aruco findHomography detected order c = (c, Ret false).
Proof.
  unfold calibrate_aruco. destruct detected as [markers|]; [|reflexivity].
  intros Hlen. destruct (Z.ltb_spec (Z.of_nat (length markers)) 4); [reflexivity|lia].
Qed.

(** ** Image to plane *)

(** C6: [image_to_plane] answers [None] when the calibrator is not
    calibrated; when it is, with forward matrix [h], it answers [None]
    exactly when the third coordinate of [h @ (u, v, 1)] is below 1e-10 in
    magnitude, and the first two coordinates divided by the third
    otherwise. *)
Theorem image_to_plane_cases (pp : PlanarPositioner) (p : point) :
  (_calibration_done (calibrator pp) = false ->
     image_to_plane pp p = Ret None) /\
  (forall h : mat3,
     _calibration_done (calibrator pp) = true ->
     H (calibrator pp) = Some h ->
     let w := mat_vec h (fst p, snd p, 1) in
     (image_to_plane pp p = Ret None <-> Rabs (snd w) < 1e-10) /\
     (~ Rabs (snd w) < 1e-10 ->
        image_to_plane pp p =
        Ret (Some (fst (fst w) / snd w, snd (fst w) / snd w)))).
Proof.
  unfold image_to_plane, image_to_world. split.
  - intros ->. reflexivity.
  - intros h -> ->. cbn [negb].
    destruct (mat_vec h (fst p, snd p, 1)) as [[w0 w1] w2]. cbn [fst snd].
    destruct (Rabs w2 <? 1e-10) eqn:E.
    + apply Rltb_true in E. split; [tauto|]. intros; contradiction.
    + apply Rltb_false in E. split; [|reflexivity].
      split; [discriminate|contradiction].
Qed.

Lemma image_to_plane_cases_witness :
  let pp := mkPositioner
              (mkCalibrator (Some identity3) (Some identity3) None
                 config.WORLD_CORNERS [] true) None in
  let w := mat_vec identity3 (3, 4, 1) in
  image_to_plane pp (3, 4) = Ret (Some (fst (fst w) / snd w, snd (fst w) / snd w)).
Proof.
  intros pp w.
  apply (proj2 (image_to_plane_cases pp (3, 4)) identity3 eq_refl eq_refl).
  cbn. rewrite Rabs_pos_eq; lra.
Defined.

(** ** Height correction *)

(** C7: [correct_height] gives the apparent position back when the height
    is below 1e-6 in magnitude (0 in particular), when no camera centre has
    been estimated, and when the camera height is within 1e-6 of the
    object height. *)
Theorem correct_height_identity (pp : PlanarPositioner) (P : point) (h : R) :
  Rabs h < 1e-6 \/
  _camera_center_world pp = None \/
  (exists Cx Cy Cz, _camera_center_world pp = Some (Cx, Cy, Cz) /\
                    Rabs (Cz - h) < 1e-6) ->
  correct_height pp (Some P) h = Some P.
Proof.
  intros Hcase. unfold correct_height.
  destruct (Rabs h <? 1e-6) eqn:Eh; [reflexivity|].
  destruct Hcase as [Hh | [Hnone | (Cx & Cy & Cz & Hc & Hz)]].
  - apply Rltb_false in Eh. contradiction.
  - rewrite Hnone. reflexivity.
  - rewrite Hc. apply Rltb_true in Hz. rewrite Hz. reflexivity.
Qed.

Lemma correct_height_identity_witness :
  correct_height (mkPositioner HomographyCalibrator_init (Some (30, 20, 100)))
    (Some (12, 7)) 0 = Some (12, 7).
Proof.
  apply correct_height_identity. left. rewrite Rabs_R0. lra.
Defined.

(** C8 as stated fails inside the guard: with the camera centre at
    (0, 0, 1) and height 1e-7 (so Cz > h > 0) the apparent position (1, 0)
    comes back unchanged, hence not strictly farther from (0, 0). *)
Lemma correct_height_small_height_unchanged :
  let pp := mkPositioner HomographyCalibrator_init (Some (0, 0, 1)) in
  0 < 1e-7 < 1 /\
  (1, 0) <> (0, 0) /\
  correct_height pp (Some (1, 0)) 1e-7 = Some (1, 0) /\
  ~ norm (vsub (1, 0) (0, 0)) < norm (vsub (1, 0) (0, 0)).
Proof.
  cbn zeta. repeat split; try lra.
  - intros E. injection E as E1. lra.
  - unfold correct_height.
    replace (Rabs 1e-7 <? 1e-6) with true
      by (symmetry; apply Rltb_true; rewrite Rabs_pos_eq; lra).
    reflexivity.
Qed.

(** ** Hole-in *)

(** [_check_movement] touches the stillness counter only. *)
Lemma check_movement_frame (e : MiniGolfEngine) :
  let e' := fst (_check_movement e) in
  state e' = state e /\
  _last_positions e' = _last_positions e /\
  _max_history e' = _max_history e /\
  _level_start_time e' = _level_start_time e /\
  _hole_in_time e' = _hole_in_time e /\
  _celebrating e' = _celebrating e /\
  _celebration_duration e' = _celebration_duration e.
Proof.
  unfold _check_movement.
  destruct (Z.of_nat (length (_last_positions e)) <? config.BALL_STOPPED_FRAMES)%Z;
    [cbn; auto 10|].
  destruct (max_displacement _ <? config.BALL_STOPPED_THRESHOLD_CM); cbn; auto 10.
Qed.

(** While a celebration lasts, an update rewrites the countdown text only. *)
Lemma update_celebrating (now later : R) (b : option point) (e : MiniGolfEngine) :
  game_over (state e) = false ->
  _celebrating e = true ->
  now - _hole_in_time e <= _celebration_duration e ->
  update now later b e =
  on_state (set_status
              (MsgCountdown (_celebration_duration e - (now - _hole_in_time e)))) e.
Proof.
  intros Hg Hc Ht. unfold update. rewrite Hg, Hc.
  replace (_celebration_duration e <? now - _hole_in_time e) with false
    by (symmetry; apply Rltb_false; lra).
  reflexivity.
Qed.

Lemma run_celebrating (ticks : list tick) (e : MiniGolfEngine) :
  game_over (state e) = false ->
  _celebrating e = true ->
  Forall (fun k => t_now k - _hole_in_time e <= _celebration_duration e) ticks ->
  exists msg : status_text, run ticks e = on_state (set_status msg) e.
Proof.
  revert e. induction ticks as [|k ticks IH]; intros e Hg Hc Hall.
  - exists (status (state e)). destruct e as [s c h m lt ht cel dur]; destruct s.
    reflexivity.
  - inversion Hall as [|? ? Hk Hrest]; subst.
    unfold run. cbn [fold_left]. unfold step at 2.
    rewrite (update_celebrating _ _ _ _ Hg Hc Hk).
    set (e1 := on_state _ e).
    destruct (IH e1) as [msg Hmsg]; [exact Hg | exact Hc | exact Hrest |].
    exists msg. unfold run in Hmsg. rewrite Hmsg. reflexivity.
Qed.

(** [_advance_level] leaves the motion flag, the total score and the
    celebration fields alone. *)
Lemma advance_level_frame (now : R) (e : MiniGolfEngine) :
  let e' := _advance_level now e in
  is_ball_moving (state e') = is_ball_moving (state e) /\
  total_score (state e') = total_score (state e) /\
  _celebrating e' = _celebrating e /\
  _hole_in_time e' = _hole_in_time e /\
  _celebration_duration e' = _celebration_duration e /\
  _max_history e' = _max_history e /\
  _stopped_frame_count e' = 0%Z /\
  _last_positions e' = [].
Proof.
  unfold _advance_level. cbn.
  destruct (_ <? _)%Z; cbn; auto 10.
Qed.

(** C4: on an update of a game in play (not over, not celebrating) with a
    located position, hole-in is triggered exactly when the distance to the
    hole is below 4.0 and either the ball is not moving or the distance is
    below 3.5.  When triggered, the holed flag is set, the stroke count is
    raised to at least 1 and added to the total score, the time is
    recorded, and as long as no more than the 3.0 seconds of celebration
    have passed, further updates change the status text only. *)
Theorem hole_in_rule (e : MiniGolfEngine) (now later : R) (pos : point) :
  game_over (state e) = false ->
  _celebrating e = false ->
  _celebration_duration e = 3 ->
  (0 <= putts (state e))%Z ->
  let e' := update now later (Some pos) e in
  let dist :=
    match hole_position (state e) with
    | Some hole => Fin (norm (vsub pos hole))
    | None => Inf
    end in
  let moving := is_ball_moving (state e') in
  let strokes :=
    (putts (state e)
     + if is_ball_moving (state e) && negb moving then 1 else 0)%Z in
  let hole_in :=
    xlt dist config.HOLE_IN_TOLERANCE_CM
    && (negb moving || xlt dist config.HOLE_RADIUS_CM) in
  _celebrating e' = hole_in /\
  (hole_in = true ->
     is_hole_in (state e') = true /\
     putts (state e') = Z.max strokes 1 /\
     total_score (state e') = (total_score (state e) + Z.max strokes 1)%Z /\
     _hole_in_time e' = now /\
     game_over (state e') = false /\
     forall ticks : list tick,
       Forall (fun k => t_now k - now <= 3) ticks ->
       exists msg : status_text, run ticks e' = on_state (set_status msg) e').
Proof.
  intros Hg Hc Hd Hp e' dist moving strokes hole_in.
  assert (Hcore :
    _celebrating e' = hole_in /\
    (hole_in = true ->
       is_hole_in (state e') = true /\
       putts (state e') = Z.max strokes 1 /\
       total_score (state e') = (total_score (state e) + Z.max strokes 1)%Z /\
       _hole_in_time e' = now /\
       game_over (state e') = false /\
       _celebration_duration e' = 3)).
  { subst hole_in strokes moving dist e'. unfold update. rewrite Hg, Hc.
    set (e1 := if (_max_history _ <? _)%Z then _ else _).
    assert (Hs1 : state e1 = set_ball_world_pos (Some pos) (state e)
                  /\ _celebrating e1 = false /\ _celebration_duration e1 = 3).
    { subst e1. destruct (_ <? _)%Z; cbn; auto. }
    destruct Hs1 as (Hs1 & Hc1 & Hd1).
    replace (hole_position (state e1)) with (hole_position (state e))
      by (rewrite Hs1; reflexivity).
    set (dist := match hole_position (state e) with
                 | Some hole => Fin (norm (vsub pos hole)) | None => Inf end).
    set (e2 := match hole_position (state e) with
               | Some hole => on_state (set_distance_to_hole
                                          (Fin (norm (vsub pos hole)))) e1
               | None => e1 end).
    replace (match hole_position (state e) with
             | Some hole =>
               (on_state (set_distance_to_hole (Fin (norm (vsub pos hole)))) e1,
                Fin (norm (vsub pos hole)))
             | None => (e1, Inf) end) with (e2, dist)
      by (subst e2 dist; destruct (hole_position (state e)); reflexivity).
    assert (Hs2 : putts (state e2) = putts (state e)
                  /\ total_score (state e2) = total_score (state e)
                  /\ is_ball_moving (state e2) = is_ball_moving (state e)
                  /\ game_over (state e2) = false
                  /\ _celebrating e2 = false /\ _celebration_duration e2 = 3).
    { subst e2. destruct (hole_position (state e)); cbn; rewrite ?Hs1; cbn; auto 10. }
    destruct Hs2 as (Hp2 & Ht2 & Hm2 & Hg2 & Hc2 & Hd2).
    pose proof (check_movement_frame e2) as Hcm.
    destruct (_check_movement e2) as [e3 mv]. cbn [fst] in Hcm.
    destruct Hcm as (Hs3 & _ & _ & _ & _ & Hc3 & Hd3).
    destruct e3 as [s3 c3 h3 m3 lt3 ht3 cel3 dur3]. cbn in Hs3, Hc3, Hd3. subst s3 cel3 dur3.
    cbn [state _celebrating _celebration_duration].
    rewrite ?Hc2, ?Hd2, ?Hm2.
    destruct (state e2) as [lv pt ts st bw bi hp ob mvg hin go dh] eqn:Es2.
    cbn in Hp2, Ht2, Hm2, Hg2. subst pt ts mvg go.
    destruct (is_ball_moving (state e)), mv,
      (xlt dist config.HOLE_IN_TOLERANCE_CM), (xlt dist config.HOLE_RADIUS_CM);
      cbn;
      repeat match goal with
      | |- context [(?a =? ?b)%Z] => destruct (Z.eqb_spec a b); cbn
      | |- context [(?a <=? ?b)%Z] => destruct (Z.leb_spec a b); cbn
      | |- context [(?a <? ?b)%Z] => destruct (Z.ltb_spec a b); cbn
      end;
      (split;
       [ try reflexivity;
         match goal with
         | |- context [_advance_level ?t ?x] =>
             rewrite (proj1 (proj2 (proj2 (advance_level_frame t x))))
         end; reflexivity
       | intros Ht; try discriminate Ht;
         repeat split; try reflexivity; try lia ]). }
  destruct Hcore as [Htrig Hin]. split; [exact Htrig|].
  intros Ht. destruct (Hin Ht) as (H1 & H2 & H3 & H4 & H5 & H6).
  repeat split; auto.
  intros ticks Hall. apply run_celebrating; [exact H5 | | ].
  - rewrite Htrig. exact Ht.
  - rewrite H4, H6. exact Hall.
Qed.

Lemma norm_lt_sq (v : point) (c : R) :
  0 <= c -> fst v * fst v + snd v * snd v < c * c -> norm v < c.
Proof.
  intros Hc Hlt. unfold norm. rewrite <- (sqrt_square c Hc).
  apply sqrt_lt_1_alt. split; [nra | exact Hlt].
Qed.

Lemma hole_in_rule_witness :
  let e := start_game 0 MiniGolfEngine_init in
  let e' := update 0 0 (Some (46, 19)) e in
  hole_position (state e) = Some (45, 20) /\
  _celebrating e' = true /\
  is_hole_in (state e') = true /\
  putts (state e') = 1%Z /\
  total_score (state e') = 1%Z.
Proof.
  intros e.
  assert (Hhole : hole_position (state e) = Some (45, 20)) by reflexivity.
  assert (Hm : is_ball_moving (state e) = false) by reflexivity.
  assert (Hp : putts (state e) = 0%Z) by reflexivity.
  assert (Ht : total_score (state e) = 0%Z) by reflexivity.
  assert (Hr := hole_in_rule e 0 0 (46, 19) eq_refl eq_refl eq_refl).
  cbv zeta in Hr. clearbody e. intros e'; subst e'.
  rewrite Hhole, Hm, Hp, Ht in Hr. specialize (Hr (Z.le_refl 0)).
  assert (Hn : forall c, 2 <= c -> xlt (Fin (norm (vsub (46, 19) (45, 20)))) c = true).
  { intros c Hc. apply Rltb_true. apply norm_lt_sq; [lra|]. cbn. nra. }
  rewrite !Hn in Hr by (unfold config.HOLE_IN_TOLERANCE_CM, config.HOLE_RADIUS_CM; lra).
  rewrite orb_true_r in Hr. cbn in Hr.
  destruct Hr as [Hcel Hin]. destruct (Hin eq_refl) as (H1 & H2 & H3 & _).
  repeat split; assumption.
Defined.

(** ** Motion hysteresis *)

Lemma check_movement_short (e : MiniGolfEngine) :
  (Z.of_nat (length (_last_positions e)) < config.BALL_STOPPED_FRAMES)%Z ->
  _check_movement e = (e, true).
Proof.
  intros Hlen. unfold _check_movement.
  destruct (Z.ltb_spec (Z.of_nat (length (_last_positions e)))
                       config.BALL_STOPPED_FRAMES); [reflexivity|lia].
Qed.

Lemma check_movement_long (e : MiniGolfEngine) :
  (config.BALL_STOPPED_FRAMES <= Z.of_nat (length (_last_positions e)))%Z ->
  let c' :=
    if max_displacement (slice_from (- config.BALL_STOPPED_FRAMES) (_last_positions e))
       <? config.BALL_STOPPED_THRESHOLD_CM
    then (_stopped_frame_count e + 1)%Z else 0%Z in
  _check_movement e =
  (set_stopped_frame_count c' e, (c' <? config.BALL_STOPPED_FRAMES)%Z).
Proof.
  intros Hlen. unfold _check_movement.
  destruct (Z.ltb_spec (Z.of_nat (length (_last_positions e)))
                       config.BALL_STOPPED_FRAMES); [lia|].
  destruct (max_displacement _ <? _); reflexivity.
Qed.

(** What an update of a game in play does to the fields the motion test
    reads: the history gains the sample, [_check_movement] runs on it, its
    verdict becomes the motion flag, and unless the level ends the counter
    and the history stay as [_check_movement] left them. *)
Lemma update_in_play (e : MiniGolfEngine) (now later : R) (pos : point) :
  game_over (state e) = false ->
  _celebrating e = false ->
  exists e2 : MiniGolfEngine,
    _last_positions e2 = pushed_history e pos /\
    _stopped_frame_count e2 = _stopped_frame_count e /\
    let e3 := fst (_check_movement e2) in
    let mv := snd (_check_movement e2) in
    let e' := update now later (Some pos) e in
    is_ball_moving (state e') = mv /\
    _max_history e' = _max_history e /\
    ((_last_positions e' = _last_positions e3 /\
      _stopped_frame_count e' = _stopped_frame_count e3) \/
     (_last_positions e' = [] /\ _stopped_frame_count e' = 0%Z)) /\
    (mv = true ->
     xlt (hole_distance e pos) config.HOLE_RADIUS_CM = false ->
     _last_positions e' = _last_positions e3 /\
     _stopped_frame_count e' = _stopped_frame_count e3 /\
     _celebrating e' = false /\
     game_over (state e') = false /\
     hole_position (state e') = hole_position (state e)).
Proof.
  intros Hg Hc. unfold update. rewrite Hg, Hc.
  set (e1 := if (_max_history _ <? _)%Z then _ else _).
  assert (H1 : state e1 = set_ball_world_pos (Some pos) (state e)
               /\ _last_positions e1 = pushed_history e pos
               /\ _stopped_frame_count e1 = _stopped_frame_count e
               /\ _max_history e1 = _max_history e
               /\ _celebrating e1 = false).
  { subst e1. unfold pushed_history. cbn.
    destruct (_ <? _)%Z; cbn; auto. }
  destruct H1 as (Hs1 & Hh1 & Hn1 & Hm1 & Hc1).
  replace (hole_position (state e1)) with (hole_position (state e))
    by (rewrite Hs1; reflexivity).
  set (e2 := match hole_position (state e) with
             | Some hole => on_state (set_distance_to_hole
                                        (Fin (norm (vsub pos hole)))) e1
             | None => e1 end).
  replace (match hole_position (state e) with
           | Some hole =>
             (on_state (set_distance_to_hole (Fin (norm (vsub pos hole)))) e1,
              Fin (norm (vsub pos hole)))
           | None => (e1, Inf) end) with (e2, hole_distance e pos)
    by (subst e2; unfold hole_distance; destruct (hole_position (state e)); reflexivity).
  assert (H2 : _last_positions e2 = pushed_history e pos
               /\ _stopped_frame_count e2 = _stopped_frame_count e
               /\ _max_history e2 = _max_history e
               /\ _celebrating e2 = false
               /\ game_over (state e2) = false
               /\ hole_position (state e2) = hole_position (state e)).
  { subst e2. destruct (hole_position (state e)) eqn:Eh; cbn;
      rewrite ?Hs1; cbn; auto 10. }
  destruct H2 as (Hh2 & Hn2 & Hm2 & Hc2 & Hg2 & Hp2).
  exists e2. split; [exact Hh2|]. split; [exact Hn2|].
  pose proof (check_movement_frame e2) as Hcm.
  destruct (_check_movement e2) as [e3 mv]. cbn [fst snd] in *.
  destruct Hcm as (Hs3 & _ & Hm3 & _ & _ & Hc3 & _).
  destruct e3 as [s3 c3 h3 m3 lt3 ht3 cel3 dur3]. cbn in Hs3, Hm3, Hc3. subst s3 m3 cel3.
  cbn [state _celebrating _max_history _last_positions _stopped_frame_count].
  rewrite Hc2, Hm2.
  destruct (state e2) as [lv pt ts st bw bi hp ob mvg hin go dh] eqn:Es2.
  cbn in Hg2, Hp2. subst go hp.
  destruct mvg, mv,
    (xlt (hole_distance e pos) config.HOLE_IN_TOLERANCE_CM),
    (xlt (hole_distance e pos) config.HOLE_RADIUS_CM);
    cbn;
    repeat match goal with
    | |- context [(?a =? ?b)%Z] => destruct (Z.eqb_spec a b); cbn
    | |- context [(?a <=? ?b)%Z] => destruct (Z.leb_spec a b); cbn
    end;
    repeat match goal with
    | |- context [_advance_level ?t ?x] =>
        let Hf := fresh "Hf" in
        pose proof (advance_level_frame t x) as Hf; cbv zeta in Hf;
        destruct Hf as (Hf & _ & _ & _ & _ & Hf1 & Hf2 & Hf3);
        rewrite Hf, Hf1, Hf2, Hf3; clear Hf Hf1 Hf2 Hf3; cbn
    end;
    repeat split; auto; try discriminate.
Qed.

Lemma slice_from_length {A : Type} (i : Z) (l : list A) :
  (length (slice_from i l) <= length l)%nat.
Proof. unfold slice_from. destruct (i <? 0)%Z; rewrite length_skipn; lia. Qed.

Lemma pushed_history_length (e : MiniGolfEngine) (pos : point) :
  (length (pushed_history e pos) <= length (_last_positions e) + 1)%nat.
Proof.
  unfold pushed_history. cbv zeta.
  destruct (_ <? _)%Z.
  - etransitivity; [apply slice_from_length|]. rewrite length_app. cbn. lia.
  - rewrite length_app. cbn. lia.
Qed.

(** Counting updates since the level began: after [n] of them the history
    holds at most [n] samples and the stillness counter is at most
    [n - 14]; so up to the 28th update the motion test answers "moving". *)
Lemma step_warming_up (n : Z) (e : MiniGolfEngine) (k : tick) :
  (0 <= n)%Z ->
  (Z.of_nat (length (_last_positions e)) <= n)%Z ->
  (_stopped_frame_count e <= Z.max 0 (n - 14))%Z ->
  let e' := step e k in
  (Z.of_nat (length (_last_positions e')) <= n + 1)%Z /\
  (_stopped_frame_count e' <= Z.max 0 (n + 1 - 14))%Z /\
  ((n + 1 <= 28)%Z ->
   is_ball_moving (state e) = true \/
   (game_over (state e) = false /\ _celebrating e = false /\ t_ball k <> None) ->
   is_ball_moving (state e') = true).
Proof.
  intros Hn Hlen Hcnt e'. subst e'. unfold step.
  destruct (game_over (state e)) eqn:Hg.
  { rewrite (update_game_over _ _ _ _ Hg).
    repeat split; try lia. intros _ [Hm | (Hf & _)]; [exact Hm | discriminate]. }
  destruct (_celebrating e) eqn:Hc.
  { unfold update. rewrite Hg, Hc.
    destruct (_celebration_duration e <? t_now k - _hole_in_time e).
    - pose proof (advance_level_frame (t_later k) (set_celebrating false e)) as Hf.
      cbv zeta in Hf. destruct Hf as (Hf1 & _ & _ & _ & _ & _ & Hf2 & Hf3).
      rewrite Hf1, Hf2, Hf3. cbn.
      repeat split; try lia. intros _ [Hm | (_ & Hf & _)]; [exact Hm | discriminate].
    - cbn. repeat split; try lia.
      intros _ [Hm | (_ & Hf & _)]; [exact Hm | discriminate]. }
  destruct (t_ball k) as [pos|] eqn:Hb.
  2:{ unfold update. rewrite Hg, Hc. cbn.
      repeat split; try lia. intros _ [Hm | (_ & _ & Hf)]; [exact Hm | now elim Hf]. }
  destruct (update_in_play e (t_now k) (t_later k) pos Hg Hc)
    as (e2 & Hh2 & Hc2 & Hupd).
  cbv zeta in Hupd. destruct Hupd as (Hmv & _ & Hfields & _).
  pose proof (pushed_history_length e pos) as Hpl.
  destruct (Z.ltb_spec (Z.of_nat (length (_last_positions e2)))
                       config.BALL_STOPPED_FRAMES) as [Hshort | Hlong].
  - rewrite (check_movement_short e2 Hshort) in *. cbn [fst snd] in *.
    rewrite Hmv. split; [|split; [|reflexivity]].
    + destruct Hfields as [(-> & _) | (-> & _)]; [rewrite Hh2|cbn]; lia.
    + destruct Hfields as [(_ & ->) | (_ & ->)]; [rewrite Hc2|]; lia.
  - pose proof (check_movement_long e2 Hlong) as Hcm. cbv zeta in Hcm.
    rewrite Hcm in *. cbn [fst snd] in *. clear Hcm.
    unfold config.BALL_STOPPED_FRAMES in *.
    rewrite Hh2, Hc2 in *.
    set (c' := if _ <? _ then _ else _) in *.
    assert (Hc' : (c' <= Z.max 0 (n + 1 - 14))%Z).
    { subst c'. destruct (_ <? _); lia. }
    cbn [_last_positions _stopped_frame_count set_stopped_frame_count] in Hfields.
    split; [|split].
    + destruct Hfields as [(-> & _) | (-> & _)]; [rewrite Hh2|cbn]; lia.
    + destruct Hfields as [(_ & ->) | (_ & ->)]; lia.
    + intros H28 _. rewrite Hmv. apply Z.ltb_lt. lia.
Qed.

Lemma run_app (t1 t2 : list tick) (e : MiniGolfEngine) :
  run (t1 ++ t2) e = run t2 (run t1 e).
Proof. unfold run. apply fold_left_app. Qed.

Lemma run_warming_up (ticks : list tick) :
  forall (n : Z) (e : MiniGolfEngine),
    (0 <= n)%Z ->
    (Z.of_nat (length (_last_positions e)) <= n)%Z ->
    (_stopped_frame_count e <= Z.max 0 (n - 14))%Z ->
    (n + Z.of_nat (length ticks) <= 28)%Z ->
    is_ball_moving (state e) = true ->
    is_ball_moving (state (run ticks e)) = true.
Proof.
  induction ticks as [|k ticks IH]; intros n e Hn Hlen Hcnt H28 Hm; [exact Hm|].
  cbn [length] in H28.
  destruct (step_warming_up n e k Hn Hlen Hcnt) as (Hl' & Hc' & Hm').
  change (run (k :: ticks) e) with (run ticks (step e k)).
  apply (IH (n + 1)%Z); try lia; try assumption.
  apply Hm'; [lia | left; exact Hm].
Qed.

(** From a fresh level, every one of the first 28 updates with a located
    ball reports "moving", whatever the positions are. *)
Lemma fresh_level_moving (e : MiniGolfEngine) (ticks : list tick) :
  fresh_level e ->
  Forall (fun k => t_ball k <> None) ticks ->
  ticks <> [] ->
  (length ticks <= 28)%nat ->
  is_ball_moving (state (run ticks e)) = true.
Proof.
  intros (Hh & Hc & _ & Hcel & Hg) Hall Hne Hlen.
  destruct ticks as [|k ticks]; [now elim Hne|].
  inversion Hall as [|? ? Hk Hrest]; subst. cbn [length] in Hlen.
  assert (Hl0 : (Z.of_nat (length (_last_positions e)) <= 0)%Z) by (rewrite Hh; cbn; lia).
  assert (Hc0 : (_stopped_frame_count e <= Z.max 0 (0 - 14))%Z) by (rewrite Hc; lia).
  destruct (step_warming_up 0 e k (Z.le_refl 0) Hl0 Hc0) as (Hl' & Hc' & Hm').
  change (run (k :: ticks) e) with (run ticks (step e k)).
  apply (run_warming_up ticks 1); try lia; try assumption.
  apply Hm'; [lia | right; auto].
Qed.

Lemma norm_zero (p : point) : norm (vsub p p) = 0.
Proof.
  unfold norm, vsub. cbn [fst snd].
  replace ((fst p - fst p) * (fst p - fst p) + (snd p - snd p) * (snd p - snd p))
    with 0 by ring.
  apply sqrt_0.
Qed.

Lemma displacement_loop_repeat (p : point) (m : nat) :
  displacement_loop 0 p (repeat p m) = 0.
Proof.
  induction m as [|m IH]; [reflexivity|]. cbn [repeat displacement_loop].
  rewrite norm_zero. unfold py_max.
  replace (0 <? 0) with false by (symmetry; apply Rltb_false; lra).
  exact IH.
Qed.

Lemma max_displacement_repeat (p : point) (m : nat) :
  max_displacement (repeat p m) = 0.
Proof. destruct m; [reflexivity|]. cbn. apply displacement_loop_repeat. Qed.

Lemma skipn_repeat {A : Type} (x : A) (k n : nat) :
  skipn k (repeat x n) = repeat x (n - k).
Proof.
  revert n. induction k as [|k IH]; intros n.
  - now rewrite Nat.sub_0_r.
  - destruct n; [reflexivity|]. cbn. apply IH.
Qed.

Lemma repeat_snoc {A : Type} (x : A) (n : nat) :
  repeat x n ++ [x] = repeat x (S n).
Proof. induction n as [|n IH]; [reflexivity|]. cbn. now rewrite IH. Qed.

Lemma norm_not_lt_sq (v : point) (c : R) :
  0 <= c -> c * c <= fst v * fst v + snd v * snd v -> ~ norm v < c.
Proof.
  intros Hc Hle. unfold norm. rewrite <- (sqrt_square c Hc) at 1.
  apply Rle_not_lt. apply sqrt_le_1_alt. exact Hle.
Qed.

(** One more identical sample during the first 28 updates of a level, when
    the ball does not lie within the hole radius. *)
Lemma step_identical (p : point) (e : MiniGolfEngine) (k : tick) (m : nat) :
  t_ball k = Some p ->
  xlt (hole_distance e p) config.HOLE_RADIUS_CM = false ->
  (m <= 28)%nat ->
  _last_positions e = repeat p m ->
  _stopped_frame_count e = Z.max 0 (Z.of_nat m - 14) ->
  _max_history e = (config.BALL_STOPPED_FRAMES * 2)%Z ->
  _celebrating e = false ->
  game_over (state e) = false ->
  let e' := step e k in
  is_ball_moving (state e') = (Z.of_nat (S m) <? 29)%Z /\
  ((S m <= 28)%nat ->
   _last_positions e' = repeat p (S m) /\
   _stopped_frame_count e' = Z.max 0 (Z.of_nat (S m) - 14) /\
   _max_history e' = (config.BALL_STOPPED_FRAMES * 2)%Z /\
   _celebrating e' = false /\
   game_over (state e') = false /\
   hole_position (state e') = hole_position (state e)).
Proof.
  intros Hb Hhole Hm Hh Hc Hmax Hcel Hg e'. subst e'. unfold step. rewrite Hb.
  destruct (update_in_play e (t_now k) (t_later k) p Hg Hcel)
    as (e2 & Hh2 & Hc2 & Hupd).
  cbv zeta in Hupd. destruct Hupd as (Hmv & Hmax' & _ & Hplay).
  assert (Hpush : pushed_history e p = repeat p (S m)).
  { unfold pushed_history. cbv zeta. rewrite Hh, Hmax, repeat_snoc, repeat_length.
    unfold config.BALL_STOPPED_FRAMES.
    destruct (Z.ltb_spec (15 * 2) (Z.of_nat (S m))); [lia|reflexivity]. }
  rewrite Hpush in Hh2. rewrite Hc in Hc2.
  destruct (Z.ltb_spec (Z.of_nat (length (_last_positions e2)))
                       config.BALL_STOPPED_FRAMES) as [Hshort | Hlong].
  - rewrite (check_movement_short e2 Hshort) in *. cbn [fst snd] in *.
    rewrite Hh2, repeat_length in Hshort. unfold config.BALL_STOPPED_FRAMES in Hshort.
    split.
    + rewrite Hmv. symmetry. apply Z.ltb_lt. lia.
    + intros _. destruct (Hplay eq_refl Hhole) as (H1 & H2 & H3 & H4 & H5).
      rewrite H1, H2, Hh2, Hc2, Hmax', Hmax. repeat split; auto; lia.
  - pose proof (check_movement_long e2 Hlong) as Hcm. cbv zeta in Hcm.
    rewrite Hcm in *. cbn [fst snd] in *. clear Hcm.
    rewrite Hh2, repeat_length in Hlong. unfold config.BALL_STOPPED_FRAMES in Hlong.
    assert (Hslice : slice_from (- config.BALL_STOPPED_FRAMES) (_last_positions e2)
                     = repeat p 15).
    { rewrite Hh2. unfold slice_from, config.BALL_STOPPED_FRAMES. cbn [Z.opp Z.ltb Z.compare].
      rewrite skipn_repeat, repeat_length. f_equal. lia. }
    rewrite Hslice, max_displacement_repeat, Hc2 in *.
    replace (0 <? config.BALL_STOPPED_THRESHOLD_CM) with true in *
      by (symmetry; apply Rltb_true; unfold config.BALL_STOPPED_THRESHOLD_CM; lra).
    replace (Z.max 0 (Z.of_nat m - 14) + 1)%Z with (Z.of_nat (S m) - 14)%Z in * by lia.
    unfold config.BALL_STOPPED_FRAMES in Hmv, Hplay.
    split.
    + rewrite Hmv. destruct (Z.ltb_spec (Z.of_nat (S m) - 14) 15),
        (Z.ltb_spec (Z.of_nat (S m)) 29); try reflexivity; lia.
    + intros H28.
      assert (Htrue : (Z.of_nat (S m) - 14 <? 15)%Z = true) by (apply Z.ltb_lt; lia).
      destruct (Hplay Htrue Hhole) as (H1 & H2 & H3 & H4 & H5).
      rewrite H1, H2, Hmax', Hmax. cbn [_last_positions _stopped_frame_count set_stopped_frame_count].
      rewrite Hh2. repeat split; auto; lia.
Qed.

Lemma run_identical (p : point) (e0 : MiniGolfEngine) (ticks : list tick) :
  fresh_level e0 ->
  xlt (hole_distance e0 p) config.HOLE_RADIUS_CM = false ->
  Forall (fun k => t_ball k = Some p) ticks ->
  (length ticks <= 28)%nat ->
  let e := run ticks e0 in
  _last_positions e = repeat p (length ticks) /\
  _stopped_frame_count e = Z.max 0 (Z.of_nat (length ticks) - 14) /\
  _max_history e = (config.BALL_STOPPED_FRAMES * 2)%Z /\
  _celebrating e = false /\
  game_over (state e) = false /\
  hole_position (state e) = hole_position (state e0).
Proof.
  intros (Hh & Hc & Hmax & Hcel & Hg) Hhole.
  induction ticks as [|k ticks IH] using rev_ind; intros Hall Hlen.
  - cbn. rewrite Hh, Hc. repeat split; auto.
  - apply Forall_app in Hall. destruct Hall as [Hall Hk].
    inversion Hk as [|? ? Hb _]; subst.
    rewrite length_app in *. cbn [length] in *.
    replace (length ticks + 1)%nat with (S (length ticks)) in * by lia.
    destruct (IH Hall ltac:(lia)) as (H1 & H2 & H3 & H4 & H5 & H6).
    cbv zeta. rewrite run_app. change (run [k] ?x) with (step x k).
    assert (Hhole' : xlt (hole_distance (run ticks e0) p) config.HOLE_RADIUS_CM = false).
    { unfold hole_distance in *. rewrite H6. exact Hhole. }
    destruct (step_identical p (run ticks e0) k (length ticks)
                Hb Hhole' ltac:(lia) H1 H2 H3 H4 H5) as (_ & Hnext).
    destruct (Hnext Hlen) as (N1 & N2 & N3 & N4 & N5 & N6).
    rewrite N6, H6. repeat split; auto.
Qed.

(** C1, as the code has it: with identical positions from a fresh level the
    motion flag is true after each of the first 28 updates (so after each
    of the first 20), and false after the 29th unless the ball lies within
    the hole radius: the stillness counter starts counting once 15 samples
    are stored and has to reach 15 itself. *)
Theorem motion_hysteresis_identical
    (e : MiniGolfEngine) (p : point) (ticks : list tick) :
  fresh_level e ->
  Forall (fun k => t_ball k = Some p) ticks ->
  ((1 <= length ticks <= 28)%nat ->
   is_ball_moving (state (run ticks e)) = true) /\
  (length ticks = 29%nat ->
   xlt (hole_distance e p) config.HOLE_RADIUS_CM = false ->
   is_ball_moving (state (run ticks e)) = false).
Proof.
  intros Hfresh Hall. split.
  - intros [Hlo Hhi]. apply fresh_level_moving; auto.
    + eapply Forall_impl; [|exact Hall]. cbn. intros k ->. discriminate.
    + intros ->. cbn in Hlo. lia.
  - intros Hlen Hhole.
    destruct (exists_last (l := ticks)) as (front & k & ->).
    { intros ->. discriminate. }
    apply Forall_app in Hall. destruct Hall as [Hfront Hk].
    inversion Hk as [|? ? Hb _]; subst.
    rewrite length_app in Hlen. cbn [length] in Hlen.
    assert (Hf28 : length front = 28%nat) by lia.
    destruct (run_identical p e front Hfresh Hhole Hfront ltac:(lia))
      as (H1 & H2 & H3 & H4 & H5 & H6).
    rewrite run_app. change (run [k] ?x) with (step x k).
    assert (Hhole' : xlt (hole_distance (run front e) p) config.HOLE_RADIUS_CM = false).
    { unfold hole_distance in *. rewrite H6. exact Hhole. }
    destruct (step_identical p (run front e) k (length front)
                Hb Hhole' ltac:(lia) H1 H2 H3 H4 H5) as (Hmv & _).
    rewrite Hmv, Hf28. reflexivity.
Qed.

Lemma start_game_fresh (now : R) : fresh_level (start_game now MiniGolfEngine_init).
Proof. repeat split; reflexivity. Qed.

Lemma Forall_repeat {A : Type} (P : A -> Prop) (x : A) (n : nat) :
  P x -> Forall P (repeat x n).
Proof. intros Hx. induction n; cbn; auto. Qed.

Lemma motion_hysteresis_identical_witness :
  let e := start_game 0 MiniGolfEngine_init in
  let k := mkTick 0 0 (Some (30, 30)) in
  is_ball_moving (state (run (repeat k 20) e)) = true /\
  is_ball_moving (state (run (repeat k 29) e)) = false.
Proof.
  intros e k. split.
  - apply (proj1 (motion_hysteresis_identical e (30, 30) (repeat k 20)
                    (start_game_fresh 0) (Forall_repeat _ k 20 eq_refl))).
    rewrite repeat_length. lia.
  - apply (proj2 (motion_hysteresis_identical e (30, 30) (repeat k 29)
                    (start_game_fresh 0) (Forall_repeat _ k 29 eq_refl))).
    + apply repeat_length.
    + apply Rltb_false. apply norm_not_lt_sq.
      * unfold config.HOLE_RADIUS_CM. lra.
      * unfold config.HOLE_RADIUS_CM. cbn. lra.
Defined.

(** C1 as stated fails: a game just started receives the position (30, 30)
    again and again; after the 15th update, and still after the 20th, the
    motion flag is true. *)
Lemma still_moving_after_15_identical :
  let e := start_game 0 MiniGolfEngine_init in
  let k := mkTick 0 0 (Some (30, 30)) in
  is_ball_moving (state (run (repeat k 15) e)) = true /\
  is_ball_moving (state (run (repeat k 20) e)) = true.
Proof.
  intros e k.
  split; apply fresh_level_moving;
    try apply start_game_fresh;
    try (apply Forall_repeat; discriminate);
    try (rewrite repeat_length; lia);
    discriminate.
Qed.

(** ** Losing the track *)

Import tracking.

Lemma int_of_IZR (z : Z) : int_of (IZR z) = z.
Proof.
  unfold int_of. destruct (0 <=? IZR z) eqn:E.
  - symmetry. apply Int_part_spec. lra.
  - assert (H : (- z)%Z = Int_part (- IZR z)).
    { apply Int_part_spec. rewrite opp_IZR. lra. }
    rewrite <- H. lia.
Qed.

(** [int_of] drops the fractional part, towards zero. *)
Lemma int_of_truncates (x : R) :
  (0 <= x -> IZR (int_of x) <= x < IZR (int_of x) + 1) /\
  (x < 0 -> IZR (int_of x) - 1 < x <= IZR (int_of x)).
Proof.
  unfold int_of. split; intros Hx.
  - replace (0 <=? x) with true by (symmetry; apply Rleb_true; exact Hx).
    destruct (base_Int_part x). lra.
  - replace (0 <=? x) with false by (symmetry; apply Rleb_false; lra).
    destruct (base_Int_part (- x)). rewrite opp_IZR. lra.
Qed.

Lemma int_of_eq (x : R) (z : Z) : x = IZR z -> int_of x = z.
Proof. intros ->. apply int_of_IZR. Qed.

Lemma set_lost_counter_twice (a b : Z) (t : ColorTracker) :
  set_lost_counter a (set_lost_counter b t) = set_lost_counter a t.
Proof. reflexivity. Qed.

Lemma no_matching_contour_counter (v : Z) (t : ColorTracker) (f : frame) :
  no_matching_contour t f -> no_matching_contour (set_lost_counter v t) f.
Proof. destruct t. exact (fun H => H). Qed.

(** An update on a frame without a matching contour counts one more lost
    frame, changes nothing else, and coasts while the counter has not
    passed the ceiling. *)
Lemma update_no_match (t : ColorTracker) (f : frame) (pos : point) (radius0 : R) :
  _initialized t = true ->
  last_position t = Some pos ->
  last_radius t = Some radius0 ->
  no_matching_contour t f ->
  fst (update f t) = set_lost_counter (_lost_counter t + 1) t /\
  ((_lost_counter t + 1 <= _max_lost_frames t)%Z ->
   snd (update f t) = Ret (Some (int_of (fst pos), int_of (snd pos), int_of radius0))).
Proof.
  intros Hi Hp Hr Hno. unfold no_matching_contour in Hno. unfold update.
  rewrite Hi, Hp, Hr in *. cbn [negb].
  destruct (search_window t pos radius0 f) as [margin [[[x1 y1] x2] y2]].
  destruct Hno as (Hx & Hy & Hbest).
  destruct (Z.ltb_spec (x2 - x1) 10); [lia|].
  destruct (Z.ltb_spec (y2 - y1) 10); [lia|]. cbn [orb].
  destruct (findContours f (x1, y1, x2, y2) (hsv_lower t) (hsv_upper t)) as [|cnt rest].
  - cbn [_lost_counter _max_lost_frames set_lost_counter].
    destruct (Z.leb_spec (_lost_counter t + 1) (_max_lost_frames t)); cbn; split; auto; lia.
  - rewrite Hbest. cbn. auto.
Qed.

Lemma updates_no_match (pos : point) (radius0 : R) (frames : list frame) :
  forall t : ColorTracker,
    _initialized t = true ->
    last_position t = Some pos ->
    last_radius t = Some radius0 ->
    Forall (no_matching_contour t) frames ->
    fst (updates frames t)
      = set_lost_counter (_lost_counter t + Z.of_nat (length frames)) t /\
    length (snd (updates frames t)) = length frames /\
    ((_lost_counter t + Z.of_nat (length frames) <= _max_lost_frames t)%Z ->
     Forall (eq (Ret (Some (int_of (fst pos), int_of (snd pos), int_of radius0))))
            (snd (updates frames t))).
Proof.
  induction frames as [|f frames IH]; intros t Hi Hp Hr Hall.
  - cbn. rewrite Z.add_0_r. destruct t; cbn; auto.
  - inversion Hall as [|? ? Hf Hrest]; subst.
    destruct (update_no_match t f pos radius0 Hi Hp Hr Hf) as (Ht1 & Hcoast).
    cbn [updates]. destruct (update f t) as [t1 r]. cbn [fst snd] in Ht1, Hcoast.
    subst t1.
    specialize (IH (set_lost_counter (_lost_counter t + 1) t) Hi Hp Hr).
    destruct IH as (IH1 & IH2 & IH3).
    { eapply Forall_impl; [|exact Hrest]. intros a. apply no_matching_contour_counter. }
    destruct (updates frames (set_lost_counter (_lost_counter t + 1) t)) as [t2 rs].
    cbn [fst snd length _lost_counter _max_lost_frames set_lost_counter] in *.
    rewrite IH1, IH2, set_lost_counter_twice.
    split; [f_equal; lia|]. split; [reflexivity|].
    intros Hle. constructor.
    + symmetry. apply Hcoast. lia.
    + apply IH3. lia.
Qed.

(** C3: a tracker initialised at (cx, cy) with radius [radius] sees 31
    frames without a matching contour in its search window.  After the
    first 30 it is not lost, and each of those 30 updates returned the
    last known position and radius (as integers); after the 31st it is
    lost.  The tracker is lost exactly when the counter exceeds 30. *)
Theorem tracking_lost_after_31
    (t0 : ColorTracker) (cx cy radius : R) (frames : list frame) :
  _max_lost_frames t0 = 30%Z ->
  length frames = 31%nat ->
  let t := initialize cx cy radius t0 in
  Forall (no_matching_contour t) frames ->
  let t30 := fst (updates (firstn 30 frames) t) in
  let t31 := fst (updates frames t) in
  _lost_counter t30 = 30%Z /\ is_lost t30 = false /\
  _lost_counter t31 = 31%Z /\ is_lost t31 = true /\
  length (snd (updates (firstn 30 frames) t)) = 30%nat /\
  Forall (eq (Ret (Some (int_of cx, int_of cy, int_of radius))))
         (snd (updates (firstn 30 frames) t)) /\
  forall t' : ColorTracker,
    _max_lost_frames t' = 30%Z -> (is_lost t' = true <-> (30 < _lost_counter t')%Z).
Proof.
  intros Hmax Hlen t Hall t30 t31.
  assert (Hall30 : Forall (no_matching_contour t) (firstn 30 frames)).
  { apply Forall_forall. intros f Hf.
    rewrite Forall_forall in Hall. apply Hall.
    rewrite <- (firstn_skipn 30 frames). apply in_or_app. now left. }
  assert (Hlen30 : length (firstn 30 frames) = 30%nat).
  { rewrite length_firstn. lia. }
  destruct (updates_no_match (cx, cy) radius (firstn 30 frames) t
              eq_refl eq_refl eq_refl Hall30) as (A1 & A2 & A3).
  destruct (updates_no_match (cx, cy) radius frames t
              eq_refl eq_refl eq_refl Hall) as (B1 & _ & _).
  subst t30 t31. rewrite A1, B1, A2, Hlen30, Hlen.
  unfold is_lost. subst t.
  cbn [_lost_counter _max_lost_frames set_lost_counter initialize].
  rewrite Hmax.
  split; [reflexivity|]. split; [reflexivity|].
  split; [reflexivity|]. split; [reflexivity|].
  split; [reflexivity|]. split.
  - apply A3. rewrite Hlen30. cbn. rewrite Hmax. lia.
  - intros t' Ht'. rewrite Ht'. apply Z.ltb_lt.
Qed.

Lemma tracking_lost_after_31_witness :
  let f := mkFrame 480 640 (fun _ _ _ => []) in
  let frames := repeat f 31 in
  let t := initialize 320 240 20 ColorTracker_init in
  let t30 := fst (updates (firstn 30 frames) t) in
  let t31 := fst (updates frames t) in
  _lost_counter t30 = 30%Z /\ is_lost t30 = false /\
  _lost_counter t31 = 31%Z /\ is_lost t31 = true /\
  length (snd (updates (firstn 30 frames) t)) = 30%nat /\
  Forall (eq (Ret (Some (int_of 320, int_of 240, int_of 20))))
         (snd (updates (firstn 30 frames) t)) /\
  forall t' : ColorTracker,
    _max_lost_frames t' = 30%Z -> (is_lost t' = true <-> (30 < _lost_counter t')%Z).
Proof.
  intros f frames.
  apply (tracking_lost_after_31 ColorTracker_init 320 240 20 frames).
  - reflexivity.
  - reflexivity.
  - apply Forall_repeat.
    unfold no_matching_contour, search_window, initialize, f.
    cbn [last_position last_radius _velocity search_margin ColorTracker_init
         frame_w frame_h fst snd findContours].
    rewrite (int_of_eq (20 * 2) 40) by lra.
    change (config.TRACKING_SEARCH_MARGIN + 40)%Z with 120%Z.
    rewrite (int_of_eq (320 + 0 - 120) 200) by lra.
    rewrite (int_of_eq (240 + 0 - 120) 120) by lra.
    rewrite (int_of_eq (320 + 0 + 120) 440) by lra.
    rewrite (int_of_eq (240 + 0 + 120) 360) by lra.
    cbn. repeat split; lia.
Defined.

(** A search window narrower or lower than 10 pixels is the other way to
    lose a frame: the counter goes up as well, but the call returns [None]
    at once. *)
Lemma update_degenerate_window (t : ColorTracker) (f : frame)
    (pos : point) (radius0 : R) :
  _initialized t = true ->
  last_position t = Some pos ->
  last_radius t = Some radius0 ->
  (let '(_, (x1, y1, x2, y2)) := search_window t pos radius0 f in
   (x2 - x1 < 10)%Z \/ (y2 - y1 < 10)%Z) ->
  update f t = (set_lost_counter (_lost_counter t + 1) t, Ret None).
Proof.
  intros Hi Hp Hr Hw. unfold update. rewrite Hi, Hp, Hr. cbn [negb].
  destruct (search_window t pos radius0 f) as [margin [[[x1 y1] x2] y2]].
  destruct (Z.ltb_spec (x2 - x1) 10); [reflexivity|].
  destruct (Z.ltb_spec (y2 - y1) 10); [reflexivity|]. lia.
Qed.

(** * Further properties of the code *)

(** ** Obstacles *)

(** X1: [check_obstacle_collision] reports the first obstacle of the list
    that the ball overlaps, and reports no collision exactly when the ball
    overlaps none. *)
Theorem check_obstacle_collision_first
    (ball_pos : point) (e : game_engine.MiniGolfEngine) :
  match game_engine.check_obstacle_collision ball_pos e with
  | (true, Some o) =>
    exists before after,
      game_engine.obstacles (game_engine.state e) = before ++ o :: after /\
      collides ball_pos o /\
      Forall (fun o' => ~ collides ball_pos o') before
  | (false, None) =>
    Forall (fun o => ~ collides ball_pos o)
           (game_engine.obstacles (game_engine.state e))
  | _ => False
  end.
Proof.
  unfold game_engine.check_obstacle_collision.
  induction (game_engine.obstacles (game_engine.state e)) as [|o obs IH].
  - cbn. constructor.
  - destruct o as [[ox oy] orad]. cbn [game_engine.obstacle_loop].
    destruct (norm (vsub ball_pos (ox, oy)) <? orad + config.BALL_REAL_RADIUS_CM) eqn:E.
    + apply Rltb_true in E. exists [], obs. cbn. auto.
    + apply Rltb_false in E.
      destruct (game_engine.obstacle_loop ball_pos obs) as [[|] [o'|]]; try contradiction.
      * destruct IH as (before & after & -> & Hc & Hb).
        exists ((ox, oy, orad) :: before), after. cbn. repeat split; auto.
      * constructor; auto.
Qed.

(** ** The score board *)

Lemma advance_level_fields (now : R) (e : MiniGolfEngine) :
  let e' := _advance_level now e in
  let over := (Z.of_nat (length config.HOLE_POSITIONS) <? level (state e) + 1)%Z in
  level (state e') = (level (state e) + 1)%Z /\
  putts (state e') = 0%Z /\
  total_score (state e') = total_score (state e) /\
  is_hole_in (state e') = false /\
  _celebrating e' = _celebrating e /\
  game_over (state e') = (if over then true else game_over (state e)) /\
  hole_position (state e')
  = (if over then hole_position (state e)
     else nth_error config.HOLE_POSITIONS
            (Z.to_nat ((level (state e) + 1 - 1)
                       mod Z.of_nat (length config.HOLE_POSITIONS)))).
Proof.
  unfold _advance_level. cbn.
  destruct (5 <? level (state e) + 1)%Z; cbn; repeat split; reflexivity.
Qed.

(** X2: how an update with a located ball moves the score board of a game
    in play.  A stroke is counted exactly on a change from moving to not
    moving; a hole-in raises a count of 0 to 1 and adds the count to the
    total; otherwise a stopped ball with the maximum of strokes ends the
    level without score; in every other case level, total and hole stay
    and the count is the old one plus the stroke just counted. *)
Theorem update_scoreboard
    (e : MiniGolfEngine) (now later : R) (pos : point) :
  game_over (state e) = false ->
  _celebrating e = false ->
  let e' := game_engine.update now later (Some pos) e in
  let s := state e in
  let s' := state e' in
  let moving := is_ball_moving s' in
  let strokes :=
    (putts s + if is_ball_moving s && negb moving then 1 else 0)%Z in
  let hole_in :=
    xlt (hole_distance e pos) config.HOLE_IN_TOLERANCE_CM
    && (negb moving || xlt (hole_distance e pos) config.HOLE_RADIUS_CM) in
  if hole_in then
    _celebrating e' = true /\ is_hole_in s' = true /\
    putts s' = (if (strokes =? 0)%Z then 1%Z else strokes) /\
    total_score s' = (total_score s + putts s')%Z /\
    level s' = level s /\ game_over s' = false /\
    hole_position s' = hole_position s
  else if moving || (strokes =? 0)%Z
          || negb (config.MAX_PUTTS_PER_HOLE <=? strokes)%Z then
    _celebrating e' = false /\ is_hole_in s' = is_hole_in s /\
    putts s' = strokes /\
    total_score s' = total_score s /\
    level s' = level s /\ game_over s' = false /\
    hole_position s' = hole_position s
  else
    _celebrating e' = false /\ is_hole_in s' = false /\
    putts s' = 0%Z /\
    total_score s' = total_score s /\
    level s' = (level s + 1)%Z /\
    game_over s'
    = (Z.of_nat (length config.HOLE_POSITIONS) <? level s + 1)%Z /\
    hole_position s'
    = (if (Z.of_nat (length config.HOLE_POSITIONS) <? level s + 1)%Z
       then hole_position s
       else nth_error config.HOLE_POSITIONS
              (Z.to_nat ((level s + 1 - 1)
                         mod Z.of_nat (length config.HOLE_POSITIONS)))).
Proof.
  intros Hg Hc. cbv zeta. unfold game_engine.update. rewrite Hg, Hc.
  set (e1 := if (_max_history _ <? _)%Z then _ else _).
  assert (Hs1 : state e1 = set_ball_world_pos (Some pos) (state e)
                /\ _celebrating e1 = false).
  { subst e1. destruct (_ <? _)%Z; cbn; auto. }
  destruct Hs1 as (Hs1 & Hc1).
  replace (hole_position (state e1)) with (hole_position (state e))
    by (rewrite Hs1; reflexivity).
  set (e2 := match hole_position (state e) with
             | Some hole => on_state (set_distance_to_hole
                                        (Fin (norm (vsub pos hole)))) e1
             | None => e1 end).
  replace (match hole_position (state e) with
           | Some hole =>
             (on_state (set_distance_to_hole (Fin (norm (vsub pos hole)))) e1,
              Fin (norm (vsub pos hole)))
           | None => (e1, Inf) end) with (e2, hole_distance e pos)
    by (subst e2; unfold hole_distance; destruct (hole_position (state e)); reflexivity).
  assert (Hs2 : level (state e2) = level (state e)
                /\ putts (state e2) = putts (state e)
                /\ total_score (state e2) = total_score (state e)
                /\ hole_position (state e2) = hole_position (state e)
                /\ is_ball_moving (state e2) = is_ball_moving (state e)
                /\ is_hole_in (state e2) = is_hole_in (state e)
                /\ game_over (state e2) = false
                /\ _celebrating e2 = false).
  { subst e2. destruct (hole_position (state e)) eqn:Eh; cbn; rewrite ?Hs1; cbn;
      repeat split; auto. }
  destruct Hs2 as (Hl2 & Hp2 & Ht2 & Hh2 & Hm2 & Hi2 & Hg2 & Hc2).
  pose proof (check_movement_frame e2) as Hcm.
  destruct (_check_movement e2) as [e3 mv]. cbn [fst] in Hcm.
  destruct Hcm as (Hs3 & _ & _ & _ & _ & Hc3 & _).
  destruct e3 as [s3 c3 h3 m3 lt3 ht3 cel3 dur3]. cbn in Hs3, Hc3. subst s3 cel3.
  cbn [state _celebrating].
  rewrite ?Hc2, ?Hm2.
  destruct (state e2) as [lv pt ts st bw bi hp ob mvg hin go dh] eqn:Es2.
  cbn in Hl2, Hp2, Ht2, Hh2, Hm2, Hi2, Hg2. subst lv pt ts hp mvg hin go.
  unfold config.MAX_PUTTS_PER_HOLE.
  destruct (is_ball_moving (state e)), mv,
    (xlt (hole_distance e pos) config.HOLE_IN_TOLERANCE_CM),
    (xlt (hole_distance e pos) config.HOLE_RADIUS_CM);
    cbn;
    repeat match goal with
    | |- context [(putts (state e) + 1 =? 0)%Z] =>
        destruct (Z.eqb_spec (putts (state e) + 1) 0); cbn
    | |- context [(putts (state e) + 0 =? 0)%Z] =>
        destruct (Z.eqb_spec (putts (state e) + 0) 0); cbn
    | |- context [(putts (state e) =? 0)%Z] =>
        destruct (Z.eqb_spec (putts (state e)) 0); cbn
    | |- context [(10 <=? putts (state e) + 1)%Z] =>
        destruct (Z.leb_spec 10 (putts (state e) + 1)); cbn
    | |- context [(10 <=? putts (state e) + 0)%Z] =>
        destruct (Z.leb_spec 10 (putts (state e) + 0)); cbn
    | |- context [(10 <=? putts (state e))%Z] =>
        destruct (Z.leb_spec 10 (putts (state e))); cbn
    | |- context [is_ball_moving (state (_advance_level ?t ?x))] =>
        rewrite (proj1 (advance_level_frame t x)); cbn
    end;
    try (unfold _advance_level; cbn;
         destruct (5 <? level (state e) + 1)%Z; cbn);
    repeat split; try reflexivity; try lia; try (exfalso; lia).
Qed.

Lemma update_scoreboard_witness :
  let e := start_game 0 MiniGolfEngine_init in
  let e' := game_engine.update 0 0 (Some (46, 19)) e in
  _celebrating e' = true /\
  putts (state e') = 1%Z /\
  total_score (state e') = 1%Z /\
  level (state e') = 1%Z.
Proof.
  intros e.
  assert (Hhole : hole_distance e (46, 19) = Fin (norm (vsub (46, 19) (45, 20))))
    by reflexivity.
  assert (Hm : is_ball_moving (state e) = false) by reflexivity.
  assert (Hp : putts (state e) = 0%Z) by reflexivity.
  assert (Ht : total_score (state e) = 0%Z) by reflexivity.
  assert (Hl : level (state e) = 1%Z) by reflexivity.
  assert (Hr := update_scoreboard e 0 0 (46, 19) eq_refl eq_refl).
  cbv zeta in Hr. clearbody e. intros e'; subst e'.
  rewrite Hhole, Hm, Hp, Ht, Hl in Hr.
  assert (Hn : forall c, 2 <= c -> xlt (Fin (norm (vsub (46, 19) (45, 20)))) c = true).
  { intros c Hc. apply Rltb_true. apply norm_lt_sq; [lra|]. cbn. nra. }
  rewrite !Hn in Hr by (unfold config.HOLE_IN_TOLERANCE_CM, config.HOLE_RADIUS_CM; lra).
  rewrite orb_true_r in Hr. cbn in Hr.
  destruct Hr as (H1 & _ & H3 & H4 & H5 & _).
  rewrite H3 in H4. auto.
Defined.

Lemma scoreboard_ok_start (now : R) (e : MiniGolfEngine) :
  scoreboard_ok (start_game now e).
Proof.
  unfold scoreboard_ok, start_game. cbn.
  repeat split; intros; try discriminate; try lia; try reflexivity.
Qed.

Lemma scoreboard_ok_update (now later : R) (b : option point) (e : MiniGolfEngine) :
  scoreboard_ok e -> scoreboard_ok (game_engine.update now later b e).
Proof.
  intros Hok.
  destruct (game_over (state e)) eqn:Hg.
  { now rewrite (update_game_over _ _ _ _ Hg). }
  destruct (_celebrating e) eqn:Hc.
  { unfold game_engine.update. rewrite Hg, Hc.
    destruct (_celebration_duration e <? now - _hole_in_time e).
    - pose proof (advance_level_fields later (set_celebrating false e)) as Hf.
      cbv zeta in Hf. cbn [state set_celebrating _celebrating] in Hf.
      destruct Hf as (F1 & F2 & F3 & F4 & F5 & F6 & F7).
      unfold scoreboard_ok in *. cbv zeta in *.
      rewrite F1, F2, F3, F5, F6, F7, Hg, Hc in *.
      unfold config.MAX_PUTTS_PER_HOLE in *. cbn [length config.HOLE_POSITIONS Z.of_nat Pos.of_succ_nat Pos.succ] in *.
      destruct Hok as (O1 & O2 & O3 & O4 & O5 & O6 & O7).
      destruct (O6 eq_refl) as (O6a & _).
      assert (Hlv : level (state e) <> 6%Z) by (intros E; apply O2 in E; discriminate).
      destruct (Z.ltb_spec 5 (level (state e) + 1)).
      + repeat split; intros; try discriminate; try lia.
        rewrite O3. f_equal. lia.
      + repeat split; intros; try discriminate; try lia.
        replace (level (state e) + 1 - 1)%Z with (level (state e)) by lia.
        rewrite Z.mod_small by lia. f_equal. lia.
    - unfold scoreboard_ok in *. cbn. rewrite Hc, Hg in *. exact Hok. }
  destruct b as [pos|].
  2:{ unfold game_engine.update. rewrite Hg, Hc.
      unfold scoreboard_ok in *. cbn. rewrite Hc, Hg in *. exact Hok. }
  pose proof (update_scoreboard e now later pos Hg Hc) as Hu. cbv zeta in Hu.
  unfold scoreboard_ok in *. cbv zeta in *.
  set (e' := game_engine.update now later (Some pos) e) in *.
  rewrite Hg, Hc in Hok.
  unfold config.MAX_PUTTS_PER_HOLE in *.
  cbn [length config.HOLE_POSITIONS Z.of_nat Pos.of_succ_nat Pos.succ] in *.
  destruct Hok as (O1 & O2 & O3 & O4 & O5 & O6 & O7).
  specialize (O5 eq_refl).
  assert (Hlv : level (state e) <> 6%Z) by (intros E; apply O2 in E; discriminate).
  destruct (_ && _) in Hu.
  - destruct Hu as (U1 & U2 & U3 & U4 & U5 & U6 & U7).
    rewrite U1, U4, U5, U6, U7, U3.
    destruct (is_ball_moving (state e) && negb (is_ball_moving (state e'))).
    + destruct (Z.eqb_spec (putts (state e) + 1) 0);
        repeat split; intros; try discriminate; try lia; auto.
    + destruct (Z.eqb_spec (putts (state e) + 0) 0);
        repeat split; intros; try discriminate; try lia; auto.
  - destruct (_ || _) eqn:Emid in Hu.
    + destruct Hu as (U1 & U2 & U3 & U4 & U5 & U6 & U7).
      rewrite U1, U4, U5, U6, U7, U3.
      assert (Hs : (putts (state e)
                    + (if is_ball_moving (state e)
                          && negb (is_ball_moving (state e'))
                       then 1 else 0) <= 9)%Z).
      { destruct (is_ball_moving (state e) && negb (is_ball_moving (state e'))) eqn:Et;
          [|lia].
        apply andb_true_iff in Et. destruct Et as [_ Et].
        apply negb_true_iff in Et. rewrite Et in Emid. cbn [orb] in Emid.
        apply orb_true_iff in Emid. destruct Emid as [Ez | Em].
        - apply Z.eqb_eq in Ez. lia.
        - apply negb_true_iff, Z.leb_gt in Em. lia. }
      destruct (is_ball_moving (state e) && negb (is_ball_moving (state e')));
        repeat split; intros; try discriminate; try lia; auto.
    + destruct Hu as (U1 & U2 & U3 & U4 & U5 & U6 & U7).
      rewrite U1, U4, U5, U6, U7, U3.
      destruct (Z.ltb_spec 5 (level (state e) + 1)).
      * repeat split; intros; try discriminate; try lia.
        rewrite O3. f_equal. lia.
      * repeat split; intros; try discriminate; try lia.
        replace (level (state e) + 1 - 1)%Z with (level (state e)) by lia.
        rewrite Z.mod_small by lia. f_equal. lia.
Qed.

Lemma scoreboard_ok_run (ticks : list tick) (e : MiniGolfEngine) :
  scoreboard_ok e -> scoreboard_ok (run ticks e).
Proof.
  revert e. induction ticks as [|k ticks IH]; intros e Hok; [exact Hok|].
  change (run (k :: ticks) e) with (run ticks (step e k)).
  apply IH. unfold step. now apply scoreboard_ok_update.
Qed.

(** X3: in every state reached from [start_game] by updates, the stroke
    count lies between 0 and [MAX_PUTTS_PER_HOLE], reaches the maximum only
    during a celebration, and is at least 1 then. *)
Theorem strokes_bounded (now : R) (e0 : MiniGolfEngine) (ticks : list tick) :
  let e := run ticks (start_game now e0) in
  (0 <= putts (state e) <= config.MAX_PUTTS_PER_HOLE)%Z /\
  (_celebrating e = false -> (putts (state e) < config.MAX_PUTTS_PER_HOLE)%Z) /\
  (_celebrating e = true -> (1 <= putts (state e))%Z).
Proof.
  intros e.
  destruct (scoreboard_ok_run ticks _ (scoreboard_ok_start now e0))
    as (_ & _ & _ & O4 & O5 & O6 & _).
  fold e in O4, O5, O6. unfold config.MAX_PUTTS_PER_HOLE in *.
  destruct (_celebrating e).
  - destruct (O6 eq_refl) as ((? & ?) & _). repeat split; intros; try discriminate; lia.
  - specialize (O5 eq_refl). repeat split; intros; try discriminate; lia.
Qed.

(** X4: in every state reached from [start_game] by updates, the level
    is between 1 and one more than the number of holes, the game is over
    exactly at that last value, and the hole is the entry of
    [HOLE_POSITIONS] for the level (the last entry once the game is over). *)
Theorem level_and_hole_consistent
    (now : R) (e0 : MiniGolfEngine) (ticks : list tick) :
  let e := run ticks (start_game now e0) in
  let holes := Z.of_nat (length config.HOLE_POSITIONS) in
  (1 <= level (state e) <= holes + 1)%Z /\
  (game_over (state e) = true <-> level (state e) = (holes + 1)%Z) /\
  hole_position (state e)
  = nth_error config.HOLE_POSITIONS
      (Z.to_nat (Z.min (level (state e)) holes - 1)).
Proof.
  intros e holes.
  destruct (scoreboard_ok_run ticks _ (scoreboard_ok_start now e0))
    as (O1 & O2 & O3 & _).
  fold e in O1, O2, O3. auto.
Qed.

(** X5: in every state reached from [start_game] by updates, the total
    score is at least 0 and at most [MAX_PUTTS_PER_HOLE] per hole played,
    hence never more than [MAX_PUTTS_PER_HOLE] times the number of holes. *)
Theorem total_score_bounded
    (now : R) (e0 : MiniGolfEngine) (ticks : list tick) :
  let e := run ticks (start_game now e0) in
  (0 <= total_score (state e)
     <= config.MAX_PUTTS_PER_HOLE * (level (state e) - 1)
        + (if _celebrating e then config.MAX_PUTTS_PER_HOLE else 0))%Z /\
  (total_score (state e)
     <= config.MAX_PUTTS_PER_HOLE * Z.of_nat (length config.HOLE_POSITIONS))%Z.
Proof.
  intros e.
  destruct (scoreboard_ok_run ticks _ (scoreboard_ok_start now e0))
    as (O1 & O2 & _ & _ & _ & O6 & O7).
  fold e in O1, O2, O6, O7. split; [exact O7|].
  unfold config.MAX_PUTTS_PER_HOLE in *.
  cbn [length config.HOLE_POSITIONS Z.of_nat Pos.of_succ_nat Pos.succ] in *.
  destruct (_celebrating e).
  - destruct (O6 eq_refl) as (_ & Hg).
    assert (level (state e) <> 6%Z) by (intros E; apply O2 in E; congruence).
    lia.
  - lia.
Qed.

(** X6: from any state reached from [start_game] by updates, one more
    update never lowers the total score and raises it by at most
    [MAX_PUTTS_PER_HOLE]; it raises it only by starting a celebration. *)
Theorem total_score_monotone
    (now : R) (e0 : MiniGolfEngine) (ticks : list tick) (k : tick) :
  let e := run ticks (start_game now e0) in
  let e' := step e k in
  (total_score (state e) <= total_score (state e')
     <= total_score (state e) + config.MAX_PUTTS_PER_HOLE)%Z /\
  (total_score (state e') <> total_score (state e) ->
   _celebrating e = false /\ _celebrating e' = true).
Proof.
  intros e e'.
  pose proof (scoreboard_ok_run ticks _ (scoreboard_ok_start now e0)) as Hok.
  fold e in Hok. subst e'. unfold step.
  unfold config.MAX_PUTTS_PER_HOLE.
  destruct (game_over (state e)) eqn:Hg.
  { rewrite (update_game_over _ _ _ _ Hg). split; [lia|]. intros Hne. now elim Hne. }
  destruct (_celebrating e) eqn:Hc.
  { unfold game_engine.update. rewrite Hg, Hc.
    destruct (_celebration_duration e <? t_now k - _hole_in_time e).
    - pose proof (advance_level_fields (t_later k) (set_celebrating false e)) as Hf.
      cbv zeta in Hf. destruct Hf as (_ & _ & F3 & _). rewrite F3. cbn.
      split; [lia|]. intros Hne. now elim Hne.
    - cbn. split; [lia|]. intros Hne. now elim Hne. }
  destruct (t_ball k) as [pos|].
  2:{ unfold game_engine.update. rewrite Hg, Hc. cbn.
      split; [lia|]. intros Hne. now elim Hne. }
  pose proof (update_scoreboard e (t_now k) (t_later k) pos Hg Hc) as Hu.
  cbv zeta in Hu.
  pose proof (scoreboard_ok_update (t_now k) (t_later k) (Some pos) e Hok) as Hok'.
  set (e' := game_engine.update (t_now k) (t_later k) (Some pos) e) in *.
  destruct (_ && _) in Hu.
  - destruct Hu as (U1 & _ & _ & U4 & _).
    destruct Hok' as (_ & _ & _ & _ & _ & P6 & _).
    destruct (P6 U1) as (Hp & _). unfold config.MAX_PUTTS_PER_HOLE in Hp.
    rewrite U4. split; [lia|]. auto.
  - destruct (_ || _) in Hu; destruct Hu as (_ & _ & _ & U4 & _);
      rewrite U4; (split; [lia|]); intros Hne; now elim Hne.
Qed.

(** ** The motion test *)

Lemma py_max_lt (a b t : R) : py_max a b < t <-> a < t /\ b < t.
Proof.
  unfold py_max. destruct (a <? b) eqn:E.
  - apply Rltb_true in E. split; [intros; split; lra | tauto].
  - apply Rltb_false in E. split; [intros; split; lra | tauto].
Qed.

Lemma displacement_loop_lt (t : R) (rest : list point) :
  forall (acc : R) (prev : point),
    displacement_loop acc prev rest < t
    <-> acc < t /\ Forall (fun d => d < t) (steps_from prev rest).
Proof.
  induction rest as [|p tl IH]; intros acc prev; cbn [displacement_loop steps_from].
  - split; [intros; split; auto | tauto].
  - rewrite IH, py_max_lt. split.
    + intros ((Ha & Hd) & Hall). split; [exact Ha|]. constructor; assumption.
    + intros (Ha & Hall). inversion Hall; subst. tauto.
Qed.

(** [max_displacement] is below a bound exactly when every step between
    consecutive samples is (and the bound is positive). *)
Lemma max_displacement_lt (t : R) (positions : list point) :
  max_displacement positions < t
  <-> 0 < t /\ Forall (fun d => d < t) (steps positions).
Proof.
  destruct positions as [|p0 tl]; cbn [max_displacement steps].
  - split; [intros; split; auto | tauto].
  - apply displacement_loop_lt.
Qed.

(** X7: an update of a game in play reports the ball as not moving only
    if the history then holds at least 15 samples, each step between
    consecutive samples among the last 15 is below the threshold 0.8, and
    the stillness counter had already reached 14. *)
Theorem stopped_requires_stillness
    (e : MiniGolfEngine) (now later : R) (pos : point) :
  game_over (state e) = false ->
  _celebrating e = false ->
  is_ball_moving (state (game_engine.update now later (Some pos) e)) = false ->
  let history := pushed_history e pos in
  (config.BALL_STOPPED_FRAMES <= Z.of_nat (length history))%Z /\
  Forall (fun d => d < config.BALL_STOPPED_THRESHOLD_CM)
         (steps (slice_from (- config.BALL_STOPPED_FRAMES) history)) /\
  (config.BALL_STOPPED_FRAMES - 1 <= _stopped_frame_count e)%Z.
Proof.
  intros Hg Hc Hstop history.
  destruct (update_in_play e now later pos Hg Hc) as (e2 & Hh2 & Hc2 & Hupd).
  cbv zeta in Hupd. destruct Hupd as (Hmv & _).
  rewrite Hstop in Hmv.
  destruct (Z.ltb_spec (Z.of_nat (length (_last_positions e2)))
                       config.BALL_STOPPED_FRAMES) as [Hshort | Hlong].
  { rewrite (check_movement_short e2 Hshort) in Hmv. discriminate. }
  pose proof (check_movement_long e2 Hlong) as Hcm. cbv zeta in Hcm.
  rewrite Hcm in Hmv. cbn [snd] in Hmv. clear Hcm.
  rewrite Hh2 in *. rewrite Hc2 in Hmv. fold history in Hlong, Hmv.
  symmetry in Hmv. apply Z.ltb_ge in Hmv.
  destruct (max_displacement _ <? config.BALL_STOPPED_THRESHOLD_CM) eqn:E.
  - apply Rltb_true, max_displacement_lt in E. destruct E as [_ E].
    repeat split; [exact Hlong | exact E | lia].
  - unfold config.BALL_STOPPED_FRAMES in Hmv. lia.
Qed.

(** The 29th identical sample of a level. *)
Lemma identical_sample_29 (p : point) (e : MiniGolfEngine) (now later : R) :
  _last_positions e = repeat p 28 ->
  _stopped_frame_count e = 14%Z ->
  _max_history e = (config.BALL_STOPPED_FRAMES * 2)%Z ->
  _celebrating e = false ->
  game_over (state e) = false ->
  xlt (hole_distance e p) config.HOLE_RADIUS_CM = false ->
  is_ball_moving (state (game_engine.update now later (Some p) e)) = false.
Proof.
  intros H1 H2 H3 H4 H5 Hhole.
  destruct (step_identical p e (mkTick now later (Some p)) 28
              eq_refl Hhole (le_n 28) H1 H2 H3 H4 H5) as (Hmv & _).
  exact Hmv.
Qed.

Lemma stopped_requires_stillness_witness :
  let k := mkTick 0 0 (Some (30, 30)) in
  let e := run (repeat k 28) (start_game 0 MiniGolfEngine_init) in
  let history := pushed_history e (30, 30) in
  (config.BALL_STOPPED_FRAMES <= Z.of_nat (length history))%Z /\
  Forall (fun d => d < config.BALL_STOPPED_THRESHOLD_CM)
         (steps (slice_from (- config.BALL_STOPPED_FRAMES) history)) /\
  (config.BALL_STOPPED_FRAMES - 1 <= _stopped_frame_count e)%Z.
Proof.
  intros k e.
  assert (Hhole : xlt (hole_distance (start_game 0 MiniGolfEngine_init) (30, 30))
                      config.HOLE_RADIUS_CM = false).
  { apply Rltb_false. apply norm_not_lt_sq; unfold config.HOLE_RADIUS_CM; cbn; lra. }
  assert (Hlen : (length (repeat k 28) <= 28)%nat) by (rewrite repeat_length; lia).
  destruct (run_identical (30, 30) _ (repeat k 28) (start_game_fresh 0) Hhole
              (Forall_repeat _ k 28 eq_refl) Hlen)
    as (H1 & H2 & H3 & H4 & H5 & H6).
  assert (Hhole' : xlt (hole_distance (run (repeat k 28)
                                         (start_game 0 MiniGolfEngine_init)) (30, 30))
                       config.HOLE_RADIUS_CM = false).
  { unfold hole_distance in *. rewrite H6. exact Hhole. }
  rewrite repeat_length in H1, H2.
  exact (stopped_requires_stillness _ 0 0 (30, 30) H5 H4
           (identical_sample_29 (30, 30) _ 0 0 H1 H2 H3 H4 H5 Hhole')).
Defined.

Lemma steps_from_tail (a b : point) (l : list point) :
  forall prev : point, In (norm (vsub b a)) (steps_from prev (l ++ [a; b])).
Proof.
  induction l as [|x l IH]; intros prev; cbn.
  - right. left. reflexivity.
  - right. apply IH.
Qed.

Lemma steps_tail (a b : point) (l : list point) :
  In (norm (vsub b a)) (steps (l ++ [a; b])).
Proof.
  destruct l as [|x l]; cbn.
  - left. reflexivity.
  - apply steps_from_tail.
Qed.

(** A slice that keeps at least two elements keeps the last two. *)
Lemma slice_from_keeps_tail {A : Type} (i : Z) (l : list A) (a b : A) :
  (i <= -2)%Z -> exists l', slice_from i (l ++ [a; b]) = l' ++ [a; b].
Proof.
  intros Hi. unfold slice_from.
  destruct (Z.ltb_spec i 0); [|lia].
  rewrite length_app. cbn [length].
  set (k := Z.to_nat (Z.of_nat (length l + 2) + i)).
  assert (Hk : (k <= length l)%nat) by (subst k; lia).
  exists (skipn k l). rewrite skipn_app.
  replace (k - length l)%nat with 0%nat by lia. reflexivity.
Qed.

(** X8: while a game is in play with at least 14 samples stored (and a
    history bound of at least 15), a sample at least 0.8 away from the
    previous one makes the ball moving and puts the stillness counter
    back to 0. *)
Theorem large_step_resets_stillness
    (e : MiniGolfEngine) (now later : R) (pos prev : point)
    (earlier : list point) :
  game_over (state e) = false ->
  _celebrating e = false ->
  _last_positions e = earlier ++ [prev] ->
  (config.BALL_STOPPED_FRAMES - 1 <= Z.of_nat (length (_last_positions e)))%Z ->
  (config.BALL_STOPPED_FRAMES <= _max_history e)%Z ->
  config.BALL_STOPPED_THRESHOLD_CM <= norm (vsub pos prev) ->
  let e' := game_engine.update now later (Some pos) e in
  is_ball_moving (state e') = true /\ _stopped_frame_count e' = 0%Z.
Proof.
  intros Hg Hc Hhist Hlen Hmax Hfar e'. subst e'.
  destruct (update_in_play e now later pos Hg Hc) as (e2 & Hh2 & Hc2 & Hupd).
  cbv zeta in Hupd. destruct Hupd as (Hmv & _ & Hfields & _).
  unfold config.BALL_STOPPED_FRAMES in *.
  assert (Hpush : exists l', pushed_history e pos = l' ++ [prev; pos]
                             /\ (15 <= Z.of_nat (length (pushed_history e pos)))%Z).
  { unfold pushed_history. cbv zeta. rewrite Hhist in *.
    rewrite <- app_assoc. cbn [app].
    rewrite length_app in Hlen. cbn [length] in Hlen.
    destruct (Z.ltb_spec (_max_history e) (Z.of_nat (length (earlier ++ [prev; pos])))).
    - destruct (slice_from_keeps_tail (- _max_history e) earlier prev pos) as [l' Hl'];
        [lia|].
      exists l'. split; [exact Hl'|].
      unfold slice_from. destruct (Z.ltb_spec (- _max_history e) 0); [|lia].
      rewrite length_skipn, length_app in *. cbn [length] in *. lia.
    - exists earlier. split; [reflexivity|].
      rewrite length_app. cbn [length]. lia. }
  destruct Hpush as (l' & Hl' & Hlong).
  rewrite <- Hh2 in Hlong.
  pose proof (check_movement_long e2 Hlong) as Hcm. cbv zeta in Hcm.
  assert (Hno : (max_displacement
                   (slice_from (- config.BALL_STOPPED_FRAMES) (_last_positions e2))
                 <? config.BALL_STOPPED_THRESHOLD_CM) = false).
  { apply Rltb_false. intros Hlt. apply max_displacement_lt in Hlt.
    destruct Hlt as [_ Hall]. rewrite Hh2, Hl' in Hall.
    destruct (slice_from_keeps_tail (- config.BALL_STOPPED_FRAMES) l' prev pos)
      as [l'' Hl'']; [unfold config.BALL_STOPPED_FRAMES; lia|].
    rewrite Hl'' in Hall. rewrite Forall_forall in Hall.
    specialize (Hall _ (steps_tail prev pos l'')). lra. }
  unfold config.BALL_STOPPED_FRAMES in Hno, Hcm. rewrite Hno in Hcm.
  rewrite Hcm in *. cbn [fst snd _stopped_frame_count set_stopped_frame_count] in *.
  split; [exact Hmv|].
  destruct Hfields as [(_ & ->) | (_ & ->)]; reflexivity.
Qed.

Lemma large_step_resets_stillness_witness :
  let e := mkEngine (set_game_over false GameState_init) 9
             (repeat (10, 10) 14) 30 0 0 false 3 in
  let e' := game_engine.update 0 0 (Some (11, 10)) e in
  is_ball_moving (state e') = true /\ _stopped_frame_count e' = 0%Z.
Proof.
  intros e.
  apply (large_step_resets_stillness e 0 0 (11, 10) (10, 10) (repeat (10, 10) 13)).
  - reflexivity.
  - reflexivity.
  - reflexivity.
  - unfold e, config.BALL_STOPPED_FRAMES. cbn. lia.
  - unfold e, config.BALL_STOPPED_FRAMES. cbn. lia.
  - unfold config.BALL_STOPPED_THRESHOLD_CM, norm, vsub. cbn [fst snd].
    replace ((11 - 10) * (11 - 10) + (10 - 10) * (10 - 10)) with 1 by ring.
    rewrite sqrt_1. lra.
Defined.

(** ** The bounded history *)

Lemma pushed_history_bounded (e : MiniGolfEngine) (pos : point) :
  (0 < _max_history e)%Z ->
  (Z.of_nat (length (_last_positions e)) <= _max_history e)%Z ->
  (Z.of_nat (length (pushed_history e pos)) <= _max_history e)%Z.
Proof.
  intros Hpos Hlen. unfold pushed_history. cbv zeta.
  destruct (Z.ltb_spec (_max_history e)
              (Z.of_nat (length (_last_positions e ++ [pos])))); [|lia].
  unfold slice_from. destruct (Z.ltb_spec (- _max_history e) 0); [|lia].
  rewrite length_skipn. lia.
Qed.

Lemma update_history_bounded (now later : R) (b : option point) (e : MiniGolfEngine) :
  (0 < _max_history e)%Z ->
  (Z.of_nat (length (_last_positions e)) <= _max_history e)%Z ->
  let e' := game_engine.update now later b e in
  _max_history e' = _max_history e /\
  (Z.of_nat (length (_last_positions e')) <= _max_history e)%Z.
Proof.
  intros Hpos Hlen e'. subst e'.
  destruct (game_over (state e)) eqn:Hg.
  { rewrite (update_game_over _ _ _ _ Hg). auto. }
  destruct (_celebrating e) eqn:Hc.
  { unfold game_engine.update. rewrite Hg, Hc.
    destruct (_celebration_duration e <? now - _hole_in_time e).
    - pose proof (advance_level_frame later (set_celebrating false e)) as Hf.
      cbv zeta in Hf. destruct Hf as (_ & _ & _ & _ & _ & F1 & _ & F2).
      rewrite F1, F2. cbn. split; [reflexivity|lia].
    - cbn. auto. }
  destruct b as [pos|].
  2:{ unfold game_engine.update. rewrite Hg, Hc. cbn. auto. }
  destruct (update_in_play e now later pos Hg Hc) as (e2 & Hh2 & _ & Hupd).
  cbv zeta in Hupd. destruct Hupd as (_ & Hmax & Hfields & _).
  split; [exact Hmax|].
  destruct (check_movement_frame e2) as (_ & Hl3 & _).
  destruct Hfields as [(-> & _) | (-> & _)].
  - rewrite Hl3, Hh2. now apply pushed_history_bounded.
  - cbn. lia.
Qed.

(** X9: with a positive history bound, the position history never grows
    beyond it: if it fits before a sequence of updates, it fits after, and
    the bound itself is never changed. *)
Theorem history_stays_bounded (e : MiniGolfEngine) (ticks : list tick) :
  (0 < _max_history e)%Z ->
  (Z.of_nat (length (_last_positions e)) <= _max_history e)%Z ->
  _max_history (run ticks e) = _max_history e /\
  (Z.of_nat (length (_last_positions (run ticks e))) <= _max_history e)%Z.
Proof.
  revert e. induction ticks as [|k ticks IH]; intros e Hpos Hlen; [auto|].
  change (run (k :: ticks) e) with (run ticks (step e k)).
  destruct (update_history_bounded (t_now k) (t_later k) (t_ball k) e Hpos Hlen)
    as (Hm & Hl).
  fold (step e k) in Hm, Hl.
  destruct (IH (step e k)) as (Hm' & Hl'); [lia | lia |].
  rewrite Hm' , Hm. split; [reflexivity|]. lia.
Qed.

Lemma history_stays_bounded_witness :
  let ticks := repeat (mkTick 0 0 (Some (10, 10))) 40 in
  _max_history (run ticks MiniGolfEngine_init) = 30%Z /\
  (Z.of_nat (length (_last_positions (run ticks MiniGolfEngine_init))) <= 30)%Z.
Proof.
  intros ticks.
  apply (history_stays_bounded MiniGolfEngine_init ticks); cbn; lia.
Defined.

(** ** More on the calibrator *)

Lemma id_to_center_app (l1 l2 : list (Z * point)) (mid : Z) :
  id_to_center (l1 ++ l2) mid
  = match id_to_center l2 mid with
    | Some c => Some c
    | None => id_to_center l1 mid
    end.
Proof.
  unfold id_to_center. rewrite fold_left_app.
  generalize (fold_left (fun acc m => if (fst m =? mid)%Z then Some (snd m) else acc)
                        l1 None).
  induction l2 as [|m l2 IH] using rev_ind; intros acc.
  - cbn. reflexivity.
  - rewrite !fold_left_app. cbn.
    destruct (fst m =? mid)%Z; [reflexivity | apply IH].
Qed.

(** The dictionary lookup: absent exactly for ids that no detected marker
    carries; otherwise the centre of the last marker carrying the id. *)
Lemma id_to_center_spec (markers : list (Z * point)) (mid : Z) :
  match id_to_center markers mid with
  | None => ~ In mid (map fst markers)
  | Some c =>
    exists l1 l2, markers = l1 ++ (mid, c) :: l2 /\ ~ In mid (map fst l2)
  end.
Proof.
  induction markers as [|m markers IH] using rev_ind.
  - cbn. auto.
  - rewrite id_to_center_app. cbn.
    destruct (Z.eqb_spec (fst m) mid) as [E | E].
    + exists markers, []. destruct m as [i ctr]. cbn in *. subst. auto.
    + destruct (id_to_center markers mid) as [c|].
      * destruct IH as (l1 & l2 & -> & Hl2).
        exists l1, (l2 ++ [m]). rewrite <- app_assoc. split; [reflexivity|].
        rewrite map_app, in_app_iff. cbn. tauto.
      * rewrite map_app, in_app_iff. cbn. tauto.
Qed.

Lemma collect_centers_missing (markers : list (Z * point)) (order : list Z) (mid : Z) :
  In mid order -> ~ In mid (map fst markers) ->
  collect_centers markers order = None.
Proof.
  intros Hin Hmiss. induction order as [|o order IH]; [contradiction|].
  cbn. pose proof (id_to_center_spec markers o) as Hs.
  destruct (id_to_center markers o) as [ctr|] eqn:E; [|reflexivity].
  destruct Hin as [-> | Hin].
  - destruct Hs as (l1 & l2 & -> & _). exfalso. apply Hmiss.
    rewrite map_app, in_app_iff. right. left. reflexivity.
  - rewrite (IH Hin). reflexivity.
Qed.

(** X12: [calibrate_aruco] returns [False] and leaves the calibrator as it
    was when no marker or fewer than four markers are detected, and also
    when one of the requested ids is carried by no detected marker. *)
Theorem calibrate_aruco_failure_keeps_calibrator
    (findHomography : list point -> list point -> option mat3)
    (detected : option (list (Z * point))) (order : list Z)
    (c : HomographyCalibrator) :
  match detected with
  | None => True
  | Some markers =>
    (length markers < 4)%nat \/
    exists mid, In mid order /\ ~ In mid (map fst markers)
  end ->
  calibrate_aruco findHomography detected order c = (c, Ret false).
Proof.
  unfold calibrate_aruco. destruct detected as [markers|]; [|reflexivity].
  intros Hcase.
  destruct (Z.ltb_spec (Z.of_nat (length markers)) 4); [reflexivity|].
  destruct Hcase as [Hlen | (mid & Hin & Hmiss)]; [lia|].
  rewrite (collect_centers_missing markers order mid Hin Hmiss). reflexivity.
Qed.

Lemma calibrate_aruco_failure_keeps_calibrator_witness :
  let solver := fun _ _ : list point => Some identity3 in
  let markers := [(0%Z, (10, 10)); (1%Z, (90, 10)); (2%Z, (90, 70)); (7%Z, (10, 70))] in
  let c := mkCalibrator (Some identity3) (Some identity3) None
             config.WORLD_CORNERS [] true in
  calibrate_aruco solver (Some markers) [0; 1; 2; 3]%Z c = (c, Ret false).
Proof.
  intros solver markers c.
  apply (calibrate_aruco_failure_keeps_calibrator solver (Some markers) [0; 1; 2; 3]%Z c).
  right. exists 3%Z. split.
  - cbn. tauto.
  - cbn. intros [E | [E | [E | [E | []]]]]; discriminate.
Defined.

(** ** More on the positioner *)

Lemma correct_height_total (pp : PlanarPositioner) (P : point) (h : R) :
  exists Q : point, correct_height pp (Some P) h = Some Q.
Proof.
  unfold correct_height.
  destruct (Rabs h <? 1e-6); [eauto|].
  destruct (_camera_center_world pp) as [[[Cx Cy] Cz]|]; [|eauto].
  destruct (Rabs (Cz - h) <? 1e-6); eauto.
Qed.

(** X15: [get_ball_world_position] fails exactly when [image_to_plane]
    does: it returns [None] for the same image points and raises the same
    exception, whatever radius is passed; the height correction never
    loses a located point. *)
Theorem get_ball_world_position_fails_like_image_to_plane
    (pp : PlanarPositioner) (image_point : point) (ball_radius_cm : option R) :
  (get_ball_world_position pp image_point ball_radius_cm = Ret None
   <-> image_to_plane pp image_point = Ret None) /\
  (forall e : exn,
     get_ball_world_position pp image_point ball_radius_cm = Raise e
     <-> image_to_plane pp image_point = Raise e).
Proof.
  unfold get_ball_world_position.
  destruct (image_to_plane pp image_point) as [[P|]|e0].
  - assert (Hsome : exists Q, (match ball_radius_cm with
                               | Some r => if 0 <? r
                                           then Ret (correct_height pp (Some P) r)
                                           else Ret (Some P)
                               | None => Ret (Some P)
                               end) = Ret (Some Q)).
    { destruct ball_radius_cm as [r|]; [|eauto].
      destruct (0 <? r); [|eauto].
      destruct (correct_height_total pp P r) as [Q ->]. eauto. }
    destruct Hsome as [Q ->]. split; [split; discriminate|].
    intros e. split; discriminate.
  - split; [tauto|]. intros e. split; discriminate.
  - split; [split; discriminate|]. intros e. tauto.
Qed.

(** ** More on the colour tracker *)

Lemma best_candidate_loop_spec (predicted : point) (radius0 : R) (margin x1 y1 : Z)
    (contours : list contour) :
  forall (best : option (R * R * R)) (bs : R),
    let res := best_candidate_loop predicted radius0 margin x1 y1 contours best bs in
    (res = best /\
     forall cnt c s, In cnt contours ->
       score_contour predicted radius0 margin x1 y1 cnt = Some (c, s) -> s <= bs)
    \/
    (exists cnt c s,
       In cnt contours /\
       score_contour predicted radius0 margin x1 y1 cnt = Some (c, s) /\
       res = Some c /\ bs < s /\
       forall cnt' c' s', In cnt' contours ->
         score_contour predicted radius0 margin x1 y1 cnt' = Some (c', s') -> s' <= s).
Proof.
  induction contours as [|cnt rest IH]; intros best bs; cbn zeta.
  - left. split; [reflexivity|]. intros ? ? ? [].
  - cbn [best_candidate_loop].
    destruct (score_contour predicted radius0 margin x1 y1 cnt)
      as [[[[cx cy] r] s]|] eqn:Es.
    + destruct (bs <? s) eqn:Eb.
      * apply Rltb_true in Eb.
        destruct (IH (Some (cx, cy, r)) s) as [(Hres & Hall) | (c2 & k & s2 & Hin & Hs2 & Hres & Hlt & Hall)].
        -- right. exists cnt, (cx, cy, r), s. repeat split; auto.
           ++ left. reflexivity.
           ++ intros cnt' c' s' [<- | Hin'] Hs'.
              ** rewrite Es in Hs'. injection Hs' as _ <-. lra.
              ** eapply Hall; eauto.
        -- right. exists c2, k, s2. repeat split; auto.
           ++ right. exact Hin.
           ++ lra.
           ++ intros cnt' c' s' [<- | Hin'] Hs'.
              ** rewrite Es in Hs'. injection Hs' as _ <-. lra.
              ** eapply Hall; eauto.
      * apply Rltb_false in Eb.
        destruct (IH best bs) as [(Hres & Hall) | (c2 & k & s2 & Hin & Hs2 & Hres & Hlt & Hall)].
        -- left. split; [exact Hres|].
           intros cnt' c' s' [<- | Hin'] Hs'.
           ++ rewrite Es in Hs'. injection Hs' as _ <-. lra.
           ++ eapply Hall; eauto.
        -- right. exists c2, k, s2. repeat split; auto.
           ++ right. exact Hin.
           ++ intros cnt' c' s' [<- | Hin'] Hs'.
              ** rewrite Es in Hs'. injection Hs' as _ <-. lra.
              ** eapply Hall; eauto.
    + destruct (IH best bs) as [(Hres & Hall) | (c2 & k & s2 & Hin & Hs2 & Hres & Hlt & Hall)].
      * left. split; [exact Hres|].
        intros cnt' c' s' [<- | Hin'] Hs'; [congruence | eapply Hall; eauto].
      * right. exists c2, k, s2. repeat split; auto.
        -- right. exact Hin.
        -- intros cnt' c' s' [<- | Hin'] Hs'; [congruence | eapply Hall; eauto].
Qed.

(** X16: the candidate the tracker keeps is one that passed the filters,
    scores above -1, and has the highest score of all contours that passed;
    the tracker keeps none exactly when no contour passes with a score
    above -1. *)
Theorem best_candidate_is_best
    (predicted : point) (radius0 : R) (margin x1 y1 : Z) (contours : list contour) :
  match best_candidate_loop predicted radius0 margin x1 y1 contours None (-1) with
  | Some c =>
    exists cnt s,
      In cnt contours /\
      score_contour predicted radius0 margin x1 y1 cnt = Some (c, s) /\
      -1 < s /\
      forall cnt' c' s', In cnt' contours ->
        score_contour predicted radius0 margin x1 y1 cnt' = Some (c', s') -> s' <= s
  | None =>
    forall cnt c s, In cnt contours ->
      score_contour predicted radius0 margin x1 y1 cnt = Some (c, s) -> s <= -1
  end.
Proof.
  destruct (best_candidate_loop_spec predicted radius0 margin x1 y1 contours None (-1))
    as [(Hres & Hall) | (cnt & c & s & Hin & Hs & Hres & Hlt & Hall)];
    cbv zeta in Hres; rewrite Hres.
  - exact Hall.
  - exists cnt, s. auto.
Qed.

Lemma score_contour_radius (predicted : point) (radius0 : R) (margin x1 y1 : Z)
    (cnt : contour) (cx cy r s : R) :
  score_contour predicted radius0 margin x1 y1 cnt = Some (cx, cy, r, s) ->
  config.BALL_MIN_RADIUS_PX * 0.5 <= r <= config.BALL_MAX_RADIUS_PX * 1.5.
Proof.
  unfold score_contour.
  destruct (contourArea cnt <? _); [discriminate|].
  destruct (minEnclosingCircle cnt) as [[cxl cyl] radius].
  destruct (radius <? _) eqn:E1; [discriminate|].
  destruct (_ <? radius) eqn:E2; [discriminate|].
  intros [= _ _ <- _]. apply Rltb_false in E1, E2. lra.
Qed.

Lemma update_match (t : ColorTracker) (f : frame) (pos : point) (radius0 : R)
    (cx cy r : R) :
  _initialized t = true ->
  last_position t = Some pos ->
  last_radius t = Some radius0 ->
  matching_contour t f (cx, cy, r) ->
  update f t =
  (mkTracker (hsv_lower t) (hsv_upper t) (Some (cx, cy))
     (Some (0.7 * radius0 + 0.3 * r)) (search_margin t) (_initialized t) 0
     (_max_lost_frames t)
     (0.6 * (cx - fst pos) + (1 - 0.6) * fst (_velocity t),
      0.6 * (cy - snd pos) + (1 - 0.6) * snd (_velocity t)),
   Ret (Some (int_of cx, int_of cy, int_of (0.7 * radius0 + 0.3 * r)))).
Proof.
  intros Hi Hp Hr Hm. unfold matching_contour in Hm. unfold update.
  rewrite Hi, Hp, Hr in *. cbn [negb].
  destruct (search_window t pos radius0 f) as [margin [[[x1 y1] x2] y2]].
  destruct Hm as (Hx & Hy & Hbest).
  destruct (Z.ltb_spec (x2 - x1) 10); [lia|].
  destruct (Z.ltb_spec (y2 - y1) 10); [lia|]. cbn [orb].
  destruct (findContours f (x1, y1, x2, y2) (hsv_lower t) (hsv_upper t)) as [|cnt rest].
  - cbn in Hbest. discriminate.
  - rewrite Hbest. reflexivity.
Qed.

(** X17: a frame with a matching contour puts the lost counter back to 0,
    whatever it was, moves the track to the candidate with the radius
    smoothed 0.7 / 0.3 and the velocity smoothed 0.6 / 0.4, and returns
    the truncated candidate; after it, as many unmatched frames as the
    ceiling allows still leave the track not lost. *)
Theorem match_recovers_track
    (t : ColorTracker) (f : frame) (pos : point) (radius0 cx cy r : R)
    (frames : list frame) :
  _initialized t = true ->
  last_position t = Some pos ->
  last_radius t = Some radius0 ->
  matching_contour t f (cx, cy, r) ->
  let t' := fst (update f t) in
  _lost_counter t' = 0%Z /\
  last_position t' = Some (cx, cy) /\
  last_radius t' = Some (0.7 * radius0 + 0.3 * r) /\
  _velocity t' = (0.6 * (cx - fst pos) + (1 - 0.6) * fst (_velocity t),
                  0.6 * (cy - snd pos) + (1 - 0.6) * snd (_velocity t)) /\
  snd (update f t)
  = Ret (Some (int_of cx, int_of cy, int_of (0.7 * radius0 + 0.3 * r))) /\
  (Forall (no_matching_contour t') frames ->
   (Z.of_nat (length frames) <= _max_lost_frames t)%Z ->
   is_lost (fst (updates frames t')) = false).
Proof.
  intros Hi Hp Hr Hm t'. subst t'.
  rewrite (update_match t f pos radius0 cx cy r Hi Hp Hr Hm). cbn [fst snd].
  repeat split.
  match goal with |- Forall (no_matching_contour ?x) _ -> _ => set (t' := x) end.
  intros Hall Hlen.
  destruct (updates_no_match (cx, cy) (0.7 * radius0 + 0.3 * r) frames t'
              Hi eq_refl eq_refl Hall) as (Hfst & _).
  rewrite Hfst. unfold is_lost. cbn. apply Z.ltb_ge. lia.
Qed.

Lemma match_recovers_track_witness :
  let cnt := mkContour 1000 ((120, 120), 20) 0 in
  let f := mkFrame 480 640 (fun _ _ _ => [cnt]) in
  let t := set_lost_counter 31 (initialize 320 240 20 ColorTracker_init) in
  let t' := fst (update f t) in
  is_lost t = true /\
  _lost_counter t' = 0%Z /\
  last_position t' = Some (120 + 200, 120 + 120) /\
  is_lost t' = false.
Proof.
  intros cnt f t.
  assert (Hm : matching_contour t f (120 + 200, 120 + 120, 20)).
  { unfold matching_contour, search_window, t, initialize, set_lost_counter, f.
    cbn [last_position last_radius _velocity search_margin ColorTracker_init
         frame_w frame_h fst snd findContours hsv_lower hsv_upper].
    rewrite (int_of_eq (20 * 2) 40) by lra.
    change (config.TRACKING_SEARCH_MARGIN + 40)%Z with 120%Z.
    rewrite (int_of_eq (320 + 0 - 120) 200) by lra.
    rewrite (int_of_eq (240 + 0 - 120) 120) by lra.
    rewrite (int_of_eq (320 + 0 + 120) 440) by lra.
    rewrite (int_of_eq (240 + 0 + 120) 360) by lra.
    cbn [Z.max Z.min Z.compare Pos.compare Pos.compare_cont].
    split; [lia|]. split; [lia|].
    cbn [best_candidate_loop]. unfold score_contour, cnt.
    cbn [contourArea minEnclosingCircle arcLength fst snd].
    unfold config.BALL_MIN_RADIUS_PX, config.BALL_MAX_RADIUS_PX.
    pose proof PI_4 as Hpi. pose proof PI_RGT_0 as Hpi0.
    replace (1000 <? PI * 8 ^ 2 * 0.3) with false
      by (symmetry; apply Rltb_false; nra).
    replace (20 <? 8 * 0.5) with false by (symmetry; apply Rltb_false; lra).
    replace (120 * 1.5 <? 20) with false by (symmetry; apply Rltb_false; lra).
    replace (0 <? 0) with false by (symmetry; apply Rltb_false; lra).
    replace ((120 + 200 - (320 + 0)) ^ 2 + (120 + 120 - (240 + 0)) ^ 2) with 0 by ring.
    rewrite sqrt_0.
    replace (20 - 20) with 0 by ring. rewrite Rabs_R0.
    replace (0 - 0 / 120 - 0 / py_max 20 1 * 0.5) with 0 by (unfold Rdiv; ring).
    replace (-1 <? 0) with true by (symmetry; apply Rltb_true; lra).
    reflexivity. }
  destruct (match_recovers_track t f (320, 240) 20 (120 + 200) (120 + 120) 20 []
              eq_refl eq_refl eq_refl Hm) as (H1 & H2 & _ & _ & _ & H6).
  split; [reflexivity|]. split; [exact H1|]. split; [exact H2|].
  apply (H6 (Forall_nil _)). cbn. lia.
Defined.

Lemma update_radius_in_range (f : frame) (t : ColorTracker) (radius0 : R) :
  last_radius t = Some radius0 ->
  config.BALL_MIN_RADIUS_PX * 0.5 <= radius0 <= config.BALL_MAX_RADIUS_PX * 1.5 ->
  exists radius' : R,
    last_radius (fst (update f t)) = Some radius' /\
    config.BALL_MIN_RADIUS_PX * 0.5 <= radius' <= config.BALL_MAX_RADIUS_PX * 1.5.
Proof.
  intros Hr Hrange. unfold update.
  destruct (negb (_initialized t)); [exists radius0; auto|].
  rewrite Hr.
  destruct (last_position t) as [pos|]; [|exists radius0; auto].
  destruct (search_window t pos radius0 f) as [margin [[[x1 y1] x2] y2]].
  destruct ((x2 - x1 <? 10) || (y2 - y1 <? 10))%Z; [exists radius0; auto|].
  destruct (findContours f (x1, y1, x2, y2) (hsv_lower t) (hsv_upper t)) as [|cnt rest].
  - destruct (_ <=? _)%Z; exists radius0; auto.
  - pose proof (best_candidate_is_best
                  (fst pos + fst (_velocity t), snd pos + snd (_velocity t))
                  radius0 margin x1 y1 (cnt :: rest)) as Hbest.
    destruct (best_candidate_loop _ radius0 margin x1 y1 (cnt :: rest) None (-1))
      as [[[cx cy] r]|].
    + destruct Hbest as (c0 & s & _ & Hs & _).
      apply score_contour_radius in Hs.
      exists (0.7 * radius0 + 0.3 * r). cbn. split; [reflexivity|]. lra.
    + exists radius0. auto.
Qed.

(** X18: once the tracked radius lies between half the minimum and one
    and a half times the maximum ball radius, it stays in that range over
    any sequence of frames. *)
Theorem tracked_radius_stays_in_range
    (frames : list frame) (t : ColorTracker) (radius0 : R) :
  last_radius t = Some radius0 ->
  config.BALL_MIN_RADIUS_PX * 0.5 <= radius0 <= config.BALL_MAX_RADIUS_PX * 1.5 ->
  exists radius' : R,
    last_radius (fst (updates frames t)) = Some radius' /\
    config.BALL_MIN_RADIUS_PX * 0.5 <= radius' <= config.BALL_MAX_RADIUS_PX * 1.5.
Proof.
  revert t radius0. induction frames as [|f frames IH]; intros t radius0 Hr Hrange.
  - exists radius0. auto.
  - destruct (update_radius_in_range f t radius0 Hr Hrange) as (r1 & Hr1 & Hrange1).
    cbn [updates]. destruct (update f t) as [t1 res]. cbn [fst] in Hr1.
    destruct (IH t1 r1 Hr1 Hrange1) as (r2 & Hr2 & Hrange2).
    destruct (updates frames t1) as [t2 rs]. cbn [fst] in *.
    exists r2. auto.
Qed.

Lemma tracked_radius_stays_in_range_witness :
  let cnt := mkContour 1000 ((120, 120), 40) 0 in
  let f := mkFrame 480 640 (fun _ _ _ => [cnt]) in
  let t := initialize 320 240 20 ColorTracker_init in
  exists radius' : R,
    last_radius (fst (updates [f; f; f] t)) = Some radius' /\
    config.BALL_MIN_RADIUS_PX * 0.5 <= radius' <= config.BALL_MAX_RADIUS_PX * 1.5.
Proof.
  intros cnt f t.
  apply (tracked_radius_stays_in_range [f; f; f] t 20).
  - reflexivity.
  - unfold config.BALL_MIN_RADIUS_PX, config.BALL_MAX_RADIUS_PX. lra.
Defined.

(** ** The OpenCV tracker wrapper *)

Lemma opencv_update_failure (t : OpenCV.OpenCVTracker) (pos : point) (radius : R)
    (bbox : R * R * R * R) :
  OpenCV._initialized t = true ->
  OpenCV.tracker t = true ->
  OpenCV.last_position t = Some pos ->
  OpenCV.last_radius t = Some radius ->
  OpenCV.update (false, bbox) t =
  (OpenCV.mkOpenCVTracker true true (OpenCV._lost_counter t + 1)
     (Some pos) (Some radius),
   Ret (Some (int_of (fst pos), int_of (snd pos), int_of radius))).
Proof.
  intros Hi Ht Hp Hr. unfold OpenCV.update. rewrite Hi, Ht, Hp, Hr. reflexivity.
Qed.

(** X19: an initialised OpenCV tracker whose underlying tracker fails on
    every frame of a sequence counts each failure and is lost once the
    counter exceeds 30, yet every one of those updates, also after the
    track is lost, returns the last known position and radius. *)
Theorem opencv_failures_coast
    (answers : list (bool * (R * R * R * R))) :
  forall (t : OpenCV.OpenCVTracker) (pos : point) (radius : R),
    OpenCV._initialized t = true ->
    OpenCV.tracker t = true ->
    OpenCV.last_position t = Some pos ->
    OpenCV.last_radius t = Some radius ->
    Forall (fun a => fst a = false) answers ->
    let t' := fst (OpenCV.updates answers t) in
    OpenCV._lost_counter t'
    = (OpenCV._lost_counter t + Z.of_nat (length answers))%Z /\
    OpenCV.is_lost t'
    = (30 <? OpenCV._lost_counter t + Z.of_nat (length answers))%Z /\
    OpenCV.last_position t' = Some pos /\
    OpenCV.last_radius t' = Some radius /\
    length (snd (OpenCV.updates answers t)) = length answers /\
    Forall (eq (Ret (Some (int_of (fst pos), int_of (snd pos), int_of radius))))
           (snd (OpenCV.updates answers t)).
Proof.
  induction answers as [|[ok bbox] answers IH]; intros t pos radius Hi Ht Hp Hr Hall.
  - cbn. unfold OpenCV.is_lost. rewrite Z.add_0_r. auto 10.
  - inversion Hall as [|? ? Hok Hrest]; subst. cbn [fst] in Hok. subst ok.
    cbn [OpenCV.updates].
    rewrite (opencv_update_failure t pos radius bbox Hi Ht Hp Hr).
    set (t1 := OpenCV.mkOpenCVTracker _ _ _ _ _).
    destruct (IH t1 pos radius eq_refl eq_refl eq_refl eq_refl Hrest)
      as (I1 & I2 & I3 & I4 & I5 & I6).
    destruct (OpenCV.updates answers t1) as [t2 rs]. cbn [fst snd length] in *.
    subst t1. cbn [OpenCV._lost_counter] in *.
    rewrite I1, I2, I3, I4, I5.
    replace (OpenCV._lost_counter t + 1 + Z.of_nat (length answers))%Z
      with (OpenCV._lost_counter t + Z.of_nat (S (length answers)))%Z by lia.
    repeat split. constructor; [reflexivity | exact I6].
Qed.

Lemma opencv_failures_coast_witness :
  let t := OpenCV.initialize 320 240 20 (Some (480, 640)%Z) OpenCV.OpenCVTracker_init in
  let answers := repeat (false, (0, 0, 0, 0)) 31 in
  let t' := fst (OpenCV.updates answers t) in
  OpenCV._lost_counter t' = (0 + Z.of_nat (length answers))%Z /\
  OpenCV.is_lost t' = (30 <? 0 + Z.of_nat (length answers))%Z /\
  OpenCV.last_position t' = Some (320, 240) /\
  OpenCV.last_radius t' = Some 20 /\
  length (snd (OpenCV.updates answers t)) = length answers /\
  Forall (eq (Ret (Some (int_of 320, int_of 240, int_of 20))))
         (snd (OpenCV.updates answers t)).
Proof.
  intros t answers.
  apply (opencv_failures_coast answers t (320, 240) 20);
    try reflexivity.
  apply Forall_repeat. reflexivity.
Defined.

(** X20: a tracker never given a frame at initialisation stays idle: after
    [initialize(cx, cy, radius)] without frame every update returns [None]
    and changes nothing, the lost counter included. *)
Theorem opencv_without_frame_stays_idle
    (t : OpenCV.OpenCVTracker) (cx cy radius : R)
    (answers : list (bool * (R * R * R * R))) :
  OpenCV._initialized t = false ->
  let t0 := OpenCV.initialize cx cy radius None t in
  fst (OpenCV.updates answers t0) = t0 /\
  Forall (eq (Ret None)) (snd (OpenCV.updates answers t0)) /\
  length (snd (OpenCV.updates answers t0)) = length answers.
Proof.
  intros Hi t0.
  assert (Hi0 : OpenCV._initialized t0 = false) by exact Hi.
  clearbody t0.
  induction answers as [|a answers IH]; [cbn; auto|].
  assert (Hidle : OpenCV.update a t0 = (t0, Ret None)).
  { unfold OpenCV.update. rewrite Hi0. reflexivity. }
  cbn [OpenCV.updates]. rewrite Hidle.
  destruct IH as (I1 & I2 & I3).
  destruct (OpenCV.updates answers t0) as [t2 rs]. cbn [fst snd length] in *.
  subst t2. split; [reflexivity|].
  split; [constructor; [reflexivity | exact I2] | lia].
Qed.

Lemma opencv_without_frame_stays_idle_witness :
  let t0 := OpenCV.initialize 320 240 20 None OpenCV.OpenCVTracker_init in
  let answers := [(true, (300, 220, 40, 40)); (false, (0, 0, 0, 0))] in
  fst (OpenCV.updates answers t0) = t0 /\
  Forall (eq (Ret None)) (snd (OpenCV.updates answers t0)) /\
  length (snd (OpenCV.updates answers t0)) = length answers.
Proof.
  intros t0 answers.
  apply (opencv_without_frame_stays_idle OpenCV.OpenCVTracker_init 320 240 20 answers).
  reflexivity.
Defined.

(** ** Detection *)

Lemma max_by_R_spec {A : Type} (key : A -> R) (rest : list A) :
  forall best : A,
    In (detection.max_by Rltb key best rest) (best :: rest) /\
    forall x, In x (best :: rest) ->
              key x <= key (detection.max_by Rltb key best rest).
Proof.
  induction rest as [|y rest IH]; intros best; cbn [detection.max_by].
  - split; [left; reflexivity|]. intros x [<- | []]. lra.
  - destruct (key best <? key y) eqn:E.
    + apply Rltb_true in E. destruct (IH y) as (Hin & Hmax). split.
      * right. exact Hin.
      * intros x [<- | Hx]; [|apply Hmax; exact Hx].
        specialize (Hmax y (or_introl eq_refl)). lra.
    + apply Rltb_false in E. destruct (IH best) as (Hin & Hmax). split.
      * destruct Hin as [<- | Hin]; [left; reflexivity | right; right; exact Hin].
      * intros x [<- | [<- | Hx]].
        -- apply Hmax. left. reflexivity.
        -- specialize (Hmax best (or_introl eq_refl)). lra.
        -- apply Hmax. right. exact Hx.
Qed.

Lemma max_by_Z_spec {A : Type} (key : A -> Z) (rest : list A) :
  forall best : A,
    In (detection.max_by Z.ltb key best rest) (best :: rest) /\
    forall x, In x (best :: rest) ->
              (key x <= key (detection.max_by Z.ltb key best rest))%Z.
Proof.
  induction rest as [|y rest IH]; intros best; cbn [detection.max_by].
  - split; [left; reflexivity|]. intros x [<- | []]. lia.
  - destruct (Z.ltb_spec (key best) (key y)) as [E | E].
    + destruct (IH y) as (Hin & Hmax). split.
      * right. exact Hin.
      * intros x [<- | Hx]; [|apply Hmax; exact Hx].
        specialize (Hmax y (or_introl eq_refl)). lia.
    + destruct (IH best) as (Hin & Hmax). split.
      * destruct Hin as [<- | Hin]; [left; reflexivity | right; right; exact Hin].
      * intros x [<- | [<- | Hx]].
        -- apply Hmax. left. reflexivity.
        -- specialize (Hmax best (or_introl eq_refl)). lia.
        -- apply Hmax. right. exact Hx.
Qed.

Lemma candidate_of_radius (cnt : contour) (cx cy r s : R) :
  detection.candidate_of cnt = Some (cx, cy, r, s) ->
  config.BALL_MIN_RADIUS_PX < r < config.BALL_MAX_RADIUS_PX.
Proof.
  unfold detection.candidate_of.
  destruct (contourArea cnt <? _); [discriminate|].
  destruct (minEnclosingCircle cnt) as [[x y] radius].
  destruct (config.BALL_MIN_RADIUS_PX <? radius) eqn:E1; [|discriminate].
  destruct (radius <? config.BALL_MAX_RADIUS_PX) eqn:E2; [|discriminate].
  cbn [andb negb].
  destruct (Req_dec_T (arcLength cnt) 0); [discriminate|].
  intros [= _ _ <- _]. apply Rltb_true in E1, E2. auto.
Qed.

Lemma candidates_of_radius (contours : list contour) (cx cy r s : R) :
  In (cx, cy, r, s) (detection.candidates_of contours) ->
  config.BALL_MIN_RADIUS_PX < r < config.BALL_MAX_RADIUS_PX.
Proof.
  induction contours as [|cnt contours IH]; [intros []|].
  cbn [detection.candidates_of].
  destruct (detection.candidate_of cnt) as [[[[x y] r0] s0]|] eqn:E; [|exact IH].
  intros [Heq | Hin]; [|exact (IH Hin)].
  injection Heq as -> -> -> ->. exact (candidate_of_radius _ _ _ _ _ E).
Qed.

(** The integer part of a radius strictly between 8 and 120. *)
Lemma int_of_radius (r : R) :
  config.BALL_MIN_RADIUS_PX <= r < config.BALL_MAX_RADIUS_PX ->
  (8 <= int_of r <= 119)%Z.
Proof.
  unfold config.BALL_MIN_RADIUS_PX, config.BALL_MAX_RADIUS_PX. intros [Hlo Hhi].
  destruct (int_of_truncates r) as [Hpos _].
  destruct (Hpos ltac:(lra)) as [H1 H2].
  split.
  - assert (H : (7 < int_of r)%Z) by (apply lt_IZR; lra). lia.
  - assert (H : (int_of r < 120)%Z) by (apply lt_IZR; lra). lia.
Qed.

(** X21: when at least one contour passes the filters, [_detect_in_image]
    returns the truncated centre and radius of a candidate whose score no
    other candidate exceeds, and the reported radius lies between 8 and
    119 pixels. *)
Theorem detect_in_image_best_candidate
    (image : Type)
    (blob_contours : image -> hsv -> hsv -> list contour)
    (HoughCircles : image -> hsv -> hsv -> option ((Z * Z * Z) * list (Z * Z * Z)))
    (d : detection.AutomaticDetector) (img : image) :
  let candidates :=
    detection.candidates_of
      (blob_contours img (detection.hsv_lower d) (detection.hsv_upper d)) in
  candidates <> [] ->
  exists cx cy r s,
    In (cx, cy, r, s) candidates /\
    (forall c, In c candidates -> snd c <= s) /\
    detection._detect_in_image image blob_contours HoughCircles d img
    = Some (int_of cx, int_of cy, int_of r) /\
    (8 <= int_of r <= 119)%Z.
Proof.
  intros candidates Hne. subst candidates. unfold detection._detect_in_image.
  destruct (blob_contours img (detection.hsv_lower d) (detection.hsv_upper d))
    as [|cnt contours]; [now elim Hne|].
  destruct (detection.candidates_of (cnt :: contours)) as [|c cs] eqn:Ec;
    [now elim Hne|].
  destruct (max_by_R_spec (fun c => snd c) cs c) as (Hin & Hmax).
  destruct (detection.max_by Rltb (fun c => snd c) c cs) as [[[cx cy] r] s].
  exists cx, cy, r, s. repeat split.
  - exact Hin.
  - exact Hmax.
  - apply int_of_radius. rewrite <- Ec in Hin.
    destruct (candidates_of_radius _ _ _ _ _ Hin). lra.
  - apply int_of_radius. rewrite <- Ec in Hin.
    destruct (candidates_of_radius _ _ _ _ _ Hin). lra.
Qed.

Lemma detect_in_image_best_candidate_witness :
  let cnt := mkContour 1000 ((100, 50), 20) 100 in
  let blob := fun (_ : unit) (_ _ : hsv) => [cnt] in
  let hough := fun (_ : unit) (_ _ : hsv) => @None ((Z * Z * Z) * list (Z * Z * Z)) in
  let candidates := detection.candidates_of [cnt] in
  exists cx cy r s,
    In (cx, cy, r, s) candidates /\
    (forall c, In c candidates -> snd c <= s) /\
    detection._detect_in_image unit blob hough detection.AutomaticDetector_init tt
    = Some (int_of cx, int_of cy, int_of r) /\
    (8 <= int_of r <= 119)%Z.
Proof.
  intros cnt blob hough.
  apply (detect_in_image_best_candidate unit blob hough
           detection.AutomaticDetector_init tt).
  unfold blob. cbn [detection.candidates_of]. unfold detection.candidate_of, cnt.
  cbn [contourArea minEnclosingCircle arcLength].
  unfold config.BALL_MIN_RADIUS_PX, config.BALL_MAX_RADIUS_PX.
  pose proof PI_4 as Hpi. pose proof PI_RGT_0 as Hpi0.
  replace (1000 <? PI * 8 ^ 2) with false by (symmetry; apply Rltb_false; nra).
  replace (8 <? 20) with true by (symmetry; apply Rltb_true; lra).
  replace (20 <? 120) with true by (symmetry; apply Rltb_true; lra).
  cbn [andb negb].
  destruct (Req_dec_T 100 0) as [E | _]; [exfalso; lra|].
  discriminate.
Defined.

(** X22: the Hough fallback returns nothing exactly when OpenCV finds no
    circle, and otherwise one of the circles found, of the largest radius
    among them. *)
Theorem fallback_hough_largest
    (image : Type)
    (HoughCircles : image -> hsv -> hsv -> option ((Z * Z * Z) * list (Z * Z * Z)))
    (d : detection.AutomaticDetector) (img : image) :
  match HoughCircles img (detection.hsv_lower d) (detection.hsv_upper d) with
  | None => detection._fallback_hough image HoughCircles d img = None
  | Some (c, circles) =>
    exists best,
      detection._fallback_hough image HoughCircles d img = Some best /\
      In best (c :: circles) /\
      forall x, In x (c :: circles) -> (snd x <= snd best)%Z
  end.
Proof.
  unfold detection._fallback_hough.
  destruct (HoughCircles img (detection.hsv_lower d) (detection.hsv_upper d))
    as [[c circles]|]; [|reflexivity].
  destruct (max_by_Z_spec (fun c => snd c) circles c) as (Hin & Hmax).
  eexists. split; [reflexivity|]. split; [exact Hin | exact Hmax].
Qed.

Lemma nearest_radius_loop_range (cx cy : Z) (contours : list contour) :
  forall (best_radius : R) (best_dist : xreal),
    config.BALL_MIN_RADIUS_PX <= best_radius < config.BALL_MAX_RADIUS_PX ->
    config.BALL_MIN_RADIUS_PX
      <= detection.nearest_radius_loop cx cy contours best_radius best_dist
      < config.BALL_MAX_RADIUS_PX.
Proof.
  induction contours as [|cnt contours IH]; intros br bd Hbr; [exact Hbr|].
  cbn [detection.nearest_radius_loop].
  destruct (minEnclosingCircle cnt) as [[x y] r].
  destruct (config.BALL_MIN_RADIUS_PX <? r) eqn:E1; cbn [andb]; [|apply IH; exact Hbr].
  destruct (r <? config.BALL_MAX_RADIUS_PX) eqn:E2; [|apply IH; exact Hbr].
  apply Rltb_true in E1, E2.
  destruct (match bd with Fin b => _ | Inf => true end); apply IH; lra.
Qed.

(** X23: [detect_point] never runs into an index error; it returns [None]
    exactly for a click outside the frame, and for a click inside it
    returns the click with an estimated radius between 8 and 119 pixels
    (25 when no contour around the click qualifies). *)
Theorem detect_point_total
    (image : Type) (shape : image -> Z * Z)
    (pixel_hsv : image -> Z -> Z -> hsv)
    (click_contours : image -> hsv -> hsv -> list contour)
    (frame : image) (x y : Z) :
  let inside := (0 <= x < snd (shape frame) /\ 0 <= y < fst (shape frame))%Z in
  match detection.detect_point image shape pixel_hsv click_contours frame x y with
  | detection.IndexError => False
  | detection.InRange None => ~ inside
  | detection.InRange (Some (x', y', radius)) =>
    inside /\ x' = x /\ y' = y /\ (8 <= radius <= 119)%Z
  end.
Proof.
  intros inside. subst inside.
  unfold detection.detect_point, detection._estimate_radius.
  destruct (shape frame) as [h w]. cbn [fst snd].
  destruct (Z.ltb_spec x 0); cbn [orb]; [lia|].
  destruct (Z.ltb_spec y 0); cbn [orb]; [lia|].
  destruct (Z.leb_spec w x); cbn [orb]; [lia|].
  destruct (Z.leb_spec h y); cbn [orb]; [lia|].
  destruct (Z.leb_spec h (Z.max 0 y)); cbn [orb]; [lia|].
  destruct (Z.leb_spec w (Z.max 0 x)); cbn [orb]; [lia|].
  destruct (pixel_hsv frame (Z.max 0 y) (Z.max 0 x)) as [[h0 h1] h2].
  set (r := detection.nearest_radius_loop x y _ 25 Inf).
  assert (Hr : config.BALL_MIN_RADIUS_PX <= r < config.BALL_MAX_RADIUS_PX).
  { apply nearest_radius_loop_range.
    unfold config.BALL_MIN_RADIUS_PX, config.BALL_MAX_RADIUS_PX. lra. }
  pose proof (int_of_radius r Hr) as Hint.
  replace (IZR (int_of r) <? config.BALL_MIN_RADIUS_PX) with false.
  - repeat split; lia.
  - symmetry. apply Rltb_false. unfold config.BALL_MIN_RADIUS_PX.
    assert (H8 : 8 <= IZR (int_of r)) by (apply IZR_le; lia). lra.
Qed.

(** ** The simulated camera *)

Lemma py_index_none {A : Type} (l : list A) (i : Z) :
  demo_camera.py_index l i = None <->
  (i < - Z.of_nat (length l) \/ Z.of_nat (length l) <= i)%Z.
Proof.
  unfold demo_camera.py_index.
  destruct (Z.ltb_spec i 0).
  - destruct (Z.ltb_spec i (- Z.of_nat (length l))).
    + split; [intros _; left; assumption | reflexivity].
    + rewrite nth_error_None. split; [lia | intros [? | ?]; lia].
  - rewrite nth_error_None. split; [lia | intros [? | ?]; lia].
Qed.

(** X24: in automatic mode the waypoint lookup raises [IndexError] exactly
    when there is no waypoint or the index lies below [-len]; an index at
    or past the end is wrapped to 0 first and is no error. *)
Theorem update_auto_index_error (d : demo_camera.DemoCamera) :
  demo_camera._update_auto d = None <->
  demo_camera._auto_waypoints d = [] \/
  (demo_camera._auto_wp_index d
   < - Z.of_nat (length (demo_camera._auto_waypoints d)))%Z.
Proof.
  unfold demo_camera._update_auto. cbv zeta.
  set (l := demo_camera._auto_waypoints d).
  set (i := demo_camera._auto_wp_index d).
  assert (Hl : l = [] <-> length l = 0%nat) by (destruct l; cbn; split; congruence).
  destruct (Z.leb_spec (Z.of_nat (length l)) i) as [Hge | Hlt].
  - destruct (demo_camera.py_index l 0) as [target|] eqn:E.
    + assert (Hn : demo_camera.py_index l 0 <> None) by congruence.
      rewrite py_index_none in Hn.
      split.
      * destruct (_ <? _); discriminate.
      * rewrite Hl. intros [? | ?]; exfalso; lia.
    + apply py_index_none in E. split; [|reflexivity].
      intros _. left. apply Hl. lia.
  - destruct (demo_camera.py_index l i) as [target|] eqn:E.
    + assert (Hn : demo_camera.py_index l i <> None) by congruence.
      rewrite py_index_none in Hn.
      split.
      * destruct (_ <? _); discriminate.
      * rewrite Hl. intros [? | ?]; exfalso; lia.
    + apply py_index_none in E. split; [|reflexivity].
      intros _. right. lia.
Qed.

Lemma update_auto_ok (d : demo_camera.DemoCamera) :
  demo_camera._auto_waypoints d <> [] ->
  (- Z.of_nat (length (demo_camera._auto_waypoints d))
   <= demo_camera._auto_wp_index d)%Z ->
  exists d',
    demo_camera._update_auto d = Some d' /\
    demo_camera._auto_waypoints d' = demo_camera._auto_waypoints d /\
    (- Z.of_nat (length (demo_camera._auto_waypoints d))
     <= demo_camera._auto_wp_index d')%Z /\
    demo_camera._is_open d' = demo_camera._is_open d /\
    demo_camera._auto_mode d' = demo_camera._auto_mode d /\
    demo_camera._frame_count d' = demo_camera._frame_count d /\
    demo_camera.ball_velocity d' = demo_camera.ball_velocity d.
Proof.
  intros Hne Hidx.
  destruct (demo_camera._update_auto d) as [d'|] eqn:E.
  - exists d'. split; [reflexivity|].
    revert E. unfold demo_camera._update_auto. cbv zeta.
    destruct (Z.leb_spec (Z.of_nat (length (demo_camera._auto_waypoints d)))
                (demo_camera._auto_wp_index d));
      (destruct (demo_camera.py_index _ _); [|discriminate]);
      (destruct (_ <? _); intros [= <-]; cbn; repeat split; lia).
  - apply update_auto_index_error in E. destruct E; [contradiction | lia].
Qed.

Lemma clip_range (x lo hi : R) : lo <= hi -> lo <= demo_camera.clip x lo hi <= hi.
Proof.
  intros H. unfold demo_camera.clip, Rmin, Rmax.
  destruct (Rle_dec x lo); destruct (Rle_dec _ hi); lra.
Qed.

(** What one [read] of an open camera does to a camera whose waypoint
    state is in order. *)
Lemma read_ok (d : demo_camera.DemoCamera) :
  demo_camera._is_open d = true ->
  waypoints_ok d ->
  exists d',
    demo_camera.read d = Some (d', true) /\
    demo_camera._is_open d' = true /\
    waypoints_ok d' /\
    demo_camera._frame_count d' = (demo_camera._frame_count d + 1)%Z /\
    game_engine.is_ball_in_bounds (demo_camera.ball_world_pos d') = true /\
    Rabs (fst (demo_camera.ball_velocity d'))
      <= Rabs (fst (demo_camera.ball_velocity d)) /\
    Rabs (snd (demo_camera.ball_velocity d'))
      <= Rabs (snd (demo_camera.ball_velocity d)).
Proof.
  intros Hopen Hwp. unfold demo_camera.read. rewrite Hopen. cbn [negb].
  assert (Hd1 : exists d1,
             (if demo_camera._auto_mode d then demo_camera._update_auto d else Some d)
             = Some d1 /\
             demo_camera._is_open d1 = true /\
             waypoints_ok d1 /\
             demo_camera._frame_count d1 = demo_camera._frame_count d /\
             demo_camera.ball_velocity d1 = demo_camera.ball_velocity d).
  { destruct (demo_camera._auto_mode d) eqn:Em.
    - destruct (Hwp Em) as (Hne & Hidx).
      destruct (update_auto_ok d Hne Hidx) as (d1 & E & Hw & Hi & Ho & Hm & Hf & Hv).
      exists d1.
      assert (Hw1 : waypoints_ok d1) by (intros _; rewrite Hw; auto).
      repeat (split; [congruence || assumption|]). assumption.
    - exists d. auto 10. }
  destruct Hd1 as (d1 & -> & Ho1 & Hw1 & Hf1 & Hv1).
  cbv zeta. eexists. split; [reflexivity|]. cbn.
  rewrite Hv1. clear Hv1.
  destruct (demo_camera.ball_velocity d) as [vx vy]. cbn [fst snd].
  pose proof (clip_range (fst (demo_camera.ball_world_pos d1) + vx)
                config.BALL_REAL_RADIUS_CM
                (config.PLAY_AREA_WIDTH - config.BALL_REAL_RADIUS_CM)) as Hx.
  pose proof (clip_range (snd (demo_camera.ball_world_pos d1) + vy)
                config.BALL_REAL_RADIUS_CM
                (config.PLAY_AREA_HEIGHT - config.BALL_REAL_RADIUS_CM)) as Hy.
  unfold config.BALL_REAL_RADIUS_CM, config.PLAY_AREA_WIDTH,
    config.PLAY_AREA_HEIGHT in *.
  specialize (Hx ltac:(lra)). specialize (Hy ltac:(lra)).
  split; [exact Ho1|]. split; [exact Hw1|]. split; [lia|].
  split; [|split].
  - unfold game_engine.is_ball_in_bounds. cbv zeta. cbn [fst snd].
    unfold config.BALL_REAL_RADIUS_CM, config.PLAY_AREA_WIDTH,
      config.PLAY_AREA_HEIGHT.
    rewrite !andb_true_iff. repeat split; apply Rleb_true; lra.
  - destruct (norm _ <? 0.01); destruct (_ || _); destruct (_ || _); cbn [fst snd];
      unfold Rabs; repeat destruct Rcase_abs; lra.
  - destruct (norm _ <? 0.01); destruct (_ || _); destruct (_ || _); cbn [fst snd];
      unfold Rabs; repeat destruct Rcase_abs; lra.
Qed.

Lemma reads_ok (n : nat) :
  forall d : demo_camera.DemoCamera,
    demo_camera._is_open d = true ->
    waypoints_ok d ->
    exists d',
      demo_camera.reads n d = Some d' /\
      demo_camera._is_open d' = true /\
      waypoints_ok d' /\
      demo_camera._frame_count d' = (demo_camera._frame_count d + Z.of_nat n)%Z /\
      (n <> 0%nat ->
       game_engine.is_ball_in_bounds (demo_camera.ball_world_pos d') = true) /\
      Rabs (fst (demo_camera.ball_velocity d'))
        <= Rabs (fst (demo_camera.ball_velocity d)) /\
      Rabs (snd (demo_camera.ball_velocity d'))
        <= Rabs (snd (demo_camera.ball_velocity d)).
Proof.
  induction n as [|n IH]; intros d Hopen Hwp.
  - exists d. cbn [demo_camera.reads]. repeat (split; [solve [auto | lia | congruence]|]).
    split; lra.
  - destruct (read_ok d Hopen Hwp) as (d1 & E & Ho1 & Hw1 & Hf1 & Hb1 & Hx1 & Hy1).
    destruct (IH d1 Ho1 Hw1) as (d' & E' & Ho & Hw & Hf & Hb & Hx & Hy).
    exists d'. cbn [demo_camera.reads]. rewrite E.
    split; [exact E'|]. split; [exact Ho|]. split; [exact Hw|]. split; [lia|].
    split; [|split].
    + intros _. destruct n as [|n'].
      * cbn in E'. injection E' as <-. exact Hb1.
      * apply Hb. discriminate.
    + lra.
    + lra.
Qed.

(** X25: on an open camera whose waypoint state is in order, any number of
    reads succeed without an index error, each counts one frame, and after
    the last one the ball lies inside the play area as
    [is_ball_in_bounds] of the game engine tests it. *)
Theorem reads_keep_ball_in_bounds (d : demo_camera.DemoCamera) (n : nat) :
  demo_camera._is_open d = true ->
  waypoints_ok d ->
  exists d',
    demo_camera.reads (S n) d = Some d' /\
    demo_camera._frame_count d' = (demo_camera._frame_count d + Z.of_nat (S n))%Z /\
    game_engine.is_ball_in_bounds (demo_camera.ball_world_pos d') = true.
Proof.
  intros Hopen Hwp.
  destruct (reads_ok (S n) d Hopen Hwp) as (d' & E & _ & _ & Hf & Hb & _).
  exists d'. split; [exact E|]. split; [exact Hf|]. apply Hb. discriminate.
Qed.

Lemma reads_keep_ball_in_bounds_witness :
  let d := demo_camera.mkDemoCamera (57, 3) (5, -4) true 0 true
             [ (10, 10); (50, 10) ] 2 0.5 in
  exists d',
    demo_camera.reads 3 d = Some d' /\
    demo_camera._frame_count d' = (demo_camera._frame_count d + Z.of_nat 3)%Z /\
    game_engine.is_ball_in_bounds (demo_camera.ball_world_pos d') = true.
Proof.
  intros d. apply (reads_keep_ball_in_bounds d 2).
  - reflexivity.
  - intros _. split; [discriminate | cbn; lia].
Defined.

(** X26: friction and bounces never speed the ball up: after any number
    of reads each velocity component is at most as large in magnitude as
    it was, in manual and in automatic mode. *)
Theorem reads_never_speed_up (d : demo_camera.DemoCamera) (n : nat) :
  demo_camera._is_open d = true ->
  waypoints_ok d ->
  exists d',
    demo_camera.reads n d = Some d' /\
    Rabs (fst (demo_camera.ball_velocity d'))
      <= Rabs (fst (demo_camera.ball_velocity d)) /\
    Rabs (snd (demo_camera.ball_velocity d'))
      <= Rabs (snd (demo_camera.ball_velocity d)).
Proof.
  intros Hopen Hwp.
  destruct (reads_ok n d Hopen Hwp) as (d' & E & _ & _ & _ & _ & Hx & Hy).
  exists d'. auto.
Qed.

Lemma reads_never_speed_up_witness :
  let d := demo_camera.mkDemoCamera (57, 3) (5, -4) true 0 true
             [ (10, 10); (50, 10) ] 2 0.5 in
  exists d',
    demo_camera.reads 4 d = Some d' /\
    Rabs (fst (demo_camera.ball_velocity d'))
      <= Rabs (fst (demo_camera.ball_velocity d)) /\
    Rabs (snd (demo_camera.ball_velocity d'))
      <= Rabs (snd (demo_camera.ball_velocity d)).
Proof.
  intros d. apply (reads_never_speed_up d 4).
  - reflexivity.
  - intros _. split; [discriminate | cbn; lia].
Defined.

(** ** The trail of the viewer *)

Lemma add_trail_point_recent (l : list point) (m : Z) (pt : point) :
  (0 < m)%Z ->
  ar_viewer.add_trail_point (Some pt) (ar_viewer.mkARViewer l m)
  = ar_viewer.mkARViewer
      (skipn (length (l ++ [pt]) - Z.to_nat m) (l ++ [pt])) m.
Proof.
  intros Hm. unfold ar_viewer.add_trail_point. cbv zeta.
  cbn [ar_viewer._max_trail ar_viewer.trail_image_points].
  destruct (Z.ltb_spec m (Z.of_nat (length (l ++ [pt])))) as [Hlt | Hge].
  - unfold slice_from. destruct (Z.ltb_spec (- m) 0); [|lia].
    f_equal. f_equal. lia.
  - replace (length (l ++ [pt]) - Z.to_nat m)%nat with 0%nat by lia. reflexivity.
Qed.

Lemma skipn_recent_app {A : Type} (k : nat) (a b : list A) :
  let recent := skipn (length a - k) a in
  skipn (length (recent ++ b) - k) (recent ++ b)
  = skipn (length (a ++ b) - k) (a ++ b).
Proof.
  cbv zeta. rewrite !skipn_app, skipn_skipn, !length_app, !length_skipn.
  f_equal; f_equal; lia.
Qed.

(** X27: with a positive trail limit and a trail within it, after any
    sequence of [add_trail_point] calls the trail is exactly the most
    recent [_max_trail] points of the old trail followed by the points
    given, calls with [None] leaving no mark. *)
Theorem trail_is_most_recent_points (pts : list (option point)) :
  forall v : ar_viewer.ARViewer,
    (0 < ar_viewer._max_trail v)%Z ->
    (Z.of_nat (length (ar_viewer.trail_image_points v)) <= ar_viewer._max_trail v)%Z ->
    let all := ar_viewer.trail_image_points v ++ detected pts in
    ar_viewer.add_trail_points pts v
    = ar_viewer.mkARViewer
        (skipn (length all - Z.to_nat (ar_viewer._max_trail v)) all)
        (ar_viewer._max_trail v).
Proof.
  induction pts as [|[pt|] pts IH]; intros [l m] Hm Hlen;
    cbn [ar_viewer._max_trail ar_viewer.trail_image_points] in *; cbv zeta.
  - cbn [detected flat_map ar_viewer.add_trail_points fold_left].
    rewrite app_nil_r.
    replace (length l - Z.to_nat m)%nat with 0%nat by lia. reflexivity.
  - unfold ar_viewer.add_trail_points. cbn [fold_left].
    rewrite (add_trail_point_recent l m pt Hm).
    fold (ar_viewer.add_trail_points pts
            (ar_viewer.mkARViewer
               (skipn (length (l ++ [pt]) - Z.to_nat m) (l ++ [pt])) m)).
    rewrite IH; cbn [ar_viewer._max_trail ar_viewer.trail_image_points].
    + cbn [detected flat_map]. fold (detected pts).
      rewrite skipn_recent_app. rewrite <- !app_assoc. reflexivity.
    + exact Hm.
    + rewrite length_skipn, length_app. cbn [length]. lia.
  - unfold ar_viewer.add_trail_points. cbn [fold_left ar_viewer.add_trail_point].
    fold (ar_viewer.add_trail_points pts (ar_viewer.mkARViewer l m)).
    rewrite IH; cbn [ar_viewer._max_trail ar_viewer.trail_image_points]; auto.
Qed.

Lemma trail_is_most_recent_points_witness :
  let pts := [ Some (1, 2); None; Some (3, 4) ] in
  let v := ar_viewer.ARViewer_init in
  let all := ar_viewer.trail_image_points v ++ detected pts in
  ar_viewer.add_trail_points pts v
  = ar_viewer.mkARViewer
      (skipn (length all - Z.to_nat (ar_viewer._max_trail v)) all)
      (ar_viewer._max_trail v).
Proof.
  intros pts v.
  apply (trail_is_most_recent_points pts v); cbn; lia.
Defined.

(** * Properties that depend on rounding *)

(** ** The exact embedding is the floating one without rounding *)

Lemma exact_image_to_world (c : HomographyCalibrator) (p : point) :
  floating.image_to_world (floating.rounded (fun x => x)) (lift_calibrator c) p
  = image_to_world c p.
Proof.
  unfold floating.image_to_world, image_to_world, lift_calibrator. cbn.
  destruct (_calibration_done c); [|reflexivity]. cbn.
  destruct (H c) as [h|]; reflexivity.
Qed.

Lemma exact_world_to_image (c : HomographyCalibrator) (p : point) :
  floating.world_to_image (floating.rounded (fun x => x)) (lift_calibrator c) p
  = world_to_image c p.
Proof.
  unfold floating.world_to_image, world_to_image, lift_calibrator. cbn.
  destruct (_calibration_done c); [|reflexivity]. cbn.
  destruct (H_inv c) as [h|]; reflexivity.
Qed.

Lemma exact_correct_height (pp : PlanarPositioner) (ap : option point) (h : R) :
  floating.correct_height (floating.rounded (fun x => x)) (lift_positioner pp) ap h
  = correct_height pp ap h.
Proof.
  unfold floating.correct_height, correct_height, lift_positioner. cbn.
  destruct ap as [ap|]; [|reflexivity].
  destruct (Rabs h <? 1e-6); [reflexivity|].
  destruct (_camera_center_world pp) as [[[Cx Cy] Cz]|]; reflexivity.
Qed.

(** ** Rounding errors *)

Lemma rnd_up_error : rounding_error rnd_up u_binary64.
Proof.
  intros x. unfold rnd_up.
  replace (x * (1 + u_binary64) - x) with (u_binary64 * x) by ring.
  rewrite Rabs_mult, (Rabs_pos_eq u_binary64) by (unfold u_binary64; lra). lra.
Qed.

Section RoundingError.

Variable rnd : R -> R.
Variable u : R.
Hypothesis Hu : 0 <= u.
Hypothesis Hu1 : u < 1.
Hypothesis Hrnd : rounding_error rnd u.

Lemma rnd_ge_pos (x : R) : 0 <= x -> (1 - u) * x <= rnd x.
Proof.
  intros Hx. pose proof (Hrnd x) as H. rewrite (Rabs_pos_eq x) in H by lra.
  pose proof (Rle_abs (x - rnd x)) as H'. rewrite Rabs_minus_sym in H'. lra.
Qed.

Lemma rnd_le_pos (x : R) : 0 <= x -> rnd x <= (1 + u) * x.
Proof.
  intros Hx. pose proof (Hrnd x) as H. rewrite (Rabs_pos_eq x) in H by lra.
  pose proof (Rle_abs (rnd x - x)) as H'. lra.
Qed.

Lemma rnd_le_neg (x : R) : x <= 0 -> rnd x <= (1 - u) * x.
Proof.
  intros Hx. pose proof (Hrnd x) as H. rewrite (Rabs_left1 x) in H by lra.
  pose proof (Rle_abs (rnd x - x)) as H'. lra.
Qed.

Lemma rnd_pos (x : R) : 0 < x -> 0 < rnd x.
Proof. intros Hx. pose proof (rnd_ge_pos x ltac:(lra)). nra. Qed.

Lemma rnd_zero : rnd 0 = 0.
Proof.
  pose proof (Hrnd 0) as H. rewrite Rabs_R0, Rmult_0_r, Rminus_0_r in H.
  destruct (Req_dec (rnd 0) 0) as [E | E]; [exact E|].
  apply Rabs_pos_lt in E. lra.
Qed.

(** The error of a sum of two approximations, rounded. *)
Lemma rnd_add_err (s t s' t' es et : R) :
  Rabs (s' - s) <= es -> Rabs (t' - t) <= et ->
  Rabs (rnd (s' + t') - (s + t))
  <= (1 + u) * (es + et) + u * (Rabs s + Rabs t).
Proof.
  intros Hs Ht.
  pose proof (Hrnd (s' + t')) as Hr.
  assert (H1 : Rabs (s' + t') <= Rabs s + Rabs t + es + et).
  { replace (s' + t') with (((s' - s) + (t' - t)) + (s + t)) by ring.
    pose proof (Rabs_triang ((s' - s) + (t' - t)) (s + t)).
    pose proof (Rabs_triang (s' - s) (t' - t)).
    pose proof (Rabs_triang s t). lra. }
  replace (rnd (s' + t') - (s + t))
    with ((rnd (s' + t') - (s' + t')) + ((s' - s) + (t' - t))) by ring.
  pose proof (Rabs_triang (rnd (s' + t') - (s' + t')) ((s' - s) + (t' - t))).
  pose proof (Rabs_triang (s' - s) (t' - t)).
  assert (u * Rabs (s' + t') <= u * (Rabs s + Rabs t + es + et))
    by (apply Rmult_le_compat_l; lra).
  lra.
Qed.

(** A dot product of three terms goes through three roundings. *)
Lemma dot3_error (a b c x y z : R) :
  Rabs (rnd (rnd (rnd (a * x) + rnd (b * y)) + rnd (c * z))
        - (a * x + b * y + c * z))
  <= ((1 + u) ^ 3 - 1) * (Rabs a * Rabs x + Rabs b * Rabs y + Rabs c * Rabs z).
Proof.
  rewrite <- !Rabs_mult.
  pose proof (Hrnd (a * x)) as H1. pose proof (Hrnd (b * y)) as H2.
  pose proof (Hrnd (c * z)) as H3.
  pose proof (Rabs_pos (a * x)) as P1. pose proof (Rabs_pos (b * y)) as P2.
  pose proof (Rabs_pos (c * z)) as P3.
  pose proof (rnd_add_err (a * x) (b * y) _ _ _ _ H1 H2) as H12.
  pose proof (rnd_add_err (a * x + b * y) (c * z) _ _ _ _ H12 H3) as H.
  eapply Rle_trans; [exact H|].
  assert (Rabs (a * x + b * y) <= Rabs (a * x) + Rabs (b * y)) by apply Rabs_triang.
  set (A := Rabs (a * x)) in *. set (B := Rabs (b * y)) in *.
  set (C := Rabs (c * z)) in *. set (S := Rabs (a * x + b * y)) in *.
  assert (0 <= u * u) by nra.
  assert (0 <= u * u * u) by nra.
  assert (u * S <= u * (A + B)) by nra.
  nra.
Qed.

(** A linear form applied to approximations. *)
Lemma lin3_err (b0 b1 b2 x0 x1 x2 m0 m1 m2 a0 a1 a2 c : R) :
  Rabs (x0 - m0) <= c * a0 -> Rabs (x1 - m1) <= c * a1 -> Rabs (x2 - m2) <= c * a2 ->
  Rabs ((b0 * x0 + b1 * x1 + b2 * x2) - (b0 * m0 + b1 * m1 + b2 * m2))
  <= c * (Rabs b0 * a0 + Rabs b1 * a1 + Rabs b2 * a2).
Proof.
  intros H0 H1 H2.
  replace ((b0 * x0 + b1 * x1 + b2 * x2) - (b0 * m0 + b1 * m1 + b2 * m2))
    with (b0 * (x0 - m0) + b1 * (x1 - m1) + b2 * (x2 - m2)) by ring.
  pose proof (Rabs_triang (b0 * (x0 - m0) + b1 * (x1 - m1)) (b2 * (x2 - m2))).
  pose proof (Rabs_triang (b0 * (x0 - m0)) (b1 * (x1 - m1))).
  rewrite !Rabs_mult in *.
  pose proof (Rabs_pos b0). pose proof (Rabs_pos b1). pose proof (Rabs_pos b2).
  assert (Rabs b0 * Rabs (x0 - m0) <= Rabs b0 * (c * a0)) by (apply Rmult_le_compat_l; lra).
  assert (Rabs b1 * Rabs (x1 - m1) <= Rabs b1 * (c * a1)) by (apply Rmult_le_compat_l; lra).
  assert (Rabs b2 * Rabs (x2 - m2) <= Rabs b2 * (c * a2)) by (apply Rmult_le_compat_l; lra).
  lra.
Qed.

Lemma abs_near (x m a c : R) :
  Rabs m <= a -> Rabs (x - m) <= c * a -> Rabs x <= (1 + c) * a.
Proof.
  intros Hm Hx. replace x with ((x - m) + m) by ring.
  pose proof (Rabs_triang (x - m) m). lra.
Qed.

Lemma abs3_near (b0 b1 b2 x0 x1 x2 a0 a1 a2 c : R) :
  Rabs x0 <= (1 + c) * a0 -> Rabs x1 <= (1 + c) * a1 -> Rabs x2 <= (1 + c) * a2 ->
  Rabs b0 * Rabs x0 + Rabs b1 * Rabs x1 + Rabs b2 * Rabs x2
  <= (1 + c) * (Rabs b0 * a0 + Rabs b1 * a1 + Rabs b2 * a2).
Proof.
  intros H0 H1 H2.
  pose proof (Rabs_pos b0). pose proof (Rabs_pos b1). pose proof (Rabs_pos b2).
  assert (Rabs b0 * Rabs x0 <= Rabs b0 * ((1 + c) * a0)) by (apply Rmult_le_compat_l; lra).
  assert (Rabs b1 * Rabs x1 <= Rabs b1 * ((1 + c) * a1)) by (apply Rmult_le_compat_l; lra).
  assert (Rabs b2 * Rabs x2 <= Rabs b2 * ((1 + c) * a2)) by (apply Rmult_le_compat_l; lra).
  lra.
Qed.

(** A rounded quotient, scaled back by its denominator. *)
Lemma rnd_div_scaled (v t m a : R) :
  t <> 0 -> 0 <= a -> Rabs m <= a ->
  Rabs (v - m) <= ((1 + u) ^ 3 - 1) * a ->
  Rabs (t * rnd (v / t) - m) <= ((1 + u) ^ 4 - 1) * a.
Proof.
  intros Ht Ha Hm Hv.
  replace (t * rnd (v / t) - m) with (t * (rnd (v / t) - v / t) + (v - m))
    by (field; exact Ht).
  pose proof (Rabs_triang (t * (rnd (v / t) - v / t)) (v - m)) as Htri.
  rewrite Rabs_mult in Htri.
  pose proof (Hrnd (v / t)) as Hr.
  assert (Hq : Rabs t * Rabs (v / t) = Rabs v).
  { rewrite <- Rabs_mult. f_equal. field. exact Ht. }
  assert (Rabs t * Rabs (rnd (v / t) - v / t) <= u * Rabs v).
  { rewrite <- Hq. pose proof (Rabs_pos t).
    replace (u * (Rabs t * Rabs (v / t))) with (Rabs t * (u * Rabs (v / t))) by ring.
    apply Rmult_le_compat_l; lra. }
  pose proof (abs_near v m a _ Hm Hv) as Hva.
  assert (0 <= u * u) by nra. assert (0 <= u * u * u) by nra.
  assert (u * Rabs v <= u * ((1 + ((1 + u) ^ 3 - 1)) * a)) by (apply Rmult_le_compat_l; lra).
  nra.
Qed.

(** The rounded quotient of two scaled approximations of [P] and 1. *)
Lemma rnd_quotient_err (t w wd P e ed E Ed : R) :
  t * w = P + e -> t * wd = 1 + ed ->
  Rabs e <= E -> Rabs ed <= Ed -> Ed <= 1 / 2 ->
  Rabs (rnd (w / wd) - P) <= 2 * ((1 + u) * E + (u + Ed) * Rabs P).
Proof.
  intros Hw Hwd He Hed HEd.
  assert (Hden : 1 / 2 <= Rabs (1 + ed)).
  { pose proof (Rabs_triang (1 + ed) (- ed)) as Ht.
    replace (1 + ed + - ed) with 1 in Ht by ring.
    rewrite Rabs_R1, Rabs_Ropp in Ht. lra. }
  assert (Hne : 1 + ed <> 0).
  { intros E0. rewrite E0, Rabs_R0 in Hden. lra. }
  assert (Ht : t <> 0).
  { intros ->. rewrite Rmult_0_l in Hwd. lra. }
  assert (Hwd0 : wd <> 0).
  { intros ->. rewrite Rmult_0_r in Hwd. lra. }
  assert (Hrho : w / wd = (P + e) / (1 + ed)).
  { rewrite <- Hw, <- Hwd. field. split; assumption. }
  rewrite Hrho. set (rho := (P + e) / (1 + ed)).
  assert (Hinv : Rabs (/ (1 + ed)) <= 2).
  { rewrite Rabs_inv.
    assert (0 < Rabs (1 + ed)) by lra.
    apply (Rmult_le_reg_l (Rabs (1 + ed))); [assumption|].
    rewrite Rinv_r by lra. lra. }
  assert (H1 : Rabs (rho - P) <= 2 * (E + Rabs P * Ed)).
  { replace (rho - P) with ((e - P * ed) * / (1 + ed)) by (unfold rho; field; exact Hne).
    rewrite Rabs_mult.
    pose proof (Rabs_triang e (- (P * ed))) as Htr.
    rewrite Rabs_Ropp, Rabs_mult in Htr.
    pose proof (Rabs_pos P). pose proof (Rabs_pos ed). pose proof (Rabs_pos e).
    assert (Rabs P * Rabs ed <= Rabs P * Ed) by (apply Rmult_le_compat_l; lra).
    assert (Hn : Rabs (e - P * ed) <= E + Rabs P * Ed) by (unfold Rminus; lra).
    pose proof (Rabs_pos (e - P * ed)). pose proof (Rabs_pos (/ (1 + ed))).
    nra. }
  assert (H2 : Rabs rho <= 2 * (Rabs P + E)).
  { unfold rho, Rdiv. rewrite Rabs_mult.
    pose proof (Rabs_triang P e). pose proof (Rabs_pos (P + e)).
    pose proof (Rabs_pos (/ (1 + ed))). nra. }
  pose proof (Hrnd rho) as Hr.
  replace (rnd rho - P) with ((rnd rho - rho) + (rho - P)) by ring.
  pose proof (Rabs_triang (rnd rho - rho) (rho - P)).
  assert (u * Rabs rho <= u * (2 * (Rabs P + E))) by (apply Rmult_le_compat_l; lra).
  lra.
Qed.

Lemma mat_vec_error (M : floating.mat3 R) (x y z : R) :
  let '(v0, v1, v2) := floating.mat_vec (floating.rounded rnd) M (x, y, z) in
  let '(n0, n1, n2) := exact_apply M (x, y, z) in
  let '(a0, a1, a2) := abs_apply M (Rabs x, Rabs y, Rabs z) in
  Rabs (v0 - n0) <= ((1 + u) ^ 3 - 1) * a0 /\
  Rabs (v1 - n1) <= ((1 + u) ^ 3 - 1) * a1 /\
  Rabs (v2 - n2) <= ((1 + u) ^ 3 - 1) * a2.
Proof.
  cbn. repeat split; apply dot3_error.
Qed.

Lemma exact_apply_abs (M : floating.mat3 R) (x y z : R) :
  let '(n0, n1, n2) := exact_apply M (x, y, z) in
  let '(a0, a1, a2) := abs_apply M (Rabs x, Rabs y, Rabs z) in
  Rabs n0 <= a0 /\ Rabs n1 <= a1 /\ Rabs n2 <= a2.
Proof.
  cbn. rewrite <- !Rabs_mult.
  repeat split;
    (eapply Rle_trans; [apply Rabs_triang|];
     apply Rplus_le_compat_r; apply Rabs_triang).
Qed.

Lemma abs_apply_nonneg (M : floating.mat3 R) (x y z : R) :
  0 <= x -> 0 <= y -> 0 <= z ->
  let '(a0, a1, a2) := abs_apply M (x, y, z) in
  0 <= a0 /\ 0 <= a1 /\ 0 <= a2.
Proof.
  intros Hx Hy Hz. cbn.
  pose proof (Rabs_pos (floating.m00 M)). pose proof (Rabs_pos (floating.m01 M)).
  pose proof (Rabs_pos (floating.m02 M)). pose proof (Rabs_pos (floating.m10 M)).
  pose proof (Rabs_pos (floating.m11 M)). pose proof (Rabs_pos (floating.m12 M)).
  pose proof (Rabs_pos (floating.m20 M)). pose proof (Rabs_pos (floating.m21 M)).
  pose proof (Rabs_pos (floating.m22 M)).
  repeat split; nra.
Qed.

Lemma project_some (M : floating.mat3 R) (pt Q : point) :
  project rnd M pt = Some Q ->
  exists v0 v1 v2,
    floating.mat_vec (floating.rounded rnd) M (fst pt, snd pt, 1) = (v0, v1, v2) /\
    v2 <> 0 /\ Q = (rnd (v0 / v2), rnd (v1 / v2)).
Proof.
  unfold project.
  destruct (floating.mat_vec _ M _) as [[v0 v1] v2].
  destruct (Rabs v2 <? rnd 1e-10) eqn:E; [discriminate|].
  intros [= <-]. exists v0, v1, v2. repeat split.
  apply Rltb_false in E. intros ->. apply E. rewrite Rabs_R0.
  apply rnd_pos. lra.
Qed.

(** Mapping [P] by [A] and the result by [B]: the outcome is within the
    budget of [P]. *)
Lemma roundtrip_bound (A B : floating.mat3 R) (P Q P' : point) :
  project rnd A P = Some Q ->
  project rnd B Q = Some P' ->
  let '(E0, E1, E2) := roundtrip_budget u B A P in
  E2 <= 1 / 2 ->
  Rabs (fst P' - fst P) <= 2 * ((1 + u) * E0 + (u + E2) * Rabs (fst P)) /\
  Rabs (snd P' - snd P) <= 2 * ((1 + u) * E1 + (u + E2) * Rabs (snd P)).
Proof.
  intros HQ HP'.
  destruct (project_some _ _ _ HQ) as (v0 & v1 & t & Ev & Ht & ->).
  destruct (project_some _ _ _ HP') as (w0 & w1 & w2 & Ew & Hw2 & ->).
  cbn [fst snd] in *.
  pose proof (mat_vec_error A (fst P) (snd P) 1) as HeA. rewrite Ev in HeA.
  pose proof (exact_apply_abs A (fst P) (snd P) 1) as HaA.
  pose proof (abs_apply_nonneg A (Rabs (fst P)) (Rabs (snd P)) (Rabs 1)
                (Rabs_pos _) (Rabs_pos _) (Rabs_pos _)) as HnA.
  set (Q0 := rnd (v0 / t)) in *. set (Q1 := rnd (v1 / t)) in *.
  pose proof (mat_vec_error B Q0 Q1 1) as HeB. rewrite Ew in HeB.
  unfold roundtrip_budget. cbn [fst snd].
  rewrite Rabs_R1 in *.
  destruct (exact_apply A (fst P, snd P, 1)) as [[m0 m1] m2] eqn:Em.
  destruct (abs_apply A (Rabs (fst P), Rabs (snd P), 1)) as [[a0 a1] a2] eqn:Ea.
  destruct HeA as (HeA0 & HeA1 & HeA2). destruct HaA as (HaA0 & HaA1 & HaA2).
  destruct HnA as (Hn0 & Hn1 & Hn2).
  assert (Hg34 : (1 + u) ^ 3 - 1 <= (1 + u) ^ 4 - 1).
  { assert (0 <= (1 + u) ^ 3) by (apply pow_le; lra). nra. }
  assert (Hd0 : Rabs (t * Q0 - m0) <= ((1 + u) ^ 4 - 1) * a0)
    by (apply rnd_div_scaled; assumption).
  assert (Hd1 : Rabs (t * Q1 - m1) <= ((1 + u) ^ 4 - 1) * a1)
    by (apply rnd_div_scaled; assumption).
  assert (Hd2 : Rabs (t - m2) <= ((1 + u) ^ 4 - 1) * a2) by nra.
  pose proof (abs_near _ _ _ _ HaA0 Hd0) as Hx0.
  pose proof (abs_near _ _ _ _ HaA1 Hd1) as Hx1.
  pose proof (abs_near _ _ _ _ HaA2 Hd2) as Hx2.
  unfold exact_apply at 1. unfold abs_apply at 1.
  unfold exact_apply, abs_apply in HeB.
  destruct HeB as (HeB0 & HeB1 & HeB2).
  assert (Hcomp : forall b0 b1 b2 w p,
     Rabs (w - (b0 * Q0 + b1 * Q1 + b2 * 1))
       <= ((1 + u) ^ 3 - 1) * (Rabs b0 * Rabs Q0 + Rabs b1 * Rabs Q1 + Rabs b2 * 1) ->
     Rabs (t * w - p)
       <= Rabs (b0 * m0 + b1 * m1 + b2 * m2 - p)
          + ((1 + u) ^ 7 - 1) * (Rabs b0 * a0 + Rabs b1 * a1 + Rabs b2 * a2)).
  { intros b0 b1 b2 w p Hw.
    set (K := Rabs b0 * a0 + Rabs b1 * a1 + Rabs b2 * a2).
    assert (HK : 0 <= K).
    { pose proof (Rabs_pos b0). pose proof (Rabs_pos b1). pose proof (Rabs_pos b2).
      unfold K. nra. }
    pose proof (lin3_err b0 b1 b2 _ _ _ _ _ _ _ _ _ _ Hd0 Hd1 Hd2) as Hlin.
    fold K in Hlin.
    pose proof (abs3_near b0 b1 b2 _ _ _ _ _ _ _ Hx0 Hx1 Hx2) as Habs.
    fold K in Habs. rewrite !Rabs_mult in Habs.
    assert (Htw : Rabs (t * (w - (b0 * Q0 + b1 * Q1 + b2 * 1)))
                  <= ((1 + u) ^ 3 - 1) * ((1 + ((1 + u) ^ 4 - 1)) * K)).
    { rewrite Rabs_mult.
      assert (Hg3 : 0 <= (1 + u) ^ 3 - 1).
      { assert (1 <= (1 + u) ^ 3) by (apply pow_R1_Rle; lra). lra. }
      eapply Rle_trans.
      - apply Rmult_le_compat_l; [apply Rabs_pos | exact Hw].
      - replace (Rabs t * (((1 + u) ^ 3 - 1)
                   * (Rabs b0 * Rabs Q0 + Rabs b1 * Rabs Q1 + Rabs b2 * 1)))
          with (((1 + u) ^ 3 - 1)
                * (Rabs b0 * (Rabs t * Rabs Q0) + Rabs b1 * (Rabs t * Rabs Q1)
                   + Rabs b2 * Rabs t)) by ring.
        apply Rmult_le_compat_l; [exact Hg3 | exact Habs]. }
    replace (t * w - p)
      with ((b0 * (t * Q0) + b1 * (t * Q1) + b2 * t - (b0 * m0 + b1 * m1 + b2 * m2))
            + (b0 * m0 + b1 * m1 + b2 * m2 - p)
            + t * (w - (b0 * Q0 + b1 * Q1 + b2 * 1))) by ring.
    eapply Rle_trans; [apply Rabs_triang|].
    eapply Rle_trans; [apply Rplus_le_compat_r; apply Rabs_triang|].
    replace ((1 + u) ^ 7 - 1)
      with (((1 + u) ^ 4 - 1) + ((1 + u) ^ 3 - 1) * (1 + ((1 + u) ^ 4 - 1))) by ring.
    lra. }
  intros HE2.
  pose proof (Hcomp _ _ _ w0 (fst P) HeB0) as He0.
  pose proof (Hcomp _ _ _ w1 (snd P) HeB1) as He1.
  pose proof (Hcomp _ _ _ w2 1 HeB2) as He2.
  split.
  - apply (rnd_quotient_err t w0 w2 (fst P) (t * w0 - fst P) (t * w2 - 1));
      [ring | ring | exact He0 | exact He2 | exact HE2].
  - apply (rnd_quotient_err t w1 w2 (snd P) (t * w1 - snd P) (t * w2 - 1));
      [ring | ring | exact He1 | exact He2 | exact HE2].
Qed.

(** The correction factor as computed is at least the exact one less
    three roundings. *)
Lemma factor_lower_bound (Cz h : R) :
  0 < h < Cz ->
  (1 - u) * Cz / ((1 + u) * (Cz - h)) <= rnd (Cz / rnd (Cz - h)).
Proof.
  intros [Hh Hz].
  assert (HD : 0 < Cz - h) by lra.
  pose proof (rnd_ge_pos (Cz - h) ltac:(lra)) as Hlo.
  pose proof (rnd_le_pos (Cz - h) ltac:(lra)) as Hhi.
  set (d := rnd (Cz - h)) in *.
  assert (Hd : 0 < d) by nra.
  assert (Hinv : / ((1 + u) * (Cz - h)) <= / d).
  { apply Rinv_le_contravar; [exact Hd | exact Hhi]. }
  assert (Hq : 0 < Cz / d) by (apply Rdiv_lt_0_compat; lra).
  pose proof (rnd_ge_pos (Cz / d) ltac:(lra)) as Hk.
  eapply Rle_trans; [|exact Hk].
  unfold Rdiv.
  replace ((1 - u) * Cz * / ((1 + u) * (Cz - h)))
    with ((1 - u) * (Cz * / ((1 + u) * (Cz - h)))) by ring.
  apply Rmult_le_compat_l; [lra|].
  apply Rmult_le_compat_l; [lra | exact Hinv].
Qed.

(** One coordinate of the corrected point, when the factor is at least
    [klo] and the offset is not lost in the rounding of [c]. *)
Lemma coordinate_moves_away (c x k klo : R) :
  klo <= k ->
  u * Rabs c < ((1 - u) ^ 3 * klo - 1) * Rabs (x - c) ->
  let X := rnd (c + rnd (k * rnd (x - c))) in
  Rabs (x - c) < Rabs (X - c) /\ 0 < (X - c) * (x - c).
Proof.
  intros Hk Hm X.
  pose proof (Rabs_pos c) as Hc. pose proof (Rabs_pos (x - c)) as HD.
  assert (Hu3 : 0 < (1 - u) ^ 3) by (apply pow_lt; lra).
  assert (Hu2 : 0 < (1 - u) ^ 2) by (apply pow_lt; lra).
  assert (Hgain : 0 < (1 - u) ^ 3 * klo - 1) by nra.
  assert (HDpos : 0 < Rabs (x - c)) by nra.
  assert (Hklo : 0 < klo) by nra.
  assert (Hkpos : 0 < k) by lra.
  assert (Hkk : (1 - u) ^ 3 * klo <= (1 - u) ^ 3 * k)
    by (apply Rmult_le_compat_l; lra).
  pose proof (Hrnd (c + rnd (k * rnd (x - c)))) as HX. fold X in HX.
  pose proof (Rabs_triang c (rnd (k * rnd (x - c)))) as Htri.
  destruct (Rle_lt_dec 0 (x - c)) as [Hpos | Hneg].
  - rewrite (Rabs_pos_eq (x - c)) in * by lra.
    pose proof (rnd_ge_pos (x - c) Hpos) as Ha.
    set (a := rnd (x - c)) in *.
    assert (Ha0 : 0 <= a) by nra.
    assert (Hka : 0 <= k * a) by nra.
    pose proof (rnd_ge_pos (k * a) Hka) as Hb.
    set (b := rnd (k * a)) in *.
    assert (Hb0 : 0 <= b) by nra.
    rewrite (Rabs_pos_eq b) in Htri by lra.
    assert (Hb3 : (1 - u) ^ 2 * k * (x - c) <= b).
    { assert ((1 - u) * (k * ((1 - u) * (x - c))) <= (1 - u) * (k * a)).
      { apply Rmult_le_compat_l; [lra|]. apply Rmult_le_compat_l; lra. }
      nra. }
    assert (HXlo : (1 - u) * b - u * Rabs c <= X - c).
    { pose proof (Rle_abs (c + b - X)) as H'. rewrite Rabs_minus_sym in H'.
      assert (u * Rabs (c + b) <= u * (Rabs c + b))
        by (apply Rmult_le_compat_l; lra).
      lra. }
    assert (Hb4 : (1 - u) ^ 3 * k * (x - c) <= (1 - u) * b).
    { replace ((1 - u) ^ 3 * k * (x - c))
        with ((1 - u) * ((1 - u) ^ 2 * k * (x - c))) by ring.
      apply Rmult_le_compat_l; lra. }
    assert (Hfar : x - c < X - c) by nra.
    split.
    + rewrite (Rabs_pos_eq (X - c)) by lra. exact Hfar.
    + nra.
  - rewrite (Rabs_left (x - c)) in * by lra.
    pose proof (rnd_le_neg (x - c) ltac:(lra)) as Ha.
    set (a := rnd (x - c)) in *.
    assert (Ha0 : a <= 0) by nra.
    assert (Hka : k * a <= 0) by nra.
    pose proof (rnd_le_neg (k * a) Hka) as Hb.
    set (b := rnd (k * a)) in *.
    assert (Hb0 : b <= 0) by nra.
    rewrite (Rabs_left1 b) in Htri by lra.
    assert (Hb3 : b <= (1 - u) ^ 2 * k * (x - c)).
    { assert ((1 - u) * (k * a) <= (1 - u) * (k * ((1 - u) * (x - c)))).
      { apply Rmult_le_compat_l; [lra|]. apply Rmult_le_compat_l; lra. }
      nra. }
    assert (HXhi : X - c <= (1 - u) * b + u * Rabs c).
    { pose proof (Rle_abs (X - (c + b))) as H'.
      assert (u * Rabs (c + b) <= u * (Rabs c + - b))
        by (apply Rmult_le_compat_l; lra).
      lra. }
    assert (Hb4 : (1 - u) * b <= (1 - u) ^ 3 * k * (x - c)).
    { replace ((1 - u) ^ 3 * k * (x - c))
        with ((1 - u) * ((1 - u) ^ 2 * k * (x - c))) by ring.
      apply Rmult_le_compat_l; lra. }
    assert (Hfar : X - c < x - c) by nra.
    split.
    + rewrite (Rabs_left (X - c)) by lra. lra.
    + nra.
Qed.

End RoundingError.

(** ** Round trip through the two transforms *)

Lemma world_to_image_project (rnd : R -> R) (c : floating.HomographyCalibrator R)
    (hi : floating.mat3 R) (P : point) :
  floating._calibration_done c = true ->
  floating.H_inv c = Some hi ->
  floating.world_to_image (floating.rounded rnd) c P = Ret (project rnd hi P).
Proof.
  intros Hd Hhi. unfold floating.world_to_image, project. rewrite Hd, Hhi.
  cbn [negb floating.c_1 floating.rounded floating.fltb floating.fabs
       floating.c_1em10 floating.fdiv].
  destruct (floating.mat_vec _ hi _) as [[q0 q1] q2].
  destruct (Rabs q2 <? rnd 1e-10); reflexivity.
Qed.

Lemma image_to_world_project (rnd : R -> R) (c : floating.HomographyCalibrator R)
    (h : floating.mat3 R) (q : point) :
  floating._calibration_done c = true ->
  floating.H c = Some h ->
  floating.image_to_world (floating.rounded rnd) c q = Ret (project rnd h q).
Proof.
  intros Hd Hh. unfold floating.image_to_world, project. rewrite Hd, Hh.
  cbn [negb floating.c_1 floating.rounded floating.fltb floating.fabs
       floating.c_1em10 floating.fdiv].
  destruct (floating.mat_vec _ h _) as [[w0 w1] w2].
  destruct (Rabs w2 <? rnd 1e-10); reflexivity.
Qed.

Lemma project_defined (rnd : R -> R) (M : floating.mat3 R) (pt : point) :
  ~ Rabs (snd (floating.mat_vec (floating.rounded rnd) M (fst pt, snd pt, 1)))
    < rnd 1e-10 ->
  exists Q, project rnd M pt = Some Q.
Proof.
  intros Hg. unfold project.
  destruct (floating.mat_vec _ M _) as [[v0 v1] v2]. cbn [snd] in Hg.
  replace (Rabs v2 <? rnd 1e-10) with false
    by (symmetry; apply Rltb_false; exact Hg).
  eexists. reflexivity.
Qed.

Lemma roundtrip_within (rnd : R -> R) (u tol : R) (A B : floating.mat3 R)
    (P Q P' : point) :
  rounding_error rnd u -> 0 <= u < 1 ->
  project rnd A P = Some Q ->
  project rnd B Q = Some P' ->
  well_conditioned u tol B A P ->
  point_within_rel tol P' P.
Proof.
  intros Hr [Hu0 Hu1] HQ HP' Hwc.
  pose proof (roundtrip_bound rnd u Hu0 Hu1 Hr A B P Q P' HQ HP') as Hb.
  unfold well_conditioned in Hwc.
  destruct (roundtrip_budget u B A P) as [[E0 E1] E2].
  destruct Hwc as (H2 & H0 & H1). destruct (Hb H2) as (Hb0 & Hb1).
  split; unfold within_rel; lra.
Qed.

(** C5, with rounding taken into account: in an arithmetic of unit
    roundoff [u], for a calibrated mapping with stored transforms [h] and
    [hi] that is well conditioned at [P] for the tolerance 1e-6, if
    [plane_to_image] maps [P] to [q] and the homogeneous coordinate of
    [h @ (q, 1)] is not below the threshold, then [image_to_plane] maps
    [q] to a point within 1e-6 relative tolerance of [P]. *)
Theorem plane_image_roundtrip
    (rnd : R -> R) (u : R) (pp : floating.PlanarPositioner R)
    (h hi : floating.mat3 R) (P q : point) :
  rounding_error rnd u ->
  0 <= u < 1 ->
  floating._calibration_done (floating.calibrator pp) = true ->
  floating.H (floating.calibrator pp) = Some h ->
  floating.H_inv (floating.calibrator pp) = Some hi ->
  well_conditioned u 1e-6 h hi P ->
  floating.plane_to_image (floating.rounded rnd) pp P = Ret (Some q) ->
  ~ Rabs (snd (floating.mat_vec (floating.rounded rnd) h (fst q, snd q, 1)))
    < rnd 1e-10 ->
  exists P' : point,
    floating.image_to_plane (floating.rounded rnd) pp q = Ret (Some P') /\
    point_within_rel 1e-6 P' P.
Proof.
  intros Hr Hu Hd Hh Hhi Hwc Hq Hg.
  unfold floating.plane_to_image in Hq. unfold floating.image_to_plane.
  rewrite (world_to_image_project rnd _ hi P Hd Hhi) in Hq.
  rewrite (image_to_world_project rnd _ h q Hd Hh).
  injection Hq as Hq.
  destruct (project_defined rnd h q Hg) as (P' & HP').
  exists P'. split; [rewrite HP'; reflexivity|].
  exact (roundtrip_within rnd u 1e-6 hi h P q P' Hr Hu Hq HP' Hwc).
Qed.

Lemma plane_image_roundtrip_witness :
  let h := floating.mkMat3 2 0 1 0 4 2 0 0 1 in
  let hi := floating.mkMat3 (1 / 2) 0 (- 1 / 2) 0 (1 / 4) (- 1 / 2) 0 0 1 in
  let pp := floating.mkPositioner
              (floating.mkCalibrator (Some h) (Some hi) None
                 config.WORLD_CORNERS [] true) None in
  let q := match floating.plane_to_image (floating.rounded rnd_up) pp (30, 20) with
           | Ret (Some q) => q
           | _ => (0, 0)
           end in
  exists P' : point,
    floating.image_to_plane (floating.rounded rnd_up) pp q = Ret (Some P') /\
    point_within_rel 1e-6 P' (30, 20).
Proof.
  intros h hi pp q.
  apply (plane_image_roundtrip rnd_up u_binary64 pp h hi (30, 20) q rnd_up_error).
  - unfold u_binary64. lra.
  - reflexivity.
  - reflexivity.
  - reflexivity.
  - unfold well_conditioned, roundtrip_budget, exact_apply, abs_apply, h, hi,
      u_binary64.
    cbn.
    rewrite !Rabs_R0, !Rabs_R1.
    repeat match goal with
    | |- context [Rabs ?x] => rewrite (Rabs_pos_eq x) by lra
    | |- context [Rabs ?x] => rewrite (Rabs_left x) by lra
    end.
    repeat split; lra.
  - unfold q, floating.plane_to_image, floating.world_to_image. cbn.
    replace (Rabs _ <? rnd_up 1e-10) with false; [reflexivity|].
    symmetry. apply Rltb_false. unfold rnd_up, u_binary64.
    rewrite Rabs_pos_eq; lra.
  - cbn. unfold rnd_up, u_binary64. rewrite Rabs_pos_eq; lra.
Defined.

Ltac float_values :=
  unfold float_value, float_to_R;
  repeat match goal with
  | |- context [Prim2SF ?x] =>
    let v := eval vm_compute in (Prim2SF x) in change (Prim2SF x) with v
  end;
  cbv beta iota zeta;
  repeat match goal with
  | |- context [(0 <=? ?e)%Z] =>
    let b := eval vm_compute in (0 <=? e)%Z in change (0 <=? e)%Z with b
  end;
  cbv beta iota;
  repeat match goal with
  | |- context [IZR (?a * ?b)] =>
    let v := eval vm_compute in (a * b)%Z in change (a * b)%Z with v
  | |- context [IZR (?a ^ ?b)] =>
    let v := eval vm_compute in (a ^ b)%Z in change (a ^ b)%Z with v
  end.

(** C5 as stated fails in binary64: the transforms
    [h = [[1, 1, 0], [0, 2^-40, 0], [0, 0, 1]]] and
    [hi = [[1, -2^40, 0], [0, 2^40, 0], [0, 0, 1]]] are exact inverses of
    each other (their product maps each unit vector to itself), the plane
    point (30.1, 20.3) lies inside the play area and both homogeneous
    coordinates are 1, yet the round trip returns 30.1015625 for 30.1, a
    relative error above 5e-5. *)
Lemma roundtrip_ill_conditioned :
  let h := (floating.mkMat3 1 1 0 0 0x1p-40 0 0 0 1)%float in
  let hi := (floating.mkMat3 1 (-0x1p+40) 0 0 0x1p+40 0 0 0 1)%float in
  let corners := [(0, 0); (60, 0); (60, 40); (0, 40)]%float in
  let pp := floating.mkPositioner
              (floating.mkCalibrator (Some h) (Some hi) None corners [] true)
              None in
  exact_apply (mat_value h) (exact_apply (mat_value hi) (1, 0, 0)) = (1, 0, 0) /\
  exact_apply (mat_value h) (exact_apply (mat_value hi) (0, 1, 0)) = (0, 1, 0) /\
  exact_apply (mat_value h) (exact_apply (mat_value hi) (0, 0, 1)) = (0, 0, 1) /\
  (0 <? 30.1)%float && (30.1 <? 60)%float
    && (0 <? 20.3)%float && (20.3 <? 40)%float = true /\
  (exists q,
     floating.plane_to_image floating.binary64 pp (30.1, 20.3)%float
     = Ret (Some q) /\
     floating.image_to_plane floating.binary64 pp q
     = Ret (Some (30.1015625, 20.3)%float)) /\
  float_to_R 30.1015625%float = Some (3853 / 128) /\
  float_to_R 30.1%float = Some (8472396798990746 / 281474976710656) /\
  ~ within_rel 1e-6 (3853 / 128) (8472396798990746 / 281474976710656).
Proof.
  intros h hi corners pp.
  assert (Hinv : forall p : vec3,
            exact_apply (mat_value h) (exact_apply (mat_value hi) p) = p).
  { intros [[x y] z]. unfold exact_apply, mat_value, h, hi.
    cbn [floating.m00 floating.m01 floating.m02 floating.m10 floating.m11
         floating.m12 floating.m20 floating.m21 floating.m22].
    float_values. f_equal; [f_equal|]; field. }
  split; [apply Hinv|]. split; [apply Hinv|]. split; [apply Hinv|].
  split; [vm_compute; reflexivity|].
  split; [|split; [|split]].
  - eexists. split; vm_compute; reflexivity.
  - float_values. f_equal. field.
  - float_values. f_equal.
  - unfold within_rel. intros Hc.
    rewrite Rabs_pos_eq in Hc by lra. rewrite Rabs_pos_eq in Hc by lra. lra.
Qed.

(** X10: the other way round, under the same proviso: an image point [q]
    mapped to the plane and back comes out within the tolerance [tol] of
    [q] when the mapping is well conditioned at [q] for [tol]. *)
Theorem image_plane_roundtrip
    (rnd : R -> R) (u tol : R) (c : floating.HomographyCalibrator R)
    (h hi : floating.mat3 R) (q P : point) :
  rounding_error rnd u ->
  0 <= u < 1 ->
  floating._calibration_done c = true ->
  floating.H c = Some h ->
  floating.H_inv c = Some hi ->
  well_conditioned u tol hi h q ->
  floating.image_to_world (floating.rounded rnd) c q = Ret (Some P) ->
  ~ Rabs (snd (floating.mat_vec (floating.rounded rnd) hi (fst P, snd P, 1)))
    < rnd 1e-10 ->
  exists q' : point,
    floating.world_to_image (floating.rounded rnd) c P = Ret (Some q') /\
    point_within_rel tol q' q.
Proof.
  intros Hr Hu Hd Hh Hhi Hwc HP Hg.
  rewrite (image_to_world_project rnd _ h q Hd Hh) in HP.
  rewrite (world_to_image_project rnd _ hi P Hd Hhi).
  injection HP as HP.
  destruct (project_defined rnd hi P Hg) as (q' & Hq').
  exists q'. split; [rewrite Hq'; reflexivity|].
  exact (roundtrip_within rnd u tol h hi q P q' Hr Hu HP Hq' Hwc).
Qed.

Lemma image_plane_roundtrip_witness :
  let h := floating.mkMat3 2 0 1 0 4 2 0 0 1 in
  let hi := floating.mkMat3 (1 / 2) 0 (- 1 / 2) 0 (1 / 4) (- 1 / 2) 0 0 1 in
  let c := floating.mkCalibrator (Some h) (Some hi) None
             config.WORLD_CORNERS [] true in
  let P := match floating.image_to_world (floating.rounded rnd_up) c (15, 5) with
           | Ret (Some P) => P
           | _ => (0, 0)
           end in
  exists q' : point,
    floating.world_to_image (floating.rounded rnd_up) c P = Ret (Some q') /\
    point_within_rel 1e-9 q' (15, 5).
Proof.
  intros h hi c P.
  apply (image_plane_roundtrip rnd_up u_binary64 1e-9 c h hi (15, 5) P rnd_up_error).
  - unfold u_binary64. lra.
  - reflexivity.
  - reflexivity.
  - reflexivity.
  - unfold well_conditioned, roundtrip_budget, exact_apply, abs_apply, h, hi,
      u_binary64.
    cbn.
    rewrite !Rabs_R0, !Rabs_R1.
    repeat match goal with
    | |- context [Rabs ?x] => rewrite (Rabs_pos_eq x) by lra
    | |- context [Rabs ?x] => rewrite (Rabs_left x) by lra
    end.
    repeat split; lra.
  - unfold P, floating.image_to_world. cbn.
    replace (Rabs _ <? rnd_up 1e-10) with false; [reflexivity|].
    symmetry. apply Rltb_false. unfold rnd_up, u_binary64.
    rewrite Rabs_pos_eq; lra.
  - cbn. unfold rnd_up, u_binary64. rewrite Rabs_pos_eq; lra.
Defined.

(** X11: when [np.linalg.inv] raises on the solver's matrix,
    [_compute_homography] ends in [LinAlgError] after the matrix has been
    stored: the forward transform is the new one, while the inverse
    transform and the calibrated flag are those from before the call. *)
Theorem singular_homography_half_stored
    (F : Type)
    (findHomography : list (F * F) -> list (F * F) -> option (floating.mat3 F))
    (inv : floating.mat3 F -> option (floating.mat3 F))
    (c : floating.HomographyCalibrator F) (corners : list (F * F))
    (h : floating.mat3 F) :
  floating.image_corners c = Some corners ->
  findHomography corners (floating.world_corners c) = Some h ->
  inv h = None ->
  let c' := fst (floating._compute_homography findHomography inv c) in
  snd (floating._compute_homography findHomography inv c) = Raise LinAlgError /\
  floating.H c' = Some h /\
  floating.H_inv c' = floating.H_inv c /\
  floating._calibration_done c' = floating._calibration_done c.
Proof.
  intros Hc Hf Hi. unfold floating._compute_homography. rewrite Hc.
  cbn [floating.H floating.H_inv floating.world_corners floating.image_corners
       floating._click_points floating._calibration_done].
  rewrite Hf, Hi. cbn. auto.
Qed.

(** The matrix of zeros, on which the elimination meets a zero pivot at
    once, replaces the identity held before; [inv] stands in for an
    inverse that raises on a first column of zeros. *)
Lemma singular_homography_half_stored_witness :
  let zeros := (floating.mkMat3 0 0 0 0 0 0 0 0 0)%float in
  let id := (floating.mkMat3 1 0 0 0 1 0 0 0 1)%float in
  let solver := fun _ _ : list (float * float) => Some zeros in
  let inv := fun M : floating.mat3 float =>
               if PrimFloat.eqb (floating.m00 M) 0
                  && PrimFloat.eqb (floating.m10 M) 0
                  && PrimFloat.eqb (floating.m20 M) 0
               then None else Some id in
  let c := floating.mkCalibrator (Some id) (Some id)
             (Some [(0, 0); (1, 1); (2, 2); (3, 3)]%float)
             [(0, 0); (60, 0); (60, 40); (0, 40)]%float [] true in
  let c' := fst (floating._compute_homography solver inv c) in
  snd (floating._compute_homography solver inv c) = Raise LinAlgError /\
  floating.H c' = Some zeros /\
  floating.H_inv c' = floating.H_inv c /\
  floating._calibration_done c' = floating._calibration_done c.
Proof.
  intros zeros id solver inv c.
  apply (singular_homography_half_stored float solver inv c
           [(0, 0); (1, 1); (2, 2); (3, 3)]%float zeros);
    reflexivity.
Defined.

(** ** Height correction *)

(** C8, with the two guards of the code and the rounding of its
    arithmetic taken into account: in an arithmetic of unit roundoff [u],
    for a camera centre (Cx, Cy, Cz) and a height [h] with [Cz > h > 0] on
    which neither guard fires, and an apparent position other than
    (Cx, Cy) whose offsets are resolved by the arithmetic, the factor
    [k = Cz / (Cz - h)] as computed is above 1 and the corrected point
    [C + k (P - C)] as computed lies on the same side of (Cx, Cy) in each
    coordinate and strictly farther from it. *)
Theorem correct_height_moves_away
    (rnd : R -> R) (u : R) (pp : floating.PlanarPositioner R)
    (Cx Cy Cz h : R) (P : point) :
  rounding_error rnd u ->
  0 <= u < 1 ->
  floating._camera_center_world pp = Some (Cx, Cy, Cz) ->
  0 < h < Cz ->
  ~ Rabs h < rnd 1e-6 ->
  ~ Rabs (rnd (Cz - h)) < rnd 1e-6 ->
  P <> (Cx, Cy) ->
  offset_resolved u Cz h Cx (fst P) ->
  offset_resolved u Cz h Cy (snd P) ->
  let k := rnd (Cz / rnd (Cz - h)) in
  let Q := (rnd (Cx + rnd (k * rnd (fst P - Cx))),
            rnd (Cy + rnd (k * rnd (snd P - Cy)))) in
  floating.correct_height (floating.rounded rnd) pp (Some P) h = Some Q /\
  1 < k /\
  0 <= (fst Q - Cx) * (fst P - Cx) /\
  0 <= (snd Q - Cy) * (snd P - Cy) /\
  norm (vsub P (Cx, Cy)) < norm (vsub Q (Cx, Cy)).
Proof.
  intros Hr [Hu0 Hu1] Hc Hh Hg1 Hg2 Hne Hx Hy k Q.
  pose proof (factor_lower_bound rnd u Hu1 Hr Cz h Hh) as Hk. fold k in Hk.
  set (klo := (1 - u) * Cz / ((1 + u) * (Cz - h))) in *.
  assert (Hmargin : forall c x,
            u * Rabs c < ((1 - u) ^ 4 * Cz / ((1 + u) * (Cz - h)) - 1) * Rabs (x - c) ->
            u * Rabs c < ((1 - u) ^ 3 * klo - 1) * Rabs (x - c)).
  { intros c x Hm.
    replace ((1 - u) ^ 3 * klo) with ((1 - u) ^ 4 * Cz / ((1 + u) * (Cz - h)));
      [exact Hm|].
    unfold klo. field. lra. }
  assert (Hcoord : forall c x,
            offset_resolved u Cz h c x ->
            let X := rnd (c + rnd (k * rnd (x - c))) in
            (x = c /\ 0 <= Rabs (X - c)) \/
            (x <> c /\ Rabs (x - c) < Rabs (X - c) /\ 0 < (X - c) * (x - c) /\ 1 < k)).
  { intros c x [-> | Hm] X.
    - left. split; [reflexivity | apply Rabs_pos].
    - right. apply Hmargin in Hm.
      destruct (coordinate_moves_away rnd u Hu0 Hu1 Hr c x k klo Hk Hm) as (Hf & Hs).
      repeat split; try assumption.
      + intros ->. rewrite Rminus_diag, Rabs_R0, Rmult_0_r in Hm.
        pose proof (Rabs_pos c). nra.
      + pose proof (Rabs_pos c). pose proof (Rabs_pos (x - c)).
        assert (Hu3 : 0 < (1 - u) ^ 3) by (apply pow_lt; lra).
        assert (Hu3' : (1 - u) ^ 3 <= 1).
        { assert (0 <= u * u) by nra. assert (0 <= u * u * u) by nra.
          assert (u * u <= u) by nra. assert (u * u * u <= u * u) by nra. nra. }
        assert (0 < (1 - u) ^ 3 * klo - 1).
        { destruct (Rle_lt_dec ((1 - u) ^ 3 * klo - 1) 0); [|assumption]. nra. }
        nra. }
  pose proof (Hcoord Cx (fst P) Hx) as HX.
  pose proof (Hcoord Cy (snd P) Hy) as HY.
  cbv zeta in HX, HY.
  split; [|split; [|split; [|split]]].
  - unfold floating.correct_height. rewrite Hc.
    cbn [floating.rounded floating.fltb floating.fabs floating.c_1em6
         floating.fsub floating.fdiv floating.fadd floating.fmul].
    replace (Rabs h <? rnd 1e-6) with false
      by (symmetry; apply Rltb_false; exact Hg1).
    replace (Rabs (rnd (Cz - h)) <? rnd 1e-6) with false
      by (symmetry; apply Rltb_false; exact Hg2).
    reflexivity.
  - destruct HX as [[Ex _] | (_ & _ & _ & H1)]; [|exact H1].
    destruct HY as [[Ey _] | (_ & _ & _ & H1)]; [|exact H1].
    exfalso. apply Hne. destruct P as [x y]. cbn in *. congruence.
  - subst Q. cbn [fst snd].
    destruct HX as [[Ex _] | (_ & _ & H1 & _)]; [|lra].
    rewrite Ex, Rminus_diag, Rmult_0_r. lra.
  - subst Q. cbn [fst snd].
    destruct HY as [[Ey _] | (_ & _ & H1 & _)]; [|lra].
    rewrite Ey, Rminus_diag, Rmult_0_r. lra.
  - subst Q. unfold norm, vsub. cbn [fst snd].
    set (X := rnd (Cx + rnd (k * rnd (fst P - Cx)))) in *.
    set (Y := rnd (Cy + rnd (k * rnd (snd P - Cy)))) in *.
    assert (Hsq : forall a b, Rabs a <= Rabs b -> a * a <= b * b).
    { intros a b Hab. apply Rsqr_le_abs_1 in Hab. exact Hab. }
    assert (Hsq' : forall a b, Rabs a < Rabs b -> a * a < b * b).
    { intros a b Hab. apply Rsqr_lt_abs_1 in Hab. exact Hab. }
    apply sqrt_lt_1_alt. split.
    + nra.
    + destruct HX as [[Ex HX0] | (Hnx & HXf & _)];
        destruct HY as [[Ey HY0] | (Hny & HYf & _)].
      * exfalso. apply Hne. destruct P as [x y]. cbn in *. congruence.
      * pose proof (Hsq' _ _ HYf).
        assert (Hle : Rabs (fst P - Cx) <= Rabs (X - Cx))
          by (rewrite Ex, Rminus_diag, Rabs_R0; apply Rabs_pos).
        pose proof (Hsq _ _ Hle). lra.
      * pose proof (Hsq' _ _ HXf).
        assert (Hle : Rabs (snd P - Cy) <= Rabs (Y - Cy))
          by (rewrite Ey, Rminus_diag, Rabs_R0; apply Rabs_pos).
        pose proof (Hsq _ _ Hle). lra.
      * pose proof (Hsq' _ _ HXf). pose proof (Hsq' _ _ HYf). lra.
Qed.

Lemma correct_height_moves_away_witness :
  let pp := floating.mkPositioner
              (floating.mkCalibrator None None None config.WORLD_CORNERS [] false)
              (Some (30, 20, 100)) in
  let k := rnd_up (100 / rnd_up (100 - 2)) in
  let Q := (rnd_up (30 + rnd_up (k * rnd_up (40 - 30))),
            rnd_up (20 + rnd_up (k * rnd_up (20 - 20)))) in
  floating.correct_height (floating.rounded rnd_up) pp (Some (40, 20)) 2 = Some Q /\
  1 < k /\
  0 <= (fst Q - 30) * (40 - 30) /\
  0 <= (snd Q - 20) * (20 - 20) /\
  norm (vsub (40, 20) (30, 20)) < norm (vsub Q (30, 20)).
Proof.
  intros pp.
  apply (correct_height_moves_away rnd_up u_binary64 pp 30 20 100 2 (40, 20)
           rnd_up_error).
  - unfold u_binary64. lra.
  - reflexivity.
  - lra.
  - unfold rnd_up, u_binary64. rewrite Rabs_pos_eq; lra.
  - unfold rnd_up, u_binary64. rewrite Rabs_pos_eq; lra.
  - intros E. injection E as E1. lra.
  - right. cbn [fst]. unfold u_binary64.
    rewrite (Rabs_pos_eq 30), (Rabs_pos_eq (40 - 30)) by lra. lra.
  - left. reflexivity.
Defined.

(** Why the proviso on the offsets: in binary64 a height far below the
    spacing of the floats around [Cz] leaves the factor at exactly 1, and
    an offset of one unit in the last place of [Cx] is absorbed when it is
    added back; either way the point comes back unchanged although
    [Cz > h > 0] and no guard fires. *)
Lemma correct_height_rounds_back_binary64 :
  let none := floating.mkCalibrator (F := float) None None None [] [] false in
  (1e11 / (1e11 - 2e-6) = 1)%float /\
  floating.correct_height floating.binary64
    (floating.mkPositioner none (Some (0, 0, 1e11)%float))
    (Some (1, 0)%float) 2e-6%float
  = Some (1, 0)%float /\
  floating.correct_height floating.binary64
    (floating.mkPositioner none (Some (30, 20, 100)%float))
    (Some (30 + 0x1p-48, 20)%float) 2%float
  = Some (30 + 0x1p-48, 20)%float.
Proof. repeat split; vm_compute; reflexivity. Qed.
